(** * CityWide Events: feed discovery and feed collection

    A shallow embedding of [location-feed-discoverer.ts]
    ([LocationFeedDiscoverer]) and of [calendar-collector.ts]
    ([CalendarFeedCollector]), and the properties their specification
    states about them.

    Conventions of the embedding.
    - Strings are ASCII strings; [toLowerCase] and the [\s] class act on
      the ASCII range.
    - Confidence scores are IEEE binary64 numbers (primitive floats), as in
      the runtime: [0.7 + 0.2] is [0.8999999999999999], not [0.9].
    - A [Date] is its time value in milliseconds, or [InvalidDate];
      the +/-8.64e15 range limit of time values is not modelled.
    - Other numbers (JSON numbers, [Math.random()]) are rationals.
    - Everything outside the process (network, clock, random source) and
      the third-party decoders (axios, cheerio, node-ical, xml2js, the URL
      and Date parsers) is a field of a [World]; interactions are numbered
      by a counter kept in the state, so that the same request may be
      answered differently each time it is made.
    - [async] functions are run to completion one after the other; an
      exception or a rejected promise is the [Throw] outcome.
    - [console.log] output is not part of the model. *)

From Stdlib Require Import Floats ZArith QArith Qround Lqa List Sorted String Ascii Bool Lia
  DecimalString.
Import ListNotations.
Set Warnings "-inexact-float,-register-all".
Local Open Scope string_scope.
Local Open Scope Z_scope.

(** ** JavaScript strings *)

Module Str.

Definition code (c : ascii) : nat := nat_of_ascii c.

Definition between (lo hi : nat) (c : ascii) : bool :=
  (Nat.leb lo (code c) && Nat.leb (code c) hi)%bool.

Definition is_upper := between 65 90.
Definition is_lower := between 97 122.
Definition is_digit := between 48 57.

(** The class [\s]: tab, line feed, vertical tab, form feed, carriage
    return, space. *)
Definition is_space (c : ascii) : bool :=
  (between 9 13 c || Nat.eqb (code c) 32)%bool.

Definition lower_char (c : ascii) : ascii :=
  if is_upper c then ascii_of_nat (code c + 32) else c.

Definition upper_char (c : ascii) : ascii :=
  if is_lower c then ascii_of_nat (code c - 32) else c.

Fixpoint map (f : ascii -> ascii) (s : string) : string :=
  match s with
  | EmptyString => EmptyString
  | String c r => String (f c) (map f r)
  end.

Fixpoint filter (p : ascii -> bool) (s : string) : string :=
  match s with
  | EmptyString => EmptyString
  | String c r => if p c then String c (filter p r) else filter p r
  end.

Definition toLowerCase : string -> string := map lower_char.
Definition toUpperCase : string -> string := map upper_char.

Definition startsWith (s p : string) : bool := String.prefix p s.

Fixpoint includes (s sub : string) : bool :=
  (String.prefix sub s ||
   match s with
   | EmptyString => false
   | String _ r => includes r sub
   end)%bool.

Fixpoint drop (n : nat) (s : string) : string :=
  match n, s with
  | O, _ => s
  | S n', String _ r => drop n' r
  | S _, EmptyString => EmptyString
  end.

Definition endsWith (s p : string) : bool :=
  (Nat.leb (String.length p) (String.length s) &&
   String.eqb (drop (String.length s - String.length p) s) p)%bool.

(** [s.substring(0, n)] *)
Definition take (n : nat) (s : string) : string := String.substring 0 n s.

Fixpoint has_char (p : ascii -> bool) (s : string) : bool :=
  match s with
  | EmptyString => false
  | String c r => (p c || has_char p r)%bool
  end.

(** The text before and after the first occurrence of [pat]. *)
Fixpoint split_first (pat s : string) : option (string * string) :=
  if String.prefix pat s then Some (EmptyString, drop (String.length pat) s)
  else match s with
       | EmptyString => None
       | String c r =>
           match split_first pat r with
           | Some (b, a) => Some (String c b, a)
           | None => None
           end
       end.

(** GetSubstitution for a string pattern (no capture groups): [$$],
    [$&], [$`] and [$'] are expanded in the replacement text. *)
Fixpoint get_substitution (matched before after repl : string) : string :=
  match repl with
  | EmptyString => EmptyString
  | String "$" (String "$" r) =>
      String "$" (get_substitution matched before after r)
  | String "$" (String "&" r) =>
      matched ++ get_substitution matched before after r
  | String "$" (String "`" r) =>
      before ++ get_substitution matched before after r
  | String "$" (String "'" r) =>
      after ++ get_substitution matched before after r
  | String c r => String c (get_substitution matched before after r)
  end.

(** [s.replace(pat, repl)] with a string pattern: first occurrence only. *)
Definition replace (s pat repl : string) : string :=
  match split_first pat s with
  | Some (b, a) => b ++ get_substitution pat b a repl ++ a
  | None => s
  end.

(** [s.replace(/\s+/g, sep)] for a one-character or empty [sep]: every
    maximal run of white space becomes [sep]. *)
Fixpoint replace_spaces_from (in_run : bool) (sep s : string) : string :=
  match s with
  | EmptyString => EmptyString
  | String c r =>
      if is_space c
      then (if in_run then replace_spaces_from true sep r
            else sep ++ replace_spaces_from true sep r)
      else String c (replace_spaces_from false sep r)
  end.

Definition replace_spaces : string -> string -> string :=
  replace_spaces_from false.

Fixpoint trimStart (s : string) : string :=
  match s with
  | String c r => if is_space c then trimStart r else s
  | EmptyString => EmptyString
  end.

Fixpoint rev (s : string) : string :=
  match s with
  | EmptyString => EmptyString
  | String c r => rev r ++ String c EmptyString
  end.

Definition trim (s : string) : string := rev (trimStart (rev (trimStart s))).

Definition eq_char (a b : ascii) : bool := Ascii.eqb a b.

(** [s.replace(/<[^>]*>/g, '')]: a ["<"] opens a match when a [">"]
    follows somewhere; the match runs to the first such [">"]. *)
Fixpoint strip_tags_from (in_tag : bool) (s : string) : string :=
  match s with
  | EmptyString => EmptyString
  | String c r =>
      if in_tag then strip_tags_from (negb (eq_char c ">")) r
      else if (eq_char c "<" && has_char (eq_char ">") r)%bool
           then strip_tags_from true r
           else String c (strip_tags_from false r)
  end.

Definition strip_tags : string -> string := strip_tags_from false.

(** [s.replace(/&[^;]+;/g, ' ')]: an ["&"] opens a match when the next
    character is not [";"] and a [";"] follows; the match runs to the
    first such [";"]. *)
Definition opens_entity (r : string) : bool :=
  match r with
  | String c _ => (negb (eq_char c ";") && has_char (eq_char ";") r)%bool
  | EmptyString => false
  end.

Fixpoint strip_entities_from (in_ent : bool) (s : string) : string :=
  match s with
  | EmptyString => EmptyString
  | String c r =>
      if in_ent then strip_entities_from (negb (eq_char c ";")) r
      else if (eq_char c "&" && opens_entity r)%bool
           then String " " (strip_entities_from true r)
           else String c (strip_entities_from false r)
  end.

Definition strip_entities : string -> string := strip_entities_from false.

Definition of_Z (z : Z) : string := NilZero.string_of_int (Z.to_int z).

End Str.

(** ** JavaScript values, dates, exceptions *)

(** Data as the decoders hand it over (parsed JSON, the xml2js result
    tree, iCalendar property values).  An object is the association list
    of its own properties, read by first match. *)
Inductive jsval : Type :=
| VUndef
| VNull
| VBool (b : bool)
| VNum (q : Q)
| VStr (s : string)
| VArr (items : list jsval)
| VObj (fields : list (string * jsval)).

Inductive Date : Type :=
| InvalidDate
| Time (ms : Z).

Inductive exn : Type :=
| NetworkError (url : string)
| StatusError (status : Z)
| TypeError (what : string)
| LibraryError (lib : string)
| Failed (what : string) (cause : exn).

Inductive outcome (A : Type) : Type :=
| Ret (a : A)
| Throw (e : exn).
Arguments Ret {A} a.
Arguments Throw {A} e.

Module Js.

(** ToBoolean *)
Definition truthy (v : jsval) : bool :=
  match v with
  | VUndef | VNull => false
  | VBool b => b
  | VNum q => negb (Qeq_bool q 0)
  | VStr s => negb (String.eqb s "")
  | VArr _ | VObj _ => true
  end.

(** [a || b] *)
Definition or (a b : jsval) : jsval := if truthy a then a else b.

Fixpoint lookup (k : string) (fields : list (string * jsval)) : jsval :=
  match fields with
  | [] => VUndef
  | (k', v) :: r => if String.eqb k k' then v else lookup k r
  end.

Definition has (k : string) (v : jsval) : bool :=
  match v with
  | VObj fields => existsb (fun kv => String.eqb k (fst kv)) fields
  | _ => false
  end.

(** [v.k] for the property names the source reads; none of them is a
    member of a built-in prototype, so only own properties count. *)
Definition get (v : jsval) (k : string) : outcome jsval :=
  match v with
  | VUndef | VNull => Throw (TypeError ("Cannot read properties of undefined or null: " ++ k))
  | VObj fields => Ret (lookup k fields)
  | _ => Ret VUndef
  end.

(** [v?.k] *)
Definition get_opt (v : jsval) (k : string) : jsval :=
  match v with
  | VObj fields => lookup k fields
  | _ => VUndef
  end.

(** [v?.[0]] *)
Definition first_opt (v : jsval) : jsval :=
  match v with
  | VArr (x :: _) => x
  | VStr (String c _) => VStr (String c EmptyString)
  | VObj fields => lookup "0" fields
  | _ => VUndef
  end.

Fixpoint chars (s : string) : list jsval :=
  match s with
  | EmptyString => []
  | String c r => VStr (String c EmptyString) :: chars r
  end.

(** The values visited by [for (const x of v.slice(0, n))]. *)
Definition slice_items (n : nat) (v : jsval) : outcome (list jsval) :=
  match v with
  | VArr items => Ret (firstn n items)
  | VStr s => Ret (chars (Str.take n s))
  | VUndef | VNull => Throw (TypeError "Cannot read properties of undefined or null: slice")
  | _ => Throw (TypeError "slice is not a function")
  end.

(** [v === 0] *)
Definition is_zero (v : jsval) : bool :=
  match v with
  | VNum q => Qeq_bool q 0
  | _ => false
  end.

Section ToString.
Variable Number_toString : Q -> string.

Fixpoint join (sep : string) (l : list string) : string :=
  match l with
  | [] => ""
  | [x] => x
  | x :: r => x ++ sep ++ join sep r
  end.

(** ToString; an array is its elements joined by commas, [null] and
    [undefined] elements giving the empty string. *)
Fixpoint toString (v : jsval) : string :=
  match v with
  | VUndef => "undefined"
  | VNull => "null"
  | VBool true => "true"
  | VBool false => "false"
  | VNum q => Number_toString q
  | VStr s => s
  | VArr items =>
      join "," (List.map (fun x =>
                            match x with
                            | VUndef | VNull => ""
                            | _ => toString x
                            end) items)
  | VObj _ => "[object Object]"
  end.
End ToString.

(** Round toward zero, as the Date constructor does with a number. *)
Definition trunc (q : Q) : Z := Z.quot (Qnum q) (Zpos (Qden q)).

End Js.

Definition date_plus (d : Date) (ms : Z) : Date :=
  match d with
  | InvalidDate => InvalidDate
  | Time t => Time (t + ms)
  end.

(** ** Records of the two modules *)

Inductive SourceType : Type := city | school | chamber | library | parks.

Inductive FeedType : Type := ical | rss | webcal | json | html.

Record CalendarSource : Type := mkSource {
  id : string;
  name : string;
  src_city : string;
  src_state : string;
  type : SourceType;
  feedUrl : option string;
  websiteUrl : option string;
  isActive : bool;
  lastSync : option Date;
  feedType : FeedType
}.

Inductive PlaceType : Type := place_city | place_county | place_township | place_village.

Record LocationInfo : Type := mkLocation {
  loc_city : string;
  loc_state : string;
  county : option string;
  loc_type : PlaceType
}.

(** [LocationInfo & { organizationType }]; the organization type is one of
    [city], [school], [chamber]. *)
Record OrgLocation : Type := mkOrgLocation {
  place : LocationInfo;
  organizationType : SourceType
}.

Record DiscoveredFeed : Type := mkFeed {
  feed_source : CalendarSource;
  confidence : float;
  lastChecked : Date
}.

Record InsertEvent : Type := mkEvent {
  title : jsval;
  description : jsval;
  category : string;
  location : jsval;
  organizer : string;
  startDate : Date;
  endDate : Date;
  startTime : string;
  endTime : string;
  attendees : jsval;
  imageUrl : jsval;
  isFree : string;
  source : string
}.

(** ** The world outside *)

Inductive method : Type := GET | HEAD.

Record response : Type := mkResponse {
  status : Z;
  content_type : option string;
  data : jsval
}.

Inductive reply : Type :=
| NoReply
| Reply (r : response).

Record URL : Type := mkURL {
  origin : string;
  pathname : string
}.

(** cheerio: an element answers [attr(name)] and
    [find(selector).first().text()]; a document answers a selector with
    the matching elements in document order. *)
Record Elem : Type := mkElem {
  attr : string -> option string;
  find_first_text : string -> string
}.

Record Doc : Type := mkDoc {
  select : string -> list Elem
}.

(** node-ical: one entry of [Object.values(ical.parseICS(text))]. *)
Record VComponent : Type := mkComponent {
  ctype : string;
  c_start : option Date;
  c_end : option Date;
  summary : jsval;
  c_description : jsval;
  c_location : jsval
}.

Record World : Type := mkWorld {
  (** indexed by the number of interactions made so far *)
  clock : nat -> Z;
  random : nat -> Q;
  request : nat -> method -> string -> reply;
  (** pure library functions *)
  URL_parse : string -> option string -> outcome URL;
  Date_parse : string -> Date;
  toLocaleTimeString : Z -> string;
  Number_toString : Q -> string;
  RegExp_test : string -> string -> bool;
  cheerio_load : jsval -> outcome Doc;
  ical_parseICS : jsval -> outcome (list VComponent);
  xml2js_parseString : jsval -> outcome jsval
}.

(** ** State and the monad of effects *)

Record Sys : Type := mkSys {
  tick : nat;
  sources : list CalendarSource
}.

Definition M (St A : Type) : Type := St -> outcome A * St.

Definition ret {St A} (a : A) : M St A := fun s => (Ret a, s).

Definition throw {St A} (e : exn) : M St A := fun s => (Throw e, s).

Definition bind {St A B} (m : M St A) (k : A -> M St B) : M St B :=
  fun s =>
    match m s with
    | (Ret a, s') => k a s'
    | (Throw e, s') => (Throw e, s')
    end.

(** [try { m } catch (e) { h e }]: what [m] did to the state before it
    raised stays done. *)
Definition try_catch {St A} (m : M St A) (h : exn -> M St A) : M St A :=
  fun s =>
    match m s with
    | (Ret a, s') => (Ret a, s')
    | (Throw e, s') => h e s'
    end.

Definition lift {St A} (o : outcome A) : M St A := fun s => (o, s).

Declare Scope monad_scope.
Delimit Scope monad_scope with monad.
Notation "x <- m ;; k" := (bind m (fun x => k))
  (at level 61, m at next level, right associativity) : monad_scope.
Notation "m ;;; k" := (bind m (fun _ => k))
  (at level 61, right associativity) : monad_scope.
Local Open Scope monad_scope.

(** [for (const x of l) { body }] *)
Fixpoint for_each {St A} (l : list A) (body : A -> M St unit) : M St unit :=
  match l with
  | [] => ret tt
  | x :: r => body x ;;; for_each r body
  end.

(** A block with a local variable: while the block runs the variable is
    part of the state, so that an assignment made before an exception is
    still visible to the handler and to the code after the block. *)
Definition var {L St A} (init : L) (block : M (L * St) A) : M St A :=
  fun s =>
    match block (init, s) with
    | (r, (_, s')) => (r, s')
    end.

Definition outer {L St A} (m : M St A) : M (L * St) A :=
  fun ls =>
    match m (snd ls) with
    | (r, s') => (r, (fst ls, s'))
    end.

Definition read {L St} : M (L * St) L := fun ls => (Ret (fst ls), ls).

Definition update {L St} (f : L -> L) : M (L * St) unit :=
  fun ls => (Ret tt, (f (fst ls), snd ls)).

(** [arr.push(...items)] *)
Definition push {A} (items : list A) (arr : list A) : list A := arr ++ items.

(** One interaction with the outside. *)
Definition interact {A} (f : nat -> A) : M Sys A :=
  fun s => (Ret (f (tick s)), mkSys (S (tick s)) (sources s)).

(** ** Numbers of the confidence score *)

(** [Math.min] on two numbers. *)
Definition Math_min (a b : float) : float :=
  if (PrimFloat.is_nan a || PrimFloat.is_nan b)%bool then PrimFloat.nan
  else if (a <? b)%float then a
  else if (b <? a)%float then b
  else if PrimFloat.get_sign a then a else b.

(** [arr.sort(cmp)].  The sort is stable, and for a comparator that orders
    the elements consistently the stable sorting is unique; it is computed
    here by insertion from the right.  [cmp x y > 0] puts [y] first. *)
Fixpoint sort_insert {A} (cmp : A -> A -> float) (x : A) (l : list A) : list A :=
  match l with
  | [] => [x]
  | y :: r => if (0 <? cmp x y)%float then y :: sort_insert cmp x r else x :: l
  end.

Definition sort {A} (cmp : A -> A -> float) (l : list A) : list A :=
  fold_right (sort_insert cmp) [] l.

(** [arr.findIndex(p)] *)
Fixpoint findIndex {A} (p : A -> bool) (l : list A) : Z :=
  match l with
  | [] => -1
  | x :: r => if p x then 0 else
                let i := findIndex p r in if i =? -1 then -1 else i + 1
  end.

(** [arr.filter((x, index, self) => p x index self)] *)
Fixpoint filter_from {A} (self : list A) (p : A -> Z -> list A -> bool)
    (index : Z) (l : list A) : list A :=
  match l with
  | [] => []
  | x :: r =>
      if p x index self then x :: filter_from self p (index + 1) r
      else filter_from self p (index + 1) r
  end.

Definition filter_indexed {A} (p : A -> Z -> list A -> bool) (l : list A) : list A :=
  filter_from l p 0 l.

(** [s === t] on optional strings. *)
Definition same_string (a b : option string) : bool :=
  match a, b with
  | Some x, Some y => String.eqb x y
  | None, None => true
  | _, _ => false
  end.

(** [set.add(x)] on a Set kept in insertion order. *)
Definition set_add (set : list string) (x : string) : list string :=
  if existsb (String.eqb x) set then set else set ++ [x].

Definition dq : string := String (ascii_of_nat 34) EmptyString.

Definition type_name (t : SourceType) : string :=
  match t with
  | city => "city"
  | school => "school"
  | chamber => "chamber"
  | library => "library"
  | parks => "parks"
  end.

(** ** LocationFeedDiscoverer *)

Definition commonFeedPaths : list string :=
  [ "/calendar"; "/events"; "/calendar.ics"; "/events.ics"; "/calendar/feed";
    "/events/feed"; "/calendar.rss"; "/events.rss"; "/api/events";
    "/api/calendar"; "/feeds/calendar"; "/feeds/events" ].

Definition governmentDomainPatterns : list string :=
  [ "{city}.gov"; "{city}.{state}.gov"; "www.{city}.gov";
    "www.{city}.{state}.gov"; "{city}{state}.gov"; "city{city}.gov";
    "cityof{city}.gov" ].

Definition schoolDistrictPatterns : list string :=
  [ "{city}schools.org"; "{city}schools.edu"; "{city}sd.org"; "{city}isd.org";
    "www.{city}schools.org"; "www.{city}schools.edu" ].

Definition chamberPatterns : list string :=
  [ "{city}chamber.org"; "{city}chamber.com"; "www.{city}chamber.org";
    "www.{city}chamber.com"; "{city}chamberofcommerce.org";
    "{city}chamberofcommerce.com" ].

Definition stateMap : list (string * string) :=
  [ ("alabama", "AL"); ("alaska", "AK"); ("arizona", "AZ"); ("arkansas", "AR");
    ("california", "CA"); ("colorado", "CO"); ("connecticut", "CT");
    ("delaware", "DE"); ("florida", "FL"); ("georgia", "GA"); ("hawaii", "HI");
    ("idaho", "ID"); ("illinois", "IL"); ("indiana", "IN"); ("iowa", "IA");
    ("kansas", "KS"); ("kentucky", "KY"); ("louisiana", "LA"); ("maine", "ME");
    ("maryland", "MD"); ("massachusetts", "MA"); ("michigan", "MI");
    ("minnesota", "MN"); ("mississippi", "MS"); ("missouri", "MO");
    ("montana", "MT"); ("nebraska", "NE"); ("nevada", "NV");
    ("new hampshire", "NH"); ("new jersey", "NJ"); ("new mexico", "NM");
    ("new york", "NY"); ("north carolina", "NC"); ("north dakota", "ND");
    ("ohio", "OH"); ("oklahoma", "OK"); ("oregon", "OR");
    ("pennsylvania", "PA"); ("rhode island", "RI"); ("south carolina", "SC");
    ("south dakota", "SD"); ("tennessee", "TN"); ("texas", "TX");
    ("utah", "UT"); ("vermont", "VT"); ("virginia", "VA");
    ("washington", "WA"); ("west virginia", "WV"); ("wisconsin", "WI");
    ("wyoming", "WY") ].

Fixpoint assoc (k : string) (table : list (string * string)) : option string :=
  match table with
  | [] => None
  | (k', v) :: r => if String.eqb k k' then Some v else assoc k r
  end.

(** The lower-case names that every object answers to besides its own
    keys.  (The other inherited members, such as [toString], have an
    upper-case letter, and the key looked up is in lower case.) *)
Definition inherited_name (key : string) : bool :=
  (String.eqb key "constructor" || String.eqb key "__proto__")%bool.

(** The table is read by its own keys.  At an [inherited_name] the
    lookup of the code gives a member of every object, which is no
    string, and [discoverFeedsForLocation] raises on
    [location.state.toLowerCase()]: these two names are outside the
    model, and what is proved of a search by state name excludes them. *)
Definition getStateAbbreviation (stateName : string) : string :=
  let normalized := Str.trim (Str.toLowerCase stateName) in
  match assoc normalized stateMap with
  | Some abbr => abbr
  | None => Str.take 2 (Str.toUpperCase stateName)
  end.

Definition createCitySlug (city : string) : string :=
  Str.filter (fun c => (Str.is_lower c || Str.is_digit c)%bool)
    (Str.replace_spaces "" (Str.toLowerCase city)).

Definition generateSourceName (location : OrgLocation) : string :=
  match organizationType location with
  | city => loc_city (place location) ++ " City Government"
  | school => loc_city (place location) ++ " School District"
  | chamber => loc_city (place location) ++ " Chamber of Commerce"
  | t => loc_city (place location) ++ " " ++ type_name t
  end.

(** The ordered rule set of [validateFeedUrl]: wire format and base
    confidence from the content type and the URL. *)
Definition classify (contentType feedUrl : string) : FeedType * float :=
  if (Str.includes contentType "text/calendar" || Str.endsWith feedUrl ".ics")%bool
  then (ical, 0.9%float)
  else if (Str.includes contentType "application/rss" || Str.includes contentType "xml"
           || Str.includes feedUrl "rss" || Str.includes feedUrl ".xml")%bool
  then (rss, 0.8%float)
  else if (Str.includes contentType "application/json" || Str.includes feedUrl "api"
           || Str.includes feedUrl ".json")%bool
  then (json, 0.7%float)
  else if (Str.includes feedUrl "calendar" || Str.includes feedUrl "events")%bool
  then (html, 0.5%float)
  else (html, 0.3%float).

(** [(a, b) => b.confidence - a.confidence] *)
Definition by_confidence (a b : DiscoveredFeed) : float :=
  (confidence b - confidence a)%float.

Definition with_city_type (location : LocationInfo) : LocationInfo :=
  mkLocation (loc_city location) (loc_state location) (county location) place_city.

Section Discoverer.

Variable W : World.

Definition Date_now : M Sys Z := interact (clock W).

Definition new_Date : M Sys Date := now <- Date_now ;; ret (Time now).

(** axios: the promise is rejected when no response arrives (DNS or
    connection failure, timeout) or when [validateStatus] refuses the
    status. *)
Definition axios (m : method) (url : string) (validateStatus : Z -> bool)
  : M Sys response :=
  r <- interact (fun n => request W n m url) ;;
  match r with
  | NoReply => throw (NetworkError url)
  | Reply resp =>
      if validateStatus (status resp) then ret resp
      else throw (StatusError (status resp))
  end.

Definition default_validateStatus (st : Z) : bool :=
  ((200 <=? st) && (st <? 300))%bool.

Definition validateFeedUrl (feedUrl : string) (location : OrgLocation)
  : M Sys (option DiscoveredFeed) :=
  try_catch
    (response <- axios HEAD feedUrl default_validateStatus ;;
     let contentType :=
       match content_type response with
       | Some s => s
       | None => ""
       end in
     let '(feedType, confidence) := classify contentType feedUrl in
     (* Boost confidence for government domains *)
     let confidence :=
       if Str.includes feedUrl ".gov" then (confidence + 0.2)%float
       else confidence in
     now <- Date_now ;;
     url <- lift (URL_parse W feedUrl None) ;;
     let source :=
       {| id := "discovered-"
                ++ Str.replace_spaces "-" (Str.toLowerCase (loc_city (place location)))
                ++ "-" ++ type_name (organizationType location)
                ++ "-" ++ Str.of_Z now;
          name := generateSourceName location;
          src_city := loc_city (place location);
          src_state := loc_state (place location);
          type := organizationType location;
          feedUrl := Some feedUrl;
          websiteUrl := Some (origin url);
          isActive := false;
          lastSync := None;
          feedType := feedType |} in
     checked <- new_Date ;;
     ret (Some {| feed_source := source;
                  confidence := Math_min confidence 1.0;
                  lastChecked := checked |}))
    (fun error => ret None).

(** The paths of the matched anchors, in document order. *)
Fixpoint linked_paths (baseUrl : string) (anchors : list Elem)
    (discoveredPaths : list string) : outcome (list string) :=
  match anchors with
  | [] => Ret discoveredPaths
  | element :: rest =>
      match attr element "href" with
      | Some (String c h as href) =>
          if Str.startsWith href "/"
          then linked_paths baseUrl rest (set_add discoveredPaths href)
          else match URL_parse W href (Some baseUrl) with
               | Ret url =>
                   linked_paths baseUrl rest (set_add discoveredPaths (pathname url))
               | Throw e => Throw e
               end
      | _ => linked_paths baseUrl rest discoveredPaths
      end
  end.

Definition link_selector : string :=
  "a[href*=" ++ dq ++ "calendar" ++ dq ++ "], a[href*=" ++ dq ++ "events" ++ dq ++ "]".

Definition checkDomainForFeeds (domain : string) (location : OrgLocation)
  : M Sys (list DiscoveredFeed) :=
  var ([] : list DiscoveredFeed)
    (try_catch
       ((* First check if domain exists *)
        let baseUrl := "https://" ++ domain in
        response <- outer (axios GET baseUrl (fun st => st <? 500)) ;;
        if status response =? 404 then ret tt (* Domain doesn't exist *)
        else
          doc <- lift (cheerio_load W (data response)) ;;
          discoveredPaths <- lift (linked_paths baseUrl (select doc link_selector) []) ;;
          let discoveredPaths := fold_left set_add commonFeedPaths discoveredPaths in
          for_each (firstn 10 discoveredPaths) (fun path =>
            let feedUrl :=
              if Str.startsWith path "http" then path else baseUrl ++ path in
            feed <- outer (validateFeedUrl feedUrl location) ;;
            match feed with
            | Some f => update (push [f])
            | None => ret tt
            end))
       (fun error => ret tt) ;;;
     read).

(** [discoverGovernmentFeeds], [discoverSchoolFeeds] and
    [discoverChamberFeeds] are the same loop over three pattern tables,
    with three organization types. *)
Definition discoverFromPatterns (patterns : list string) (org : SourceType)
    (location : LocationInfo) (citySlug stateSlug : string)
  : M Sys (list DiscoveredFeed) :=
  var ([] : list DiscoveredFeed)
    (for_each patterns (fun domainPattern =>
       let domain :=
         Str.replace (Str.replace domainPattern "{city}" citySlug)
           "{state}" stateSlug in
       discoveredFeeds <-
         outer (checkDomainForFeeds domain
                  (mkOrgLocation (with_city_type location) org)) ;;
       update (push discoveredFeeds)) ;;;
     read).

Definition discoverGovernmentFeeds := discoverFromPatterns governmentDomainPatterns city.
Definition discoverSchoolFeeds := discoverFromPatterns schoolDistrictPatterns school.
Definition discoverChamberFeeds := discoverFromPatterns chamberPatterns chamber.

Definition discoverFeedsForLocation (location : LocationInfo)
  : M Sys (list DiscoveredFeed) :=
  let discoveredFeeds : list DiscoveredFeed := [] in
  let citySlug := createCitySlug (loc_city location) in
  let stateSlug := Str.toLowerCase (loc_state location) in
  govFeeds <- discoverGovernmentFeeds location citySlug stateSlug ;;
  let discoveredFeeds := push govFeeds discoveredFeeds in
  schoolFeeds <- discoverSchoolFeeds location citySlug stateSlug ;;
  let discoveredFeeds := push schoolFeeds discoveredFeeds in
  chamberFeeds <- discoverChamberFeeds location citySlug stateSlug ;;
  let discoveredFeeds := push chamberFeeds discoveredFeeds in
  (* Sort by confidence score *)
  ret (sort by_confidence discoveredFeeds).

Definition boost (feed : DiscoveredFeed) : DiscoveredFeed :=
  {| feed_source := feed_source feed;
     confidence := Math_min (confidence feed + 0.3)%float 1.0;
     lastChecked := lastChecked feed |}.

Definition checkKnownPatterns (location : LocationInfo)
  : M Sys (list DiscoveredFeed) :=
  let citySlug := createCitySlug (loc_city location) in
  let knownPatterns :=
    [ "https://www." ++ citySlug ++ ".gov/calendar";
      "https://" ++ citySlug ++ ".gov/events";
      "https://www." ++ citySlug ++ ".gov/calendar.ics";
      "https://calendar." ++ citySlug ++ ".gov";
      "https://events." ++ citySlug ++ ".gov" ] in
  var ([] : list DiscoveredFeed)
    (for_each knownPatterns (fun pattern =>
       feed <- outer (validateFeedUrl pattern (mkOrgLocation location city)) ;;
       match feed with
       | Some f => update (push [boost f])
       | None => ret tt
       end) ;;;
     read).

Definition discoverFeedsForPopularLocation (cityName stateName : string)
  : M Sys (list DiscoveredFeed) :=
  let location :=
    {| loc_city := cityName;
       loc_state := getStateAbbreviation stateName;
       county := None;
       loc_type := place_city |} in
  feeds <- discoverFeedsForLocation location ;;
  (* For popular locations, also check known government patterns *)
  additionalFeeds <- checkKnownPatterns location ;;
  let feeds := push additionalFeeds feeds in
  ret (filter_indexed
         (fun feed index self =>
            index =? findIndex (fun f => same_string (feedUrl (feed_source f))
                                                     (feedUrl (feed_source feed))) self)
         feeds).

End Discoverer.

(** ** CalendarFeedCollector *)

Definition seed (id_ name_ city_ state_ : string) (type_ : SourceType)
    (feedUrl_ websiteUrl_ : string) (feedType_ : FeedType) : CalendarSource :=
  {| id := id_; name := name_; src_city := city_; src_state := state_;
     type := type_; feedUrl := Some feedUrl_; websiteUrl := Some websiteUrl_;
     isActive := true; lastSync := None; feedType := feedType_ |}.

(** The initial value of [this.sources]. *)
Definition initial_sources : list CalendarSource :=
  [ (* California Sources *)
    seed "san-francisco-city" "San Francisco City Events" "San Francisco" "CA" city
      "https://sfgov.org/calendar/feed" "https://sfgov.org/calendar" ical;
    seed "los-angeles-city" "Los Angeles City Events" "Los Angeles" "CA" city
      "https://www.lacity.org/events/feed" "https://www.lacity.org/events" rss;
    seed "san-diego-chamber" "San Diego Chamber of Commerce" "San Diego" "CA" chamber
      "https://www.sdchamber.org/events.ics" "https://www.sdchamber.org/events" ical;
    (* Texas Sources *)
    seed "austin-city" "Austin City Events" "Austin" "TX" city
      "https://www.austintexas.gov/calendar/feed"
      "https://www.austintexas.gov/calendar" ical;
    seed "houston-chamber" "Greater Houston Partnership" "Houston" "TX" chamber
      "https://www.houston.org/events.rss" "https://www.houston.org/events" rss;
    seed "dallas-schools" "Dallas Independent School District" "Dallas" "TX" school
      "https://www.dallasisd.org/calendar.ics" "https://www.dallasisd.org/calendar" ical;
    (* New York Sources *)
    seed "nyc-events" "NYC.gov Events" "New York" "NY" city
      "https://www1.nyc.gov/calendar/api/v1/events.json"
      "https://www1.nyc.gov/calendar" json;
    seed "brooklyn-chamber" "Brooklyn Chamber of Commerce" "Brooklyn" "NY" chamber
      "https://www.brooklynchamber.com/events/feed"
      "https://www.brooklynchamber.com/events" rss;
    (* Florida Sources *)
    seed "miami-city" "City of Miami Events" "Miami" "FL" city
      "https://www.miamigov.com/calendar/feed.ics"
      "https://www.miamigov.com/calendar" ical;
    seed "orlando-chamber" "Orlando Regional Chamber" "Orlando" "FL" chamber
      "https://www.orlando.org/events.rss" "https://www.orlando.org/events" rss;
    (* Illinois Sources *)
    seed "chicago-city" "Chicago City Events" "Chicago" "IL" city
      "https://www.chicago.gov/calendar.ics" "https://www.chicago.gov/calendar" ical;
    seed "chicago-schools" "Chicago Public Schools" "Chicago" "IL" school
      "https://www.cps.edu/calendar/feed" "https://www.cps.edu/calendar" rss;
    (* Washington Sources *)
    seed "seattle-city" "Seattle City Events" "Seattle" "WA" city
      "https://www.seattle.gov/calendar.ics" "https://www.seattle.gov/calendar" ical;
    seed "seattle-chamber" "Seattle Metropolitan Chamber" "Seattle" "WA" chamber
      "https://www.seattlechamber.com/events/feed"
      "https://www.seattlechamber.com/events" rss;
    (* Additional Major Cities *)
    seed "denver-city" "Denver City Events" "Denver" "CO" city
      "https://www.denvergov.org/calendar.ics" "https://www.denvergov.org/calendar" ical;
    seed "atlanta-chamber" "Metro Atlanta Chamber" "Atlanta" "GA" chamber
      "https://www.metroatlantachamber.com/events.rss"
      "https://www.metroatlantachamber.com/events" rss;
    seed "phoenix-city" "Phoenix City Events" "Phoenix" "AZ" city
      "https://www.phoenix.gov/calendar/feed.ics"
      "https://www.phoenix.gov/calendar" ical;
    seed "philadelphia-schools" "School District of Philadelphia" "Philadelphia" "PA"
      school "https://www.philasd.org/calendar.ics"
      "https://www.philasd.org/calendar" ical ].

Record EventTemplate : Type := mkTemplate {
  t_title : string;
  t_category : string;
  duration : Z
}.

Definition eventTemplates : list EventTemplate :=
  [ mkTemplate "City Council Meeting" "Community & Social" 2;
    mkTemplate "Public Library Story Time" "Family & Kids" 1;
    mkTemplate "Business Networking Event" "Business & Networking" 2;
    mkTemplate "Community Health Fair" "Health & Wellness" 4;
    mkTemplate "Local Art Exhibition Opening" "Arts & Culture" 3 ].

Definition default_description : string := "Event details available on website".

Definition categorizeEvent (title_ description_ : string) : string :=
  let text := Str.toLowerCase (title_ ++ " " ++ description_) in
  let has := Str.includes text in
  if (has "council" || has "meeting" || has "public")%bool then "Community & Social"
  else if (has "school" || has "education" || has "class")%bool then "Education & Learning"
  else if (has "business" || has "networking" || has "chamber")%bool
  then "Business & Networking"
  else if (has "art" || has "gallery" || has "exhibition")%bool then "Arts & Culture"
  else if (has "music" || has "concert" || has "performance")%bool then "Music & Concerts"
  else if (has "sport" || has "game" || has "tournament")%bool then "Sports & Recreation"
  else if (has "food" || has "dining" || has "restaurant")%bool then "Food & Dining"
  else if (has "health" || has "wellness" || has "fitness")%bool then "Health & Wellness"
  else if (has "family" || has "kids" || has "children")%bool then "Family & Kids"
  else if (has "holiday" || has "celebration" || has "festival")%bool then "Holiday"
  else "Community & Social".

(** [cleanText] on a string. *)
Definition clean (text : string) : string :=
  Str.take 300
    (Str.trim (Str.replace_spaces " " (Str.strip_entities (Str.strip_tags text)))).

(** [cleanText(text)]: a value that is not a string has no [replace]. *)
Definition cleanText (text : jsval) : outcome string :=
  match text with
  | VStr s => Ret (clean s)
  | _ => Throw (TypeError "text.replace is not a function")
  end.

(** [v?.toLowerCase().includes(needle)], as a condition. *)
Definition lower_includes (v : jsval) (needle : string) : outcome bool :=
  match v with
  | VUndef | VNull => Ret false
  | VStr s => Ret (Str.includes (Str.toLowerCase s) needle)
  | _ => Throw (TypeError "toLowerCase is not a function")
  end.

(** [!s] on an optional string. *)
Definition missing (s : option string) : bool :=
  match s with
  | Some (String _ _) => false
  | _ => true
  end.

Definition text_of (s : option string) : string :=
  match s with
  | Some x => x
  | None => ""
  end.

(** The patterns [parseEventDate] tries by hand, as written. *)
Definition date_patterns : list string :=
  [ "/(\d{1,2})\/(\d{1,2})\/(\d{4})/";
    "/(\d{4})-(\d{1,2})-(\d{1,2})/";
    "/(Jan|Feb|Mar|Apr|May|Jun|Jul|Aug|Sep|Oct|Nov|Dec)\w*\s+(\d{1,2}),?\s+(\d{4})/i" ].

Definition eventSelectors : list string :=
  [ ".event-item, .event, .calendar-event";
    "[class*=" ++ dq ++ "event" ++ dq ++ "], [id*=" ++ dq ++ "event" ++ dq ++ "]";
    ".upcoming-events li, .events-list li" ].

(** [arr.slice(i, j)] *)
Definition slice {A} (i j : nat) (l : list A) : list A := firstn (j - i) (skipn i l).

(** The values taken by [i] in [for (let i = 0; i < n; i += size)]. *)
Definition batch_starts (size n : nat) : list nat :=
  List.filter (fun i => Nat.eqb (i mod size) 0) (seq 0 n).

(** The positions of the elements satisfying [p]: [arr.filter(p)] keeps
    references to the elements, not copies. *)
Fixpoint positions {A} (p : A -> bool) (from : nat) (l : list A) : list nat :=
  match l with
  | [] => []
  | x :: r => if p x then from :: positions p (S from) r else positions p (S from) r
  end.

(** The list with the element at position [i] replaced by its image. *)
Fixpoint change_at {A} (i : nat) (f : A -> A) (l : list A) : list A :=
  match l, i with
  | [], _ => []
  | x :: r, O => f x :: r
  | x :: r, S i' => x :: change_at i' f r
  end.

(** The list with the first element satisfying [p] replaced by its image. *)
Fixpoint change_first {A} (p : A -> bool) (f : A -> A) (l : list A) : list A :=
  match l with
  | [] => []
  | x :: r => if p x then f x :: r else x :: change_first p f r
  end.

(** [arr.splice(arr.findIndex(p), 1)] when an element satisfies [p]. *)
Fixpoint remove_first {A} (p : A -> bool) (l : list A) : list A :=
  match l with
  | [] => []
  | x :: r => if p x then r else x :: remove_first p r
  end.

Definition with_lastSync (d : option Date) (s : CalendarSource) : CalendarSource :=
  {| id := id s; name := name s; src_city := src_city s; src_state := src_state s;
     type := type s; feedUrl := feedUrl s; websiteUrl := websiteUrl s;
     isActive := isActive s; lastSync := d; feedType := feedType s |}.

Definition with_isActive (b : bool) (s : CalendarSource) : CalendarSource :=
  {| id := id s; name := name s; src_city := src_city s; src_state := src_state s;
     type := type s; feedUrl := feedUrl s; websiteUrl := websiteUrl s;
     isActive := b; lastSync := lastSync s; feedType := feedType s |}.

Definition with_feedUrl (u : option string) (s : CalendarSource) : CalendarSource :=
  {| id := id s; name := name s; src_city := src_city s; src_state := src_state s;
     type := type s; feedUrl := u; websiteUrl := websiteUrl s;
     isActive := isActive s; lastSync := lastSync s; feedType := feedType s |}.

(** Reading and writing [this.sources]. *)
Definition get_sources : M Sys (list CalendarSource) :=
  fun s => (Ret (sources s), s).

Definition set_sources (l : list CalendarSource) : M Sys unit :=
  fun s => (Ret tt, mkSys (tick s) l).

(** [Promise.allSettled] on one promise: a rejection becomes a value. *)
Definition settled {St A} (m : M St A) : M St (outcome A) :=
  fun s => match m s with (r, s') => (Ret r, s') end.

(** [l.map(f)] where [f] has effects, left to right. *)
Fixpoint map_M {St A B} (f : A -> M St B) (l : list A) : M St (list B) :=
  match l with
  | [] => ret []
  | x :: r => y <- f x ;; ys <- map_M f r ;; ret (y :: ys)
  end.

Section Collector.

Variable W : World.

Definition Math_random : M Sys Q := interact (random W).

(** [setTimeout]: time passes. *)
Definition sleep : M Sys unit := interact (fun _ => tt).

(** [d.toLocaleTimeString('en-US', ...)] *)
Definition timeString (d : Date) : string :=
  match d with
  | Time t => toLocaleTimeString W t
  | InvalidDate => "Invalid Date"
  end.

Definition toString : jsval -> string := Js.toString (Number_toString W).

(** [new Date(v)] *)
Definition Date_of (v : jsval) : Date :=
  match v with
  | VUndef => InvalidDate
  | VNull => Time 0
  | VBool b => Time (if b then 1 else 0)
  | VNum q => Time (Js.trunc q)
  | VStr s => Date_parse W s
  | VArr _ | VObj _ => Date_parse W (toString v)
  end.

Definition place_text (src : CalendarSource) : string :=
  src_city src ++ ", " ++ src_state src.

Definition generateFallbackEvents (src : CalendarSource) : M Sys (list InsertEvent) :=
  (* Generate realistic fallback events when real feeds are unavailable *)
  now <- Date_now W ;;
  var ([] : list InsertEvent)
    (for_each [0; 1; 2] (fun i =>
       let template :=
         nth (Z.to_nat (i mod Z.of_nat (List.length eventTemplates))) eventTemplates
           (mkTemplate "" "" 0) in
       r <- outer Math_random ;;
       let startDate_ :=
         Js.trunc (inject_Z now + inject_Z ((i + 1) * 24 * 60 * 60 * 1000)
                   + r * inject_Z (12 * 60 * 60 * 1000)) in
       let endDate_ := startDate_ + duration template * 60 * 60 * 1000 in
       r_attendees <- outer Math_random ;;
       r_free <- outer Math_random ;;
       update (push
         [ {| title := VStr (t_title template ++ " - " ++ src_city src);
              description :=
                VStr ("Join us for this community event in " ++ src_city src
                      ++ ", " ++ src_state src
                      ++ ". Event details and registration available on our website.");
              category := t_category template;
              location := VStr (place_text src);
              organizer := name src;
              startDate := Time startDate_;
              endDate := Time endDate_;
              startTime := timeString (Time startDate_);
              endTime := timeString (Time endDate_);
              attendees := VNum (inject_Z (Qfloor (r_attendees * 100) + 20));
              imageUrl := VNull;
              isFree := if Qlt_le_dec (3 # 10) r_free then "true" else "false";
              source := id src |} ])) ;;;
     read).

(** The record [parseICalFeed] makes of one component. *)
Definition ical_event (src : CalendarSource) (event : VComponent)
    (start : Date) : outcome InsertEvent :=
  let startDate_ := start in
  let endDate_ :=
    match c_end event with
    | Some d => d
    | None => date_plus startDate_ (60 * 60 * 1000)
    end in
  match lower_includes (c_description event) "free" with
  | Throw e => Throw e
  | Ret free =>
      Ret {| title := summary event;
             description := Js.or (c_description event) (VStr default_description);
             category :=
               categorizeEvent (toString (summary event))
                 (toString (Js.or (c_description event) (VStr "")));
             location := Js.or (c_location event) (VStr (place_text src));
             organizer := name src;
             startDate := startDate_;
             endDate := endDate_;
             startTime := timeString startDate_;
             endTime := timeString endDate_;
             attendees := VNum 0;
             imageUrl := VNull;
             isFree := if free then "true" else "false";
             source := id src |}
  end.

Fixpoint ical_events (src : CalendarSource) (events : list VComponent)
    (parsedEvents : list InsertEvent) : outcome (list InsertEvent) :=
  match events with
  | [] => Ret parsedEvents
  | event :: rest =>
      match c_start event with
      | Some start =>
          if (String.eqb (ctype event) "VEVENT" && Js.truthy (summary event))%bool
          then match ical_event src event start with
               | Ret e => ical_events src rest (push [e] parsedEvents)
               | Throw e => Throw e
               end
          else ical_events src rest parsedEvents
      | None => ical_events src rest parsedEvents
      end
  end.

Definition parseICalFeed (src : CalendarSource) : M Sys (list InsertEvent) :=
  if missing (feedUrl src) then ret []
  else
    try_catch
      (response <- axios W GET (text_of (feedUrl src)) (default_validateStatus) ;;
       events <- lift (ical_parseICS W (data response)) ;;
       parsedEvents <- lift (ical_events src events []) ;;
       ret (firstn 10 parsedEvents) (* Limit to 10 events per source *))
      (fun error => throw (Failed "Failed to parse iCal feed" error)).

(** The record [parseRSSFeed] makes of one item. *)
Definition rss_event (src : CalendarSource) (item : jsval) : M Sys InsertEvent :=
  item_title <- lift (Js.get item "title") ;;
  let title_ :=
    Js.or (Js.first_opt item_title)
      (Js.or (Js.get_opt item_title "_") (VStr "Untitled Event")) in
  let description_ :=
    Js.or (Js.first_opt (Js.get_opt item "description"))
      (Js.or (Js.first_opt (Js.get_opt item "summary")) (VStr default_description)) in
  let pubDate :=
    Js.or (Js.first_opt (Js.get_opt item "pubDate"))
      (Js.first_opt (Js.get_opt item "published")) in
  startDate_ <- (if Js.truthy pubDate then ret (Date_of pubDate) else new_Date W) ;;
  let endDate_ := date_plus startDate_ (2 * 60 * 60 * 1000) (* 2 hour default *) in
  clean_title <- lift (cleanText title_) ;;
  clean_description <- lift (cleanText description_) ;;
  free <- lift (match description_ with
                | VStr s => Ret (Str.includes (Str.toLowerCase s) "free")
                | _ => Throw (TypeError "description.toLowerCase is not a function")
                end) ;;
  ret {| title := VStr clean_title;
         description := VStr clean_description;
         category := categorizeEvent (toString title_) (toString description_);
         location := VStr (place_text src);
         organizer := name src;
         startDate := startDate_;
         endDate := endDate_;
         startTime := timeString startDate_;
         endTime := timeString endDate_;
         attendees := VNum 0;
         imageUrl := VNull;
         isFree := if free then "true" else "false";
         source := id src |}.

(** A failure of the request is wrapped by the [catch] of
    [parseRSSFeed]; an exception raised while the decoded document is
    read rejects the promise that was returned from inside the [try]
    and is not wrapped. *)
Definition parseRSSFeed (src : CalendarSource) : M Sys (list InsertEvent) :=
  if missing (feedUrl src) then ret []
  else
    response <-
      try_catch (axios W GET (text_of (feedUrl src)) default_validateStatus)
        (fun error => throw (Failed "Failed to parse RSS feed" error)) ;;
    result <- lift (xml2js_parseString W (data response)) ;;
    rss_ <- lift (Js.get result "rss") ;;
    feed_ <- lift (Js.get result "feed") ;;
    let items :=
      Js.or (Js.get_opt (Js.first_opt (Js.get_opt rss_ "channel")) "item")
        (Js.or (Js.get_opt feed_ "entry") (VArr [])) in
    first_items <- lift (Js.slice_items 10 items) ;;
    map_M (rss_event src) first_items.

(** The record [parseJSONFeed] makes of one entry. *)
Definition json_event (src : CalendarSource) (event : jsval) : M Sys InsertEvent :=
  start_date <- lift (Js.get event "start_date") ;;
  let start_ := Js.or start_date (Js.get_opt event "date") in
  startDate_ <- (if Js.truthy start_ then ret (Date_of start_) else new_Date W) ;;
  let end_ := Js.or (Js.get_opt event "end_date") (Js.get_opt event "date") in
  let endDate_ :=
    if Js.truthy end_ then Date_of end_
    else date_plus startDate_ (2 * 60 * 60 * 1000) in
  free <-
    lift (if Js.truthy (Js.get_opt event "is_free") then Ret true
          else if Js.is_zero (Js.get_opt event "price") then Ret true
          else lower_includes (Js.get_opt event "description") "free") ;;
  ret {| title :=
           Js.or (Js.get_opt event "title")
             (Js.or (Js.get_opt event "name") (VStr "Untitled Event"));
         description :=
           Js.or (Js.get_opt event "description")
             (Js.or (Js.get_opt event "summary") (VStr default_description));
         category :=
           categorizeEvent (toString (Js.or (Js.get_opt event "title") (VStr "")))
             (toString (Js.or (Js.get_opt event "description") (VStr "")));
         location := Js.or (Js.get_opt event "location") (VStr (place_text src));
         organizer := name src;
         startDate := startDate_;
         endDate := endDate_;
         startTime := timeString startDate_;
         endTime := timeString endDate_;
         attendees := Js.or (Js.get_opt event "attendees") (VNum 0);
         imageUrl := Js.or (Js.get_opt event "image_url") VNull;
         isFree := if free then "true" else "false";
         source := id src |}.

Definition parseJSONFeed (src : CalendarSource) : M Sys (list InsertEvent) :=
  if missing (feedUrl src) then ret []
  else
    try_catch
      (response <- axios W GET (text_of (feedUrl src)) default_validateStatus ;;
       let data_ := data response in
       data_events <- lift (Js.get data_ "events") ;;
       let events :=
         Js.or data_events
           (Js.or (Js.get_opt data_ "items")
              (Js.or (Js.get_opt data_ "data") (VArr []))) in
       first_events <- lift (Js.slice_items 10 events) ;;
       map_M (json_event src) first_events)
      (fun error => throw (Failed "Failed to parse JSON feed" error)).

Definition parseWebCalFeed (src : CalendarSource) : M Sys (list InsertEvent) :=
  (* WebCal is typically just iCal with webcal:// protocol *)
  let icalUrl :=
    match feedUrl src with
    | Some u => Some (Str.replace u "webcal://" "https://")
    | None => None
    end in
  parseICalFeed (with_feedUrl icalUrl src).

(** Nothing in the [try] block of [parseEventDate] raises, so its
    [catch] block is never entered. *)
Definition parseEventDate (dateText : string) : option Date :=
  if String.eqb dateText "" then None
  else
    match Date_parse W dateText with
    | Time t => Some (Time t)
    | InvalidDate =>
        if existsb (fun pattern => RegExp_test W pattern dateText) date_patterns
        then Some (Date_parse W dateText)
        else None
    end.

(** The body of [events.slice(0, 5).each(...)] in [scrapeHTMLEvents]. *)
Definition html_event (src : CalendarSource) (element : Elem)
  : M (list InsertEvent * Sys) unit :=
  let first_text selector := Str.trim (find_first_text element selector) in
  let title_ :=
    if negb (String.eqb (first_text "h1, h2, h3, .title, .event-title") "")
    then first_text "h1, h2, h3, .title, .event-title"
    else if negb (String.eqb (first_text "a") "") then first_text "a"
    else "Community Event" in
  if (negb (String.eqb title_ "") && Nat.ltb 3 (String.length title_))%bool
  then
    let description_ :=
      if negb (String.eqb (first_text ".description, .summary, p") "")
      then first_text ".description, .summary, p"
      else default_description in
    let dateText := first_text ".date, .event-date, time" in
    startDate_ <-
      match parseEventDate dateText with
      | Some d => ret d
      | None => outer (new_Date W)
      end ;;
    let endDate_ := date_plus startDate_ (2 * 60 * 60 * 1000) in
    update (push
      [ {| title := VStr (clean title_);
           description := VStr (clean (Str.take 300 description_));
           category := categorizeEvent title_ description_;
           location := VStr (place_text src);
           organizer := name src;
           startDate := startDate_;
           endDate := endDate_;
           startTime := timeString startDate_;
           endTime := timeString endDate_;
           attendees := VNum 0;
           imageUrl := VNull;
           isFree :=
             if Str.includes (Str.toLowerCase description_) "free"
             then "true" else "false";
           source := id src |} ])
  else ret tt.

(** The loop over [eventSelectors], left by [break] once events have
    been found. *)
Fixpoint html_selectors (src : CalendarSource) (doc : Doc)
    (selectors : list string) : M (list InsertEvent * Sys) unit :=
  match selectors with
  | [] => ret tt
  | selector :: rest =>
      let events := select doc selector in
      match events with
      | [] => html_selectors src doc rest
      | _ =>
          for_each (firstn 5 events) (html_event src) ;;;
          parsedEvents <- read ;;
          match parsedEvents with
          | [] => html_selectors src doc rest
          | _ => ret tt (* Found events with this selector *)
          end
      end
  end.

Definition scrapeHTMLEvents (src : CalendarSource) : M Sys (list InsertEvent) :=
  if missing (websiteUrl src) then ret []
  else
    try_catch
      (response <- axios W GET (text_of (websiteUrl src)) default_validateStatus ;;
       doc <- lift (cheerio_load W (data response)) ;;
       var ([] : list InsertEvent)
         (html_selectors src doc eventSelectors ;;; read))
      (fun error => throw (Failed "Failed to scrape HTML events" error)).

(** The [default] branch of the [switch] is not reachable with a
    [feedType] of the declared type. *)
Definition collectFromSource (src : CalendarSource) : M Sys (list InsertEvent) :=
  try_catch
    (match feedType src with
     | ical => parseICalFeed src
     | rss => parseRSSFeed src
     | json => parseJSONFeed src
     | webcal => parseWebCalFeed src
     | html => scrapeHTMLEvents src
     end)
    (fun error =>
       (* Fallback to simulated data for demo purposes when real feeds fail *)
       generateFallbackEvents src).

(** [source.lastSync = new Date()] on the element of [this.sources] that
    [batch[index]] refers to. *)
Definition touch (position : nat) : M Sys unit :=
  now <- new_Date W ;;
  all <- get_sources ;;
  set_sources (change_at position (with_lastSync (Some now)) all).

(** One task of a batch: [collectFromSource] on the source at
    [position] of [this.sources] (a position given by [positions], so
    the source is there). *)
Definition collect_at (position : nat) : M Sys (list InsertEvent) :=
  all <- get_sources ;;
  match nth_error all position with
  | Some src => collectFromSource src
  | None => throw (TypeError "no such source")
  end.

(** The tasks of a batch are started together and awaited together; they
    are run here one after the other, which is one of the possible
    schedules, and the other schedules differ from it only by the
    order in which the tasks meet the world. *)
Definition collectFromAllSources : M Sys (list InsertEvent) :=
  all <- get_sources ;;
  let activeSources := positions isActive 0 all in
  (* Process sources in batches to avoid overwhelming servers *)
  let batchSize := 5%nat in
  var ([] : list InsertEvent)
    (for_each (batch_starts batchSize (List.length activeSources)) (fun i =>
       let batch := slice i (i + batchSize) activeSources in
       batchResults <- outer (map_M (fun p => settled (collect_at p)) batch) ;;
       try_catch
         (for_each (List.combine batchResults batch) (fun '(result, position) =>
            match result with
            | Ret value =>
                update (push value) ;;;
                outer (touch position)
            | Throw reason => ret tt
            end))
         (fun error => ret tt) ;;;
       (* Add delay between batches to be respectful *)
       if Nat.ltb (i + batchSize) (List.length activeSources)
       then outer sleep else ret tt) ;;;
     read).

Definition getSources : M Sys (list CalendarSource) := get_sources.

Definition getSourcesByState (state_ : string) : M Sys (list CalendarSource) :=
  all <- get_sources ;;
  ret (List.filter (fun s => String.eqb (src_state s) state_) all).

Definition getSourcesByType (type_ : string) : M Sys (list CalendarSource) :=
  all <- get_sources ;;
  ret (List.filter (fun s => String.eqb (type_name (type s)) type_) all).

Definition toggleSource (sourceId : string) : M Sys bool :=
  all <- get_sources ;;
  match List.find (fun s => String.eqb (id s) sourceId) all with
  | Some src =>
      set_sources
        (change_first (fun s => String.eqb (id s) sourceId)
           (fun s => with_isActive (negb (isActive s)) s) all) ;;;
      ret (negb (isActive src))
  | None => ret false
  end.

Definition addSource (src : CalendarSource) : M Sys bool :=
  all <- get_sources ;;
  (* Check if source already exists *)
  let existingSource :=
    List.find (fun s => (same_string (feedUrl s) (feedUrl src)
                         || String.eqb (id s) (id src))%bool) all in
  match existingSource with
  | Some _ => ret false (* Source already exists *)
  | None =>
      (* Add the new source *)
      set_sources (push [src] all) ;;;
      ret true
  end.

Definition removeSource (sourceId : string) : M Sys bool :=
  all <- get_sources ;;
  if findIndex (fun s => String.eqb (id s) sourceId) all =? -1
  then ret false
  else
    set_sources (remove_first (fun s => String.eqb (id s) sourceId) all) ;;;
    ret true.

End Collector.

(** ** routes.ts *)

(** What a handler sends: [res.status(code).json(payload)], where
    [res.json(payload)] alone sends the code 200. *)
Inductive Payload : Type :=
| Message (message : string)
| Discovery (city_ state_ : string) (discoveredFeeds : list DiscoveredFeed)
    (count : Z) (timestamp : Date).

Record HttpResponse : Type := mkHttp {
  code : Z;
  payload : Payload
}.

Section Routes.

Variable W : World.

(** [POST /api/discover-feeds] on the request body [body].  The
    discoverer applies [toLowerCase] to the state and then to the city
    before anything else, and a value decoded from JSON that is not a
    string has no such method. *)
Definition discover_feeds (body : jsval) : M Sys HttpResponse :=
  try_catch
    (city_ <- lift (Js.get body "city") ;;
     state_ <- lift (Js.get body "state") ;;
     if (negb (Js.truthy city_) || negb (Js.truthy state_))%bool
     then ret (mkHttp 400 (Message "City and state are required"))
     else
       match state_, city_ with
       | VStr stateName, VStr cityName =>
           discoveredFeeds <- discoverFeedsForPopularLocation W cityName stateName ;;
           now <- new_Date W ;;
           ret (mkHttp 200
                  (Discovery cityName stateName discoveredFeeds
                     (Z.of_nat (List.length discoveredFeeds)) now))
       | _, _ => throw (TypeError "toLowerCase is not a function")
       end)
    (fun error => ret (mkHttp 500 (Message "Failed to discover feeds for location"))).

End Routes.

(** ** schema.ts *)

(** The categories an event can be filed under. *)
Definition categories : list string :=
  [ "Music & Concerts"; "Sports & Recreation"; "Community & Social";
    "Education & Learning"; "Arts & Culture"; "Food & Dining"; "Holiday";
    "Business & Networking"; "Health & Wellness"; "Family & Kids" ].

(** * Notions used by the specification *)

Definition in_unit_interval (c : float) : Prop :=
  (0 <=? c)%float = true /\ (c <=? 1)%float = true.

Definition unit_confidence (f : DiscoveredFeed) : Prop :=
  in_unit_interval (confidence f).

(** Earlier entries have a confidence at least that of later ones. *)
Definition confidence_descending (feeds : list DiscoveredFeed) : Prop :=
  forall i j a b,
    (i < j)%nat ->
    nth_error feeds i = Some a -> nth_error feeds j = Some b ->
    (confidence b <=? confidence a)%float = true.

(** The score [validateFeedUrl] gives a URL answered with content type
    [contentType]. *)
Definition scored (contentType feedUrl : string) : float :=
  Math_min
    (if Str.includes feedUrl ".gov"
     then (snd (classify contentType feedUrl) + 0.2)%float
     else snd (classify contentType feedUrl))
    1.0.

(** Every value [scored] can take. *)
Definition scores : list float :=
  List.map (fun c => Math_min c 1.0)
    [ 0.9; 0.8; 0.7; 0.5; 0.3;
      0.9 + 0.2; 0.8 + 0.2; 0.7 + 0.2; 0.5 + 0.2; 0.3 + 0.2 ]%float.

(** What is checked of each score, and of each three scores, by
    evaluation. *)
Definition score_checks (x : float) : bool :=
  ((0 <=? x) && (x <=? 1) && (0 <=? Math_min (x + 0.3) 1.0)
   && (Math_min (x + 0.3) 1.0 <=? 1))%float%bool.

Definition order_checks (x y z : float) : bool :=
  ((negb (0 <? y - x) || negb (0 <? x - y))
   && implb (negb (0 <? y - x) && negb (0 <? z - y)) (negb (0 <? z - x))
   && implb (negb (0 <? y - x)) (y <=? x))%float%bool.

(** A feed as [validateFeedUrl] makes it. *)
Definition validated (f : DiscoveredFeed) : Prop := In (confidence f) scores.

(** A feed as [checkKnownPatterns] leaves it. *)
Definition boosted (f : DiscoveredFeed) : Prop :=
  exists x, In x scores /\ confidence f = Math_min (x + 0.3)%float 1.0.

(** The host part of an absolute URL [scheme://host/...]: the text between
    [://] and the next [/], [?] or [#]. *)
Fixpoint until_delimiter (s : string) : string :=
  match s with
  | EmptyString => EmptyString
  | String c r =>
      if (Str.eq_char c "/" || Str.eq_char c "?" || Str.eq_char c "#")%bool
      then EmptyString
      else String c (until_delimiter r)
  end.

Definition url_host (url : string) : string :=
  match Str.split_first "://" url with
  | Some (_, rest) => until_delimiter rest
  | None => EmptyString
  end.

Definition government_host (url : string) : bool :=
  Str.endsWith (url_host url) ".gov".

(** The ['content-type'] header of a response, [''] when absent. *)
Definition header (resp : response) : string :=
  match content_type resp with
  | Some ct => ct
  | None => ""
  end.

(** The probe of [https://domain] made in state [s] gets no response, or
    gets the status 404. *)
Definition unreachable (W : World) (s : Sys) (domain : string) : Prop :=
  match request W (tick s) GET ("https://" ++ domain) with
  | NoReply => True
  | Reply r => status r = 404
  end.

(** The location [discoverFeedsForPopularLocation] builds from its
    arguments. *)
Definition popular_location (cityName stateName : string) : LocationInfo :=
  {| loc_city := cityName;
     loc_state := getStateAbbreviation stateName;
     county := None;
     loc_type := place_city |}.

(** De-duplication by feed URL, first occurrence kept. *)
Definition first_by_feedUrl (feeds : list DiscoveredFeed) : list DiscoveredFeed :=
  filter_indexed
    (fun feed index self =>
       index =? findIndex (fun f => same_string (feedUrl (feed_source f))
                                                (feedUrl (feed_source feed))) self)
    feeds.

(** The accumulator of a block holds only feeds satisfying [P]. *)
Definition all_in {St} (P : DiscoveredFeed -> Prop)
    (ls : list DiscoveredFeed * St) : Prop :=
  Forall P (fst ls).

(** ** Sample worlds *)

(** A URL parser good enough for the sample worlds: absolute [https]
    URLs without port, query or fragment. *)
Definition sample_URL (input : string) (base : option string) : outcome URL :=
  match Str.split_first "://" input with
  | Some (scheme, rest) =>
      let host := until_delimiter rest in
      let path := Str.drop (String.length host) rest in
      Ret {| origin := scheme ++ "://" ++ host;
             pathname := if String.eqb path "" then "/" else path |}
  | None => Throw (TypeError "Invalid URL")
  end.

Definition page (hrefs : list string) : Doc :=
  {| select := fun _ =>
       List.map (fun h => {| attr := fun a => if String.eqb a "href" then Some h else None;
                             find_first_text := fun _ => "" |}) hrefs |}.

Definition among (l : list string) (x : string) : bool := existsb (String.eqb x) l.

(** A world where the hosts in [live] answer with a page holding the
    anchors [hrefs], the URLs in [feeds] answer a HEAD request with
    [text/html], and nothing else answers. *)
Definition sample_world (live hrefs feeds : list string) : World :=
  {| clock := fun n => 1700000000000 + Z.of_nat n;
     random := fun _ => 0%Q;
     request := fun _ m url =>
       match m with
       | GET => if among live url
                then Reply (mkResponse 200 (Some "text/html") (VStr "<html>"))
                else NoReply
       | HEAD => if among feeds url
                 then Reply (mkResponse 200 (Some "text/html") VUndef)
                 else NoReply
       end;
     URL_parse := sample_URL;
     Date_parse := fun _ => InvalidDate;
     toLocaleTimeString := fun _ => "12:00 PM";
     Number_toString := fun _ => "0";
     RegExp_test := fun _ _ => false;
     cheerio_load := fun _ => Ret (page hrefs);
     ical_parseICS := fun _ => Ret [];
     xml2js_parseString := fun _ => Ret VNull |}.

(** Nothing answers. *)
Definition silent_world : World := sample_world [] [] [].

(** The root of every host answers 404. *)
Definition not_found_world : World :=
  {| clock := clock silent_world;
     random := random silent_world;
     request := fun _ _ _ => Reply (mkResponse 404 (Some "text/html") (VStr "Not Found"));
     URL_parse := sample_URL;
     Date_parse := Date_parse silent_world;
     toLocaleTimeString := toLocaleTimeString silent_world;
     Number_toString := Number_toString silent_world;
     RegExp_test := RegExp_test silent_world;
     cheerio_load := cheerio_load silent_world;
     ical_parseICS := ical_parseICS silent_world;
     xml2js_parseString := xml2js_parseString silent_world |}.

(** The chamber's site is up and serves [/calendar]; of the known
    government URLs only [calendar.springfield.gov] answers. *)
Definition springfield_world : World :=
  sample_world [ "https://springfieldchamber.org" ] []
    [ "https://springfieldchamber.org/calendar";
      "https://calendar.springfield.gov" ].

(** The chamber's home page links to [/events?ref=city.gov]. *)
Definition chamber_world : World :=
  sample_world [ "https://springfieldchamber.org" ] [ "/events?ref=city.gov" ]
    [ "https://springfieldchamber.org/events?ref=city.gov" ].

Definition springfield : LocationInfo :=
  {| loc_city := "Springfield"; loc_state := "IL"; county := None;
     loc_type := place_city |}.

Definition boot : Sys := {| tick := 0; sources := [] |}.

(** ** Notions about the collector *)

(** A source without its last-sync timestamp. *)
Definition identity (src : CalendarSource) : CalendarSource := with_lastSync None src.

Definition registry_identity (s : Sys) : list CalendarSource :=
  List.map identity (sources s).

(** [after] is [before] with, at most, another last-sync timestamp. *)
Definition same_but_lastSync (before after : CalendarSource) : Prop :=
  after = with_lastSync (lastSync after) before.

(** Some source of [l] has the feed URL or the id of [src]. *)
Definition duplicate_of (src : CalendarSource) (l : list CalendarSource) : Prop :=
  exists existing,
    In existing l /\ (feedUrl existing = feedUrl src \/ id existing = id src).

Definition lacks_feedUrl (src : CalendarSource) : bool :=
  match feedUrl src with
  | None => true
  | Some _ => false
  end.

(** At most one source of the list has no feed URL. *)
Definition at_most_one_without_feedUrl (l : list CalendarSource) : Prop :=
  (List.length (List.filter lacks_feedUrl l) <= 1)%nat.

(** The operations of the registry and of the collector on
    [this.sources]. *)
Inductive RegistryOp : Type :=
| GetSources
| GetSourcesByState (state_ : string)
| GetSourcesByType (type_ : string)
| ToggleSource (sourceId : string)
| AddSource (src : CalendarSource)
| RemoveSource (sourceId : string)
| CollectFromAllSources.

Definition apply_op (W : World) (op : RegistryOp) (s : Sys) : Sys :=
  match op with
  | GetSources => snd (getSources s)
  | GetSourcesByState state_ => snd (getSourcesByState state_ s)
  | GetSourcesByType type_ => snd (getSourcesByType type_ s)
  | ToggleSource sourceId => snd (toggleSource sourceId s)
  | AddSource src => snd (addSource src s)
  | RemoveSource sourceId => snd (removeSource sourceId s)
  | CollectFromAllSources => snd (collectFromAllSources W s)
  end.

Definition run_ops (W : World) (ops : list RegistryOp) (s : Sys) : Sys :=
  fold_left (fun s op => apply_op W op s) ops s.

(** The real fetch-and-parse path of [collectFromSource]: the [switch]
    inside its [try]. *)
Definition fetch_and_parse (W : World) (src : CalendarSource)
  : M Sys (list InsertEvent) :=
  match feedType src with
  | ical => parseICalFeed W src
  | rss => parseRSSFeed W src
  | json => parseJSONFeed W src
  | webcal => parseWebCalFeed W src
  | html => scrapeHTMLEvents W src
  end.

(** [Math.random()] answers with a number of [0, 1). *)
Definition random_in_range (W : World) : Prop :=
  forall n, (0 <= random W n)%Q /\ (random W n < 1)%Q.

(** An event of the fallback generator for [src], made when the clock
    read [now]. *)
Definition fallback_event (src : CalendarSource) (now : Z) (e : InsertEvent) : Prop :=
  source e = id src /\ exists t, startDate e = Time t /\ now < t.

(** The collector as constructed. *)
Definition fresh_collector : Sys := {| tick := 0; sources := initial_sources |}.

(** The test [addSource] makes on each existing source. *)
Definition clashes (src existing : CalendarSource) : bool :=
  (same_string (feedUrl existing) (feedUrl src) || String.eqb (id existing) (id src))%bool.

(** A candidate with the feed URL of the first seeded source under another
    id, and one that clashes with nothing. *)
Definition sf_again : CalendarSource :=
  seed "sf-events" "SF Events" "San Francisco" "CA" city
    "https://sfgov.org/calendar/feed" "https://sfgov.org" ical.

Definition boise : CalendarSource :=
  seed "boise-city" "Boise City Events" "Boise" "ID" city
    "https://www.cityofboise.org/calendar.ics" "https://www.cityofboise.org" ical.

Definition without_feedUrl (l : list CalendarSource) : nat :=
  List.length (List.filter lacks_feedUrl l).

(** Two sources without a feed URL. *)
Definition walk_in : CalendarSource :=
  {| id := "walk-in"; name := "Walk-in Announcements"; src_city := "Boise";
     src_state := "ID"; type := library; feedUrl := None;
     websiteUrl := Some "https://www.boisepubliclibrary.org";
     isActive := false; lastSync := None; feedType := html |}.

Definition drop_by : CalendarSource :=
  {| id := "drop-by"; name := "Drop-by Announcements"; src_city := "Boise";
     src_state := "ID"; type := parks; feedUrl := None;
     websiteUrl := Some "https://www.cityofboise.org/parks";
     isActive := false; lastSync := None; feedType := html |}.

(** ** Notions about the parsers *)

(** The components [parseICalFeed] makes a record of. *)
Definition qualifies (c : VComponent) : bool :=
  (String.eqb (ctype c) "VEVENT"
   && match c_start c with Some _ => true | None => false end
   && Js.truthy (summary c))%bool.

(** [e] is the record of the component [c] as the decoder hands it
    over: its title, its start, and the end the decoder gives it; only
    when the decoder gives it no end, its start plus one hour.  (The
    condition is on the decoder's answer, not on the text of the feed:
    whether an event written without [DTEND] comes out of the decoder
    without an end is the decoder's business.) *)
Definition record_of (c : VComponent) (e : InsertEvent) : Prop :=
  title e = summary c /\
  c_start c = Some (startDate e) /\
  endDate e = match c_end c with
              | Some d => d
              | None => date_plus (startDate e) (60 * 60 * 1000)
              end.

(** A description the calendar parser can search for "free": absent, or a
    string. *)
Definition searchable (v : jsval) : bool :=
  match v with
  | VUndef | VNull | VStr _ => true
  | _ => false
  end.



(** A world where every GET is answered with the body [body], which the
    calendar decoder reads as the components [components]. *)
Definition feed_world (body : jsval) (components : list VComponent) : World :=
  {| clock := clock silent_world;
     random := random silent_world;
     request := fun _ _ _ => Reply (mkResponse 200 None body);
     URL_parse := sample_URL;
     Date_parse := Date_parse silent_world;
     toLocaleTimeString := toLocaleTimeString silent_world;
     Number_toString := Number_toString silent_world;
     RegExp_test := RegExp_test silent_world;
     cheerio_load := cheerio_load silent_world;
     ical_parseICS := fun _ => Ret components;
     xml2js_parseString := xml2js_parseString silent_world |}.

(** A complete event, handed over by the decoder without an end: a
    title, a start, no end. *)
Definition complete_event (k : Z) : VComponent :=
  {| ctype := "VEVENT";
     c_start := Some (Time (1700000000000 + k * 86400000));
     c_end := None;
     summary := VStr ("Event " ++ Str.of_Z k);
     c_description := VUndef;
     c_location := VUndef |}.

Definition eleven_events : list VComponent :=
  List.map complete_event [1; 2; 3; 4; 5; 6; 7; 8; 9; 10; 11].

(** The same event, handed over by a decoder that gives an event written
    without an end its start as its end. *)
Definition instant_event (k : Z) : VComponent :=
  {| ctype := "VEVENT";
     c_start := c_start (complete_event k);
     c_end := c_start (complete_event k);
     summary := summary (complete_event k);
     c_description := VUndef;
     c_location := VUndef |}.

(** The first seeded source, a calendar-format feed, and the seventh, a
    JSON feed. *)
Definition sf_city : CalendarSource := nth 0 initial_sources boise.
Definition nyc_events : CalendarSource := nth 6 initial_sources boise.


(** ** Specifications of effectful code *)

(** [wp m Q s]: run from [s], [m] ends in an outcome and a state that
    satisfy [Q]. *)
Definition wp {St A} (m : M St A) (Q : outcome A -> St -> Prop) (s : St) : Prop :=
  Q (fst (m s)) (snd (m s)).

(** [m] returns (it does not raise), and what it returns satisfies [P]. *)
Definition returns {St A} (m : M St A) (P : A -> Prop) : Prop :=
  forall s, exists a s', m s = (Ret a, s') /\ P a.

Definition returned {St A} (P : A -> St -> Prop) (r : outcome A) (s : St) : Prop :=
  match r with
  | Ret a => P a s
  | Throw _ => False
  end.

(** [m] leaves the part [proj] of the state as it found it, whether it
    returns or raises. *)
Definition keeps {St T A} (proj : St -> T) (m : M St A) : Prop :=
  forall s, proj (snd (m s)) = proj s.

(** [before cmp a b]: the comparator accepts [a] in front of [b]. *)
Definition before {A} (cmp : A -> A -> float) (a b : A) : Prop :=
  (0 <? cmp a b)%float = false.

(** * Further notions *)

(** ** The registry *)

(** The test [toggleSource] and [removeSource] make on each source. *)
Definition has_id (sourceId : string) (src : CalendarSource) : bool :=
  String.eqb (id src) sourceId.

(** No two sources have the same id, and no two the same feed URL. *)
Definition distinct_sources (l : list CalendarSource) : Prop :=
  NoDup (List.map id l) /\ NoDup (List.map feedUrl l).

(** [source.isActive = !source.isActive] *)
Definition flip_active (src : CalendarSource) : CalendarSource :=
  with_isActive (negb (isActive src)) src.

(** ** Collection *)

(** An event that names [src] as its source and as its organizer, filed
    under one of the categories of the schema. *)
Definition tagged (src : CalendarSource) (e : InsertEvent) : Prop :=
  source e = id src /\ organizer e = name src /\ In (category e) categories.

(** At most [n] events, all of them from [src]. *)
Definition batch_of_events (n : nat) (src : CalendarSource)
    (events : list InsertEvent) : Prop :=
  (List.length events <= n)%nat /\ Forall (tagged src) events.

(** An accumulator of at most [k] events, all from [src]. *)
Definition gathered (src : CalendarSource) (k : nat)
    (ls : list InsertEvent * Sys) : Prop :=
  batch_of_events k src (fst ls).

(** A source whose last-sync timestamp is an instant. *)
Definition synced (src : CalendarSource) : Prop :=
  exists t, lastSync src = Some (Time t).

(** The events come from active sources of [l]. *)
Definition from_active (l : list CalendarSource) (events : list InsertEvent) : Prop :=
  Forall (fun e => exists src, In src l /\ isActive src = true /\ tagged src e) events.

(** What a collection run makes of one source of the registry. *)
Definition after_run (before after : CalendarSource) : Prop :=
  if isActive before
  then exists t, after = with_lastSync (Some (Time t)) before
  else after = before.

(** The events are those of the sources at the positions [processed] of
    [all], source by source: for each position a list of at most ten
    events of its source, one list after the other. *)
Definition source_by_source (all : list CalendarSource) (processed : list nat)
    (events : list InsertEvent) : Prop :=
  exists lists,
    events = List.concat lists /\
    Forall2 (fun p l => exists src, nth_error all p = Some src /\
                                    batch_of_events 10 src l)
      processed lists.

(** The state of a collection run on the registry [all] once the
    positions [processed] have been seen. *)
Definition collecting (all : list CalendarSource) (processed : list nat)
    (ls : list InsertEvent * Sys) : Prop :=
  List.map identity (sources (snd ls)) = List.map identity all /\
  from_active all (fst ls) /\
  (List.length (fst ls) <= 10 * List.length processed)%nat /\
  (forall p src, In p processed -> nth_error (sources (snd ls)) p = Some src ->
                 synced src) /\
  (forall p, ~ In p (positions isActive 0 all) ->
             nth_error (sources (snd ls)) p = nth_error all p) /\
  source_by_source all processed (fst ls).

(** The result of one settled task of a batch. *)
Definition task_result (all : list CalendarSource) (position : nat)
    (r : outcome (list InsertEvent)) : Prop :=
  exists src events,
    r = Ret events /\ nth_error all position = Some src /\
    isActive src = true /\ batch_of_events 10 src events.

(** ** The fallback generator, and sources with nothing to fetch *)

(** The event starts on day [i + 1] after [now], at most twelve hours
    into it, and lasts [hours] hours. *)
Definition fallback_slot (now i hours : Z) (e : InsertEvent) : Prop :=
  exists t,
    startDate e = Time t /\
    endDate e = Time (t + hours * 60 * 60 * 1000) /\
    now + (i + 1) * 24 * 60 * 60 * 1000 <= t
    <= now + (i + 1) * 24 * 60 * 60 * 1000 + 12 * 60 * 60 * 1000.

(** Between 20 and 119 attendees. *)
Definition expected_attendance (e : InsertEvent) : Prop :=
  exists n, attendees e = VNum (inject_Z n) /\ 20 <= n <= 119.

(** [e] is over before [e'] starts. *)
Definition precedes (e e' : InsertEvent) : Prop :=
  exists t t', endDate e = Time t /\ startDate e' = Time t' /\ t < t'.

(** The address [collectFromSource] fetches for a source: the web page
    for a source to be scraped, the feed otherwise. *)
Definition fetched_url (src : CalendarSource) : option string :=
  match feedType src with
  | html => websiteUrl src
  | _ => feedUrl src
  end.

(** ** Slugs and state abbreviations *)

(** Every character of the string satisfies [p]. *)
Fixpoint every (p : ascii -> bool) (s : string) : bool :=
  match s with
  | EmptyString => true
  | String c r => (p c && every p r)%bool
  end.

(** The characters of a slug: [a-z0-9]. *)
Definition slug_char (c : ascii) : bool := (Str.is_lower c || Str.is_digit c)%bool.

(** What holds of every row of the table of states. *)
Definition state_row (row : string * string) : bool :=
  (Nat.leb 4 (String.length (fst row)) && Nat.eqb (String.length (snd row)) 2
   && String.eqb (Str.toUpperCase (snd row)) (snd row))%bool.

(** ** Discovery *)

(** The answer to a HEAD request for [url] made at [s] is a success, and
    [url] is read as an absolute URL. *)
Definition answers (W : World) (s : Sys) (url : string) (resp : response) : Prop :=
  request W (tick s) HEAD url = Reply resp /\
  200 <= status resp < 300 /\
  exists u, URL_parse W url None = Ret u.

(** A feed proposed for [location]: a source that is not active and was
    never synchronised, for that city and state, of one of the three
    kinds discovery looks for, named after its kind, with an id that
    says it was discovered and a feed address that begins with [http]. *)
Definition candidate (location : LocationInfo) (f : DiscoveredFeed) : Prop :=
  let src := feed_source f in
  isActive src = false /\ lastSync src = None /\
  src_city src = loc_city location /\ src_state src = loc_state location /\
  In (type src) [city; school; chamber] /\
  name src = generateSourceName (mkOrgLocation location (type src)) /\
  Str.startsWith (id src) "discovered-" = true /\
  exists url, feedUrl src = Some url /\ Str.startsWith url "http" = true.

(** A search from [s] to [s'] that proposed at most [n] feeds for
    [location], after at most [ticks] interactions with the outside. *)
Definition searched (location : LocationInfo) (n ticks : nat) (s : Sys)
    (feeds : list DiscoveredFeed) (s' : Sys) : Prop :=
  (List.length feeds <= n)%nat /\ Forall (candidate location) feeds /\
  (tick s' <= tick s + ticks)%nat /\ sources s' = sources s.

(** The state of a search that started at [s]: the feeds gathered after
    the addresses [done], each of which costs at most [cost]
    interactions, [spent] interactions having been made before. *)
Definition searching {A} (location : LocationInfo) (s : Sys) (spent cost per : nat)
    (done : list A) (ls : list DiscoveredFeed * Sys) : Prop :=
  searched location (per * List.length done) (spent + cost * List.length done) s
    (fst ls) (snd ls).

(** The feed address of a proposed feed. *)
Definition address (f : DiscoveredFeed) : option string := feedUrl (feed_source f).

(** The test of the filter: the element is the first of the whole list
    with its key. *)
Definition is_first {A K} (key : A -> K) (same : K -> K -> bool)
    (x : A) (index : Z) (self : list A) : bool :=
  index =? findIndex (fun y => same (key y) (key x)) self.

(** ** Events read from RSS feeds and from web pages *)

(** A text of at most 300 characters. *)
Definition short_text (v : jsval) : Prop :=
  exists t, v = VStr t /\ (String.length t <= 300)%nat.

(** An event as the RSS parser and the scraper make them for [src]: two
    hours long, with a title and a description of at most 300
    characters, at the city and state of the source, with no attendees
    and no image. *)
Definition plain_event (src : CalendarSource) (e : InsertEvent) : Prop :=
  endDate e = date_plus (startDate e) (2 * 60 * 60 * 1000) /\
  short_text (title e) /\ short_text (description e) /\
  location e = VStr (src_city src ++ ", " ++ src_state src) /\
  attendees e = VNum 0 /\ imageUrl e = VNull /\
  (isFree e = "true" \/ isFree e = "false").

(** A world where every GET is answered with [body], which the XML
    decoder reads as [document] and the HTML parser as a page holding
    one element for each of [texts], whatever the selector; the text of
    the element is what it answers to every query. *)
Definition reading_world (body document : jsval) (texts : list string) : World :=
  {| clock := clock silent_world;
     random := random silent_world;
     request := fun _ _ _ => Reply (mkResponse 200 None body);
     URL_parse := sample_URL;
     Date_parse := Date_parse silent_world;
     toLocaleTimeString := toLocaleTimeString silent_world;
     Number_toString := Number_toString silent_world;
     RegExp_test := RegExp_test silent_world;
     cheerio_load := fun _ =>
       Ret {| select := fun _ =>
                List.map (fun t => {| attr := fun _ => None;
                                      find_first_text := fun _ => t |}) texts |};
     ical_parseICS := ical_parseICS silent_world;
     xml2js_parseString := fun _ => Ret document |}.

(** A channel with two items: a concert, and an item without a title. *)
Definition two_items : jsval :=
  VObj [ ("rss",
          VObj [ ("channel",
                  VArr [ VObj [ ("item",
                                 VArr [ VObj [ ("title",
                                                VArr [VStr "Free <b>Concert</b>"]);
                                               ("description",
                                                VArr [VStr "Music &amp; more, free"]) ];
                                        VObj [ ("link",
                                                VArr [VStr "https://x.org"]) ] ]) ] ]) ]) ].

(** The items [parseRSSFeed] visits in the decoded document. *)
Definition rss_items (document : jsval) : outcome (list jsval) :=
  match Js.get document "rss", Js.get document "feed" with
  | Ret rss_, Ret feed_ =>
      Js.slice_items 10
        (Js.or (Js.get_opt (Js.first_opt (Js.get_opt rss_ "channel")) "item")
           (Js.or (Js.get_opt feed_ "entry") (VArr [])))
  | Throw e, _ | _, Throw e => Throw e
  end.

(** An accumulator of at most [k] plain events. *)
Definition scraped (src : CalendarSource) (k : nat)
    (ls : list InsertEvent * Sys) : Prop :=
  (List.length (fst ls) <= k)%nat /\ Forall (plain_event src) (fst ls).

(** The second seeded source, an RSS feed, and the chamber of
    Springfield, to be scraped. *)
Definition la_city : CalendarSource := nth 1 initial_sources boise.

Definition springfield_chamber : CalendarSource :=
  {| id := "springfield-chamber"; name := "Springfield Chamber of Commerce";
     src_city := "Springfield"; src_state := "IL"; type := chamber; feedUrl := None;
     websiteUrl := Some "https://springfieldchamber.org";
     isActive := true; lastSync := None; feedType := html |}.

(** A world where [new Date(text)] is always invalid and every pattern
    matches every text. *)
Definition pattern_world : World :=
  {| clock := clock silent_world;
     random := random silent_world;
     request := request silent_world;
     URL_parse := sample_URL;
     Date_parse := fun _ => InvalidDate;
     toLocaleTimeString := toLocaleTimeString silent_world;
     Number_toString := Number_toString silent_world;
     RegExp_test := fun _ _ => true;
     cheerio_load := cheerio_load silent_world;
     ical_parseICS := ical_parseICS silent_world;
     xml2js_parseString := xml2js_parseString silent_world |}.

(** ** The discovery route *)

(** The request names a city and a state: two strings that are not
    empty. *)
Definition names_place (body : jsval) (cityName stateName : string) : Prop :=
  Js.get body "city" = Ret (VStr cityName) /\
  Js.get body "state" = Ret (VStr stateName) /\
  cityName <> "" /\ stateName <> "".

(** The city or the state is missing from the request: absent, or one of
    [null], [false], [0], the empty string. *)
Definition lacks_place (body : jsval) : Prop :=
  exists city_ state_,
    Js.get body "city" = Ret city_ /\ Js.get body "state" = Ret state_ /\
    (Js.truthy city_ = false \/ Js.truthy state_ = false).

(** The request has no body, or it names a city and a state of which
    one is not a string. *)
Definition unreadable_place (body : jsval) : Prop :=
  (exists e, Js.get body "city" = Throw e) \/
  exists city_ state_,
    Js.get body "city" = Ret city_ /\ Js.get body "state" = Ret state_ /\
    Js.truthy city_ = true /\ Js.truthy state_ = true /\
    ((forall cityName, city_ <> VStr cityName) \/
     (forall stateName, state_ <> VStr stateName)).

(** A request of Springfield's feeds, and one without a state. *)
Definition ask_springfield : jsval :=
  VObj [("city", VStr "Springfield"); ("state", VStr "Illinois")].

Definition ask_nowhere : jsval := VObj [("city", VStr "Springfield")].

(** ** Cleaned text *)

(** The text holds a tag: a ["<"] with a [">"] somewhere after it. *)
Fixpoint has_tag (s : string) : bool :=
  match s with
  | EmptyString => false
  | String c r =>
      (Str.eq_char c "<" && Str.has_char (Str.eq_char ">") r || has_tag r)%bool
  end.

(** [out] is [inp] with some characters taken out and some replaced by a
    space. *)
Inductive thinned : string -> string -> Prop :=
| thinned_nil : thinned "" ""
| thinned_keep c out inp : thinned out inp -> thinned (String c out) (String c inp)
| thinned_drop c out inp : thinned out inp -> thinned out (String c inp)
| thinned_blank c out inp : thinned out inp -> thinned (String " " out) (String c inp).

(** ** More samples *)

(** Samples: Boise's calendar subscribed to over webcal; a page with
    seven announcements, the second with a title too short to be kept;
    the collector as constructed with Austin switched off. *)
Definition boise_webcal : CalendarSource :=
  with_feedUrl (Some "webcal://www.cityofboise.org/calendar.ics") boise.

Definition announcements_world : World :=
  reading_world (VStr "<html>") VNull
    ["Spring Gala"; "TBA"; "Job Fair"; "Mixer"; "Awards"; "Picnic"; "Parade"].

Definition austin_off : Sys := snd (toggleSource "austin-city" fresh_collector).

(** ** The dates of a JSON entry *)

(** The field is absent from the entry, or holds one of [null], [false],
    [0], the empty string. *)
Definition lacks (event : jsval) (field : string) : Prop :=
  Js.truthy (Js.get_opt event field) = false.

(** An entry dated by its [date] field alone. *)
Definition meetup : jsval :=
  VObj [ ("title", VStr "Board Game Night"); ("date", VStr "2025-03-01") ].

(** ** Feeds of equal confidence *)

(** The feed has the confidence [c]. *)
Definition tied (c : float) (f : DiscoveredFeed) : bool := (confidence f =? c)%float.

(** What is checked of each three scores by evaluation: a score that is
    sorted in front of another is not equal to it. *)
Definition tie_checks (x y c : float) : bool :=
  (negb ((0 <? y - x) && (x =? c) && (y =? c)))%float%bool.


(** * Reasoning about effectful code *)

Section WpRules.

Context {St : Type}.

Lemma wp_mono {A} (m : M St A) (Q Q' : outcome A -> St -> Prop) s :
  wp m Q s -> (forall r s', Q r s' -> Q' r s') -> wp m Q' s.
Proof. unfold wp. auto. Qed.

Lemma wp_ret {A} (a : A) (Q : outcome A -> St -> Prop) s :
  Q (Ret a) s -> wp (ret a) Q s.
Proof. exact (fun H => H). Qed.

Lemma wp_throw {A} e (Q : outcome A -> St -> Prop) s :
  Q (Throw e) s -> wp (throw e) Q s.
Proof. exact (fun H => H). Qed.

Lemma wp_lift {A} (o : outcome A) (Q : outcome A -> St -> Prop) s :
  Q o s -> wp (lift o) Q s.
Proof. exact (fun H => H). Qed.

Lemma wp_bind {A B} (m : M St A) (k : A -> M St B) Q s :
  wp m (fun r s' =>
          match r with
          | Ret a => wp (k a) Q s'
          | Throw e => Q (Throw e) s'
          end) s ->
  wp (bind m k) Q s.
Proof.
  unfold wp, bind. destruct (m s) as [[a | e] s']; simpl; auto.
Qed.

Lemma wp_try_catch {A} (m : M St A) (h : exn -> M St A) Q s :
  wp m (fun r s' =>
          match r with
          | Ret a => Q (Ret a) s'
          | Throw e => wp (h e) Q s'
          end) s ->
  wp (try_catch m h) Q s.
Proof.
  unfold wp, try_catch. destruct (m s) as [[a | e] s']; simpl; auto.
Qed.

(** A loop whose body returns and keeps [I] returns and keeps [I]. *)
Lemma wp_for_each {A} (I : St -> Prop) (l : list A) (body : A -> M St unit) :
  (forall x s, In x l -> I s -> wp (body x) (returned (fun _ => I)) s) ->
  forall s, I s -> wp (for_each l body) (returned (fun _ => I)) s.
Proof.
  induction l as [| x r IH]; intros Hbody s Hs.
  - exact Hs.
  - simpl. apply wp_bind.
    eapply wp_mono; [apply Hbody; [now left | exact Hs] |].
    intros [[] | e] s' H; simpl in H; [| contradiction].
    apply IH; [| exact H].
    intros y s0 Hy. apply Hbody. now right.
Qed.

Lemma wp_var {L A} (init : L) (block : M (L * St) A) Q s :
  wp block (fun r ls => Q r (snd ls)) (init, s) ->
  wp (var init block) Q s.
Proof.
  unfold wp, var. destruct (block (init, s)) as [r [l s']]. auto.
Qed.

Lemma wp_outer {L A} (m : M St A) (Q : outcome A -> L * St -> Prop) l s :
  wp m (fun r s' => Q r (l, s')) s ->
  wp (outer m) Q (l, s).
Proof.
  unfold wp, outer. simpl. destruct (m s) as [r s']. auto.
Qed.

Lemma wp_read {L} (Q : outcome L -> L * St -> Prop) ls :
  Q (Ret (fst ls)) ls -> wp read Q ls.
Proof. exact (fun H => H). Qed.

Lemma wp_update {L} (f : L -> L) (Q : outcome unit -> L * St -> Prop) ls :
  Q (Ret tt) (f (fst ls), snd ls) -> wp (update f) Q ls.
Proof. exact (fun H => H). Qed.

Lemma returns_wp {A} (m : M St A) (P : A -> Prop) :
  (forall s, wp m (returned (fun a _ => P a)) s) -> returns m P.
Proof.
  intros H s. specialize (H s). unfold wp in H.
  destruct (m s) as [[a | e] s']; simpl in H; [| contradiction].
  now exists a, s'.
Qed.


End WpRules.

Lemma wp_interact {A} (f : nat -> A) (Q : outcome A -> Sys -> Prop) s :
  Q (Ret (f (tick s))) (mkSys (S (tick s)) (sources s)) ->
  wp (interact f) Q s.
Proof. exact (fun H => H). Qed.

(** One step of symbolic execution. *)
Ltac wp_step :=
  lazymatch goal with
  | |- wp (bind _ _) _ _ => apply wp_bind
  | |- wp (try_catch _ _) _ _ => apply wp_try_catch
  | |- wp (interact _) _ _ => apply wp_interact
  | |- wp (ret _) _ _ => apply wp_ret
  | |- wp (throw _) _ _ => apply wp_throw
  | |- wp (lift _) _ _ => apply wp_lift
  | |- wp (var _ _) _ _ => apply wp_var
  | |- wp (outer _) _ (_, _) => apply wp_outer
  | |- wp read _ _ => apply wp_read
  | |- wp (update _) _ _ => apply wp_update
  end;
  cbv beta iota; cbn [fst snd].

Ltac wp_steps := repeat wp_step.

(** * Lists: sorting, de-duplication *)

Section SortFacts.

Context {A : Type}.
Variable cmp : A -> A -> float.

Lemma sort_insert_In x l z :
  In z (sort_insert cmp x l) <-> z = x \/ In z l.
Proof.
  induction l as [| y r IH]; simpl.
  - intuition.
  - destruct (0 <? cmp x y)%float; simpl; [rewrite IH |]; intuition.
Qed.

Lemma sort_In l z : In z (sort cmp l) <-> In z l.
Proof.
  induction l as [| x r IH]; simpl; [tauto |].
  fold (sort cmp r). rewrite sort_insert_In, IH. intuition.
Qed.

Lemma sort_Forall (P : A -> Prop) l : Forall P l -> Forall P (sort cmp l).
Proof.
  rewrite !Forall_forall. intros H z Hz. apply H. now apply sort_In.
Qed.

(** The elements are drawn from a domain on which the comparator is a
    consistent ordering. *)
Variable dom : A -> Prop.
Hypothesis cmp_total :
  forall a b, dom a -> dom b -> before cmp a b \/ before cmp b a.
Hypothesis cmp_trans :
  forall a b c,
    dom a -> dom b -> dom c -> before cmp a b -> before cmp b c -> before cmp a c.

Lemma sort_insert_sorted x l :
  dom x -> Forall dom l ->
  StronglySorted (before cmp) l -> StronglySorted (before cmp) (sort_insert cmp x l).
Proof.
  intros Hx. induction l as [| y r IH]; intros Hd Hs; simpl.
  - constructor; [constructor | constructor].
  - inversion Hd as [| ? ? Hy Hr]; subst.
    inversion Hs as [| ? ? Hsr Hall]; subst.
    destruct (0 <? cmp x y)%float eqn:E.
    + constructor; [now apply IH |].
      apply Forall_forall. intros z Hz.
      apply sort_insert_In in Hz. destruct Hz as [-> | Hz].
      * destruct (cmp_total y x Hy Hx) as [H | H]; [exact H |].
        unfold before in H. congruence.
      * rewrite Forall_forall in Hall. now apply Hall.
    + constructor; [exact Hs |].
      constructor; [exact E |].
      rewrite Forall_forall in Hall, Hr |- *. intros z Hz.
      apply (cmp_trans x y z); auto.
Qed.

Lemma sort_sorted l : Forall dom l -> StronglySorted (before cmp) (sort cmp l).
Proof.
  induction l as [| x r IH]; intros Hd; simpl.
  - constructor.
  - inversion Hd; subst. fold (sort cmp r).
    apply sort_insert_sorted; auto.
    now apply sort_Forall.
Qed.

End SortFacts.


Lemma filter_from_incl {A} (self : list A) p index (l : list A) z :
  In z (filter_from self p index l) -> In z l.
Proof.
  revert index. induction l as [| x r IH]; simpl; intros index H; [tauto |].
  destruct (p x index self); [destruct H as [-> | H] |]; eauto.
Qed.

Lemma filter_indexed_Forall {A} (P : A -> Prop) p (l : list A) :
  Forall P l -> Forall P (filter_indexed p l).
Proof.
  rewrite !Forall_forall. intros H z Hz. apply H.
  unfold filter_indexed in Hz. now apply filter_from_incl in Hz.
Qed.

(** * Frames *)

Section KeepsRules.

Context {St T : Type}.
Variable proj : St -> T.

Lemma keeps_ret {A} (a : A) : keeps proj (ret a).
Proof. intros s. reflexivity. Qed.

Lemma keeps_throw {A} e : keeps proj (@throw St A e).
Proof. intros s. reflexivity. Qed.

Lemma keeps_lift {A} (o : outcome A) : keeps proj (lift o).
Proof. intros s. reflexivity. Qed.

Lemma keeps_bind {A B} (m : M St A) (k : A -> M St B) :
  keeps proj m -> (forall a, keeps proj (k a)) -> keeps proj (bind m k).
Proof.
  intros Hm Hk s. unfold bind. specialize (Hm s).
  destruct (m s) as [[a | e] s1]; simpl in *; [| exact Hm].
  rewrite Hk. exact Hm.
Qed.

Lemma keeps_try_catch {A} (m : M St A) (h : exn -> M St A) :
  keeps proj m -> (forall e, keeps proj (h e)) -> keeps proj (try_catch m h).
Proof.
  intros Hm Hh s. unfold try_catch. specialize (Hm s).
  destruct (m s) as [[a | e] s1]; simpl in *; [exact Hm |].
  rewrite Hh. exact Hm.
Qed.

Lemma keeps_settled {A} (m : M St A) : keeps proj m -> keeps proj (settled m).
Proof.
  intros Hm s. unfold settled. specialize (Hm s).
  destruct (m s) as [r s1]. exact Hm.
Qed.

Lemma keeps_for_each {A} (l : list A) (body : A -> M St unit) :
  (forall x, keeps proj (body x)) -> keeps proj (for_each l body).
Proof.
  intros Hbody. induction l as [| x r IH]; simpl.
  - apply keeps_ret.
  - apply keeps_bind; auto.
Qed.

Lemma keeps_map_M {A B} (f : A -> M St B) (l : list A) :
  (forall x, keeps proj (f x)) -> keeps proj (map_M f l).
Proof.
  intros Hf. induction l as [| x r IH]; simpl.
  - apply keeps_ret.
  - apply keeps_bind; [auto |]. intros y.
    apply keeps_bind; [exact IH |]. intros ys. apply keeps_ret.
Qed.

Lemma keeps_var {L A} (init : L) (block : M (L * St) A) :
  keeps (fun ls => proj (snd ls)) block -> keeps proj (var init block).
Proof.
  intros H s. unfold var. specialize (H (init, s)).
  destruct (block (init, s)) as [r [l s1]]. exact H.
Qed.

Lemma keeps_outer {L A} (m : M St A) :
  keeps proj m -> keeps (fun ls : L * St => proj (snd ls)) (outer m).
Proof.
  intros H [l s]. unfold outer. simpl. specialize (H s).
  destruct (m s) as [r s1]. exact H.
Qed.

Lemma keeps_read {L} : keeps (fun ls : L * St => proj (snd ls)) read.
Proof. intros s. reflexivity. Qed.

Lemma keeps_update {L} (f : L -> L) :
  keeps (fun ls : L * St => proj (snd ls)) (update f).
Proof. intros s. reflexivity. Qed.

End KeepsRules.

Lemma keeps_image {St T U A} (proj : St -> T) (f : T -> U) (m : M St A) :
  keeps proj m -> keeps (fun s => f (proj s)) m.
Proof. intros H s. now rewrite H. Qed.

Lemma keeps_interact {A} (f : nat -> A) : keeps sources (interact f).
Proof. intros s. reflexivity. Qed.

Lemma keeps_get_sources : keeps sources get_sources.
Proof. intros s. reflexivity. Qed.

(** Frame conditions are found by following the structure of the code. *)
Ltac keeps_step :=
  lazymatch goal with
  | |- keeps _ (bind _ _) => apply keeps_bind
  | |- keeps _ (try_catch _ _) => apply keeps_try_catch
  | |- keeps _ (ret _) => apply keeps_ret
  | |- keeps _ (throw _) => apply keeps_throw
  | |- keeps _ (lift _) => apply keeps_lift
  | |- keeps _ (settled _) => apply keeps_settled
  | |- keeps _ (for_each _ _) => apply keeps_for_each
  | |- keeps _ (map_M _ _) => apply keeps_map_M
  | |- keeps _ (var _ _) => apply keeps_var
  | |- keeps _ (outer _) => apply keeps_outer
  | |- keeps _ read => apply keeps_read
  | |- keeps _ (update _) => apply keeps_update
  | |- keeps _ (interact _) => apply keeps_interact
  | |- keeps _ get_sources => apply keeps_get_sources
  | |- keeps _ (match ?x with _ => _ end) => destruct x
  | |- forall _, _ => intro
  end.

Ltac keeps_auto := repeat keeps_step; auto.

(** * Feed discovery *)

(** ** The confidence scores *)

Lemma scored_in_scores contentType feedUrl : In (scored contentType feedUrl) scores.
Proof.
  unfold scored, classify.
  repeat match goal with
         | |- context [if ?b then _ else _] => destruct b
         end;
    vm_compute; auto 12.
Qed.

Lemma scores_checked :
  forallb score_checks scores = true /\
  forallb (fun x => forallb (fun y => forallb (order_checks x y) scores) scores)
    scores = true.
Proof. split; vm_compute; reflexivity. Qed.

Lemma score_bounds x :
  In x scores ->
  in_unit_interval x /\ in_unit_interval (Math_min (x + 0.3) 1.0).
Proof.
  intros Hx. destruct scores_checked as [H _].
  rewrite forallb_forall in H. specialize (H x Hx).
  unfold score_checks in H. unfold in_unit_interval.
  repeat (apply andb_prop in H; destruct H as [H ?]). auto.
Qed.

Lemma score_order x y z :
  In x scores -> In y scores -> In z scores -> order_checks x y z = true.
Proof.
  intros Hx Hy Hz. destruct scores_checked as [_ H].
  rewrite forallb_forall in H. specialize (H x Hx).
  rewrite forallb_forall in H. specialize (H y Hy).
  rewrite forallb_forall in H. exact (H z Hz).
Qed.

Lemma validated_bounds f : validated f -> in_unit_interval (confidence f).
Proof. intros H. now apply score_bounds. Qed.

Lemma boosted_bounds f : boosted f -> in_unit_interval (confidence f).
Proof. intros (x & Hx & ->). now apply score_bounds. Qed.

Lemma by_confidence_total a b :
  validated a -> validated b ->
  before by_confidence a b \/ before by_confidence b a.
Proof.
  intros Ha Hb. pose proof (score_order _ _ _ Ha Hb Ha) as H.
  unfold order_checks in H. unfold before, by_confidence.
  repeat (apply andb_prop in H; destruct H as [H ?]).
  apply orb_prop in H. destruct H as [H | H]; apply negb_true_iff in H; auto.
Qed.

Lemma by_confidence_trans a b c :
  validated a -> validated b -> validated c ->
  before by_confidence a b -> before by_confidence b c -> before by_confidence a c.
Proof.
  unfold before, by_confidence. intros Ha Hb Hc Hab Hbc.
  pose proof (score_order _ _ _ Ha Hb Hc) as H. unfold order_checks in H.
  repeat (apply andb_prop in H; destruct H as [H ?]).
  rewrite Hab, Hbc in *. simpl in *. now apply negb_true_iff.
Qed.

Lemma before_by_confidence a b :
  validated a -> validated b -> before by_confidence a b ->
  (confidence b <=? confidence a)%float = true.
Proof.
  unfold before, by_confidence. intros Ha Hb Hab.
  pose proof (score_order _ _ _ Ha Hb Ha) as H. unfold order_checks in H.
  repeat (apply andb_prop in H; destruct H as [H ?]).
  rewrite Hab in *. assumption.
Qed.

Lemma StronglySorted_descending feeds :
  Forall validated feeds -> StronglySorted (before by_confidence) feeds ->
  confidence_descending feeds.
Proof.
  intros Hv Hs. induction Hs as [| x l Hs IH Hall]; intros i j a b Hij Hi Hj.
  - destruct i; discriminate.
  - inversion Hv as [| ? ? Hx Hl]; subst.
    destruct j as [| j]; [lia |]. simpl in Hj.
    destruct i as [| i]; simpl in Hi.
    + injection Hi as <-. apply nth_error_In in Hj.
      rewrite Forall_forall in Hall, Hl.
      apply before_by_confidence; auto.
    + apply (IH Hl i j); auto. lia.
Qed.

Lemma sort_descending feeds :
  Forall validated feeds -> confidence_descending (sort by_confidence feeds).
Proof.
  intros Hv. apply StronglySorted_descending.
  - now apply sort_Forall.
  - apply (sort_sorted by_confidence validated); auto.
    + exact by_confidence_total.
    + exact by_confidence_trans.
Qed.


(** * Feed discovery: what each function returns *)

Lemma push_Forall {A} (P : A -> Prop) items arr :
  Forall P arr -> Forall P items -> Forall P (push items arr).
Proof. intros. unfold push. apply Forall_app. auto. Qed.

Section DiscovererFacts.

Variable W : World.

Lemma validateFeedUrl_wp url location s :
  wp (validateFeedUrl W url location)
    (returned (fun o _ =>
       forall f, o = Some f ->
         exists resp,
           request W (tick s) HEAD url = Reply resp /\
           confidence f = scored (header resp) url /\
           feedUrl (feed_source f) = Some url)) s.
Proof.
  unfold validateFeedUrl, axios, new_Date, Date_now.
  wp_steps.
  destruct (request W (tick s) HEAD url) as [| resp] eqn:E.
  - wp_steps. simpl. discriminate.
  - destruct (default_validateStatus (status resp)).
    2: { wp_steps. simpl. discriminate. }
    wp_steps. fold (header resp).
    destruct (classify (header resp) url) as [ft c] eqn:Ec.
    wp_steps.
    destruct (URL_parse W url None) as [u | e].
    2: { wp_steps. simpl. discriminate. }
    wp_steps. intros f [= <-]. exists resp. cbn [confidence feed_source feedUrl].
    unfold scored. rewrite Ec. cbn [snd].
    repeat split.
Qed.

Lemma validateFeedUrl_validated url location s :
  wp (validateFeedUrl W url location)
    (returned (fun o _ => forall f, o = Some f -> validated f)) s.
Proof.
  eapply wp_mono; [apply validateFeedUrl_wp |].
  intros [o | e] s' H; simpl in *; [| exact H].
  intros f Hf. destruct (H f Hf) as (resp & _ & Hc & _).
  unfold validated. rewrite Hc. apply scored_in_scores.
Qed.


Lemma wp_axios m url validate (Q : outcome response -> Sys -> Prop) s :
  (forall resp,
      request W (tick s) m url = Reply resp -> validate (status resp) = true ->
      Q (Ret resp) (mkSys (S (tick s)) (sources s))) ->
  (forall e, Q (Throw e) (mkSys (S (tick s)) (sources s))) ->
  wp (axios W m url validate) Q s.
Proof.
  intros Hok Herr. unfold axios. wp_steps.
  destruct (request W (tick s) m url) as [| resp] eqn:E.
  - wp_step. apply Herr.
  - destruct (validate (status resp)) eqn:V; wp_step; auto.
Qed.

Lemma checkDomainForFeeds_validated domain location s :
  wp (checkDomainForFeeds W domain location)
    (returned (fun feeds _ => Forall validated feeds)) s.
Proof.
  unfold checkDomainForFeeds. do 3 wp_step.
  apply wp_mono with (Q := fun _ => all_in validated).
  2: { intros [[] | e] ls H; wp_steps; exact H. }
  wp_steps. apply wp_axios; [| intros; constructor].
  intros resp _ _.
  destruct (status resp =? 404); [wp_step; constructor |].
  wp_steps. destruct (cheerio_load W (data resp)) as [doc | e]; [| constructor].
  wp_steps. destruct (linked_paths W _ _ _) as [paths | e]; [| constructor].
  eapply wp_mono.
  - apply (wp_for_each (all_in validated)); [| constructor].
    intros path [feeds s1] _ Hfeeds. wp_steps.
    eapply wp_mono; [apply validateFeedUrl_validated |].
    intros [[f |] | e] s2 H; simpl in H; [| | contradiction]; wp_step.
    + apply push_Forall; [exact Hfeeds |]. constructor; auto.
    + exact Hfeeds.
  - intros [[] | e] ls H; simpl in H; [exact H | contradiction].
Qed.

Lemma discoverFromPatterns_validated patterns org location citySlug stateSlug s :
  wp (discoverFromPatterns W patterns org location citySlug stateSlug)
    (returned (fun feeds _ => Forall validated feeds)) s.
Proof.
  unfold discoverFromPatterns. do 2 wp_step.
  eapply wp_mono.
  - apply (wp_for_each (all_in validated)); [| constructor].
    intros pattern [feeds s1] _ Hfeeds. wp_steps.
    eapply wp_mono; [apply checkDomainForFeeds_validated |].
    intros [found | e] s2 H; simpl in H; [| contradiction]. wp_step.
    now apply push_Forall.
  - intros [[] | e] ls H; simpl in H; [| contradiction]. wp_step. exact H.
Qed.

Lemma discoverFeedsForLocation_wp location s :
  wp (discoverFeedsForLocation W location)
    (returned (fun feeds _ =>
       exists found, Forall validated found /\ feeds = sort by_confidence found)) s.
Proof.
  unfold discoverFeedsForLocation, discoverGovernmentFeeds, discoverSchoolFeeds,
    discoverChamberFeeds.
  wp_step. eapply wp_mono; [apply discoverFromPatterns_validated |].
  intros [gov | e] s1 Hgov; simpl in Hgov; [| contradiction].
  wp_step. eapply wp_mono; [apply discoverFromPatterns_validated |].
  intros [sch | e] s2 Hsch; simpl in Hsch; [| contradiction].
  wp_step. eapply wp_mono; [apply discoverFromPatterns_validated |].
  intros [cha | e] s3 Hcha; simpl in Hcha; [| contradiction].
  wp_step. simpl. eexists. split; [| reflexivity].
  repeat apply push_Forall; auto.
Qed.

Lemma boost_boosted f : validated f -> boosted (boost f).
Proof. intros H. exists (confidence f). split; [exact H | reflexivity]. Qed.

Lemma checkKnownPatterns_boosted location s :
  wp (checkKnownPatterns W location)
    (returned (fun feeds _ => Forall boosted feeds)) s.
Proof.
  unfold checkKnownPatterns. do 2 wp_step.
  eapply wp_mono.
  - apply (wp_for_each (all_in boosted)); [| constructor].
    intros pattern [feeds s1] _ Hfeeds. wp_steps.
    eapply wp_mono; [apply validateFeedUrl_validated |].
    intros [[f |] | e] s2 H; simpl in H; [| | contradiction]; wp_step.
    + apply push_Forall; [exact Hfeeds |]. constructor; auto using boost_boosted.
    + exact Hfeeds.
  - intros [[] | e] ls H; simpl in H; [| contradiction]. wp_step. exact H.
Qed.

End DiscovererFacts.

Lemma filter_from_app {A} (self : list A) p index (l1 l2 : list A) :
  filter_from self p index (l1 ++ l2)%list =
  (filter_from self p index l1 ++
   filter_from self p (index + Z.of_nat (List.length l1)) l2)%list.
Proof.
  revert index. induction l1 as [| x r IH]; intros index; simpl.
  - now rewrite Z.add_0_r.
  - rewrite IH. replace (index + 1 + Z.of_nat (List.length r))
      with (index + Z.pos (Pos.of_succ_nat (List.length r))) by lia.
    now destruct (p x index self).
Qed.

Lemma filter_from_sorted {A} (R : A -> A -> Prop) (self : list A) p index l :
  StronglySorted R l -> StronglySorted R (filter_from self p index l).
Proof.
  intros H. revert index. induction H as [| x l Hs IH Hall]; intros index; simpl.
  - constructor.
  - destruct (p x index self); [| apply IH].
    constructor; [apply IH |].
    rewrite Forall_forall in Hall |- *. intros z Hz.
    apply Hall. eapply filter_from_incl; eauto.
Qed.

Lemma filter_from_Forall {A} (P : A -> Prop) (self : list A) p index l :
  Forall P l -> Forall P (filter_from self p index l).
Proof.
  rewrite !Forall_forall. intros H z Hz. apply H. eapply filter_from_incl; eauto.
Qed.

Section DiscoveryRuns.
Variable W : World.

Lemma checkDomainForFeeds_unreachable domain location s :
  unreachable W s domain ->
  checkDomainForFeeds W domain location s
  = (Ret [], {| tick := S (tick s); sources := sources s |}).
Proof.
  intros H.
  enough (wp (checkDomainForFeeds W domain location)
            (fun r s' => r = Ret [] /\
                         s' = {| tick := S (tick s); sources := sources s |}) s)
    as E.
  { unfold wp in E. destruct (checkDomainForFeeds W domain location s).
    simpl in E. destruct E. congruence. }
  unfold checkDomainForFeeds, axios. wp_steps.
  unfold unreachable in H.
  destruct (request W (tick s) GET ("https://" ++ domain)) as [| r].
  - wp_steps. auto.
  - rewrite H. change (404 <? 500) with true. cbv iota. wp_steps.
    rewrite H. change (404 =? 404) with true. cbv iota. wp_steps. auto.
Qed.

Lemma discoverFeedsForLocation_returns location :
  returns (discoverFeedsForLocation W location)
    (fun feeds => Forall validated feeds /\ confidence_descending feeds).
Proof.
  apply returns_wp. intros s.
  eapply wp_mono; [apply discoverFeedsForLocation_wp |].
  intros [feeds | e] s' H; simpl in *; [| exact H].
  destruct H as (found & Hfound & ->). split.
  - now apply sort_Forall.
  - now apply sort_descending.
Qed.

Lemma discoverFeedsForPopularLocation_run cityName stateName s :
  exists discovered additional s1 s2,
    discoverFeedsForLocation W (popular_location cityName stateName) s
    = (Ret discovered, s1) /\
    checkKnownPatterns W (popular_location cityName stateName) s1
    = (Ret additional, s2) /\
    discoverFeedsForPopularLocation W cityName stateName s
    = (Ret (first_by_feedUrl (discovered ++ additional)%list), s2) /\
    (exists found, Forall validated found /\ discovered = sort by_confidence found) /\
    Forall boosted additional.
Proof.
  pose proof (discoverFeedsForLocation_wp W (popular_location cityName stateName) s) as H1.
  unfold wp in H1.
  destruct (discoverFeedsForLocation W (popular_location cityName stateName) s)
    as [[discovered | e] s1] eqn:E1; simpl in H1; [| contradiction].
  pose proof (checkKnownPatterns_boosted W (popular_location cityName stateName) s1) as H2.
  unfold wp in H2.
  destruct (checkKnownPatterns W (popular_location cityName stateName) s1)
    as [[additional | e] s2] eqn:E2; simpl in H2; [| contradiction].
  exists discovered, additional, s1, s2. repeat split; auto.
  unfold discoverFeedsForPopularLocation, bind.
  fold (popular_location cityName stateName). rewrite E1, E2. reflexivity.
Qed.

End DiscoveryRuns.

(** C1: a candidate domain whose probe gets no response (transport or DNS
    failure) or the status 404 contributes no feed, whatever the
    organization category, and nothing more is requested from it; and
    whatever the network answers, [discoverFeedsForLocation] and
    [discoverFeedsForPopularLocation] return a result and do not raise.
    For [discoverFeedsForPopularLocation] the state is not to be a name
    that every object answers to: there the table of states gives no
    string, and the search stops on it before the first request. *)
Theorem C1_discovery_survives_failures (W : World) :
  (forall domain location s,
      unreachable W s domain ->
      checkDomainForFeeds W domain location s
      = (Ret [], {| tick := S (tick s); sources := sources s |})) /\
  (forall location,
      returns (discoverFeedsForLocation W location) (fun _ => True)) /\
  (forall cityName stateName,
      inherited_name (Str.trim (Str.toLowerCase stateName)) = false ->
      returns (discoverFeedsForPopularLocation W cityName stateName) (fun _ => True)).
Proof.
  split; [| split].
  - apply checkDomainForFeeds_unreachable.
  - intros location s.
    destruct (discoverFeedsForLocation_returns W location s) as (feeds & s' & E & _).
    now exists feeds, s'.
  - intros cityName stateName _ s.
    destruct (discoverFeedsForPopularLocation_run W cityName stateName s)
      as (discovered & additional & s1 & s2 & _ & _ & E & _).
    eauto.
Qed.

(** The scenario of the specification: [example.gov] answers 404 at its
    root; and the search for Springfield, Illinois, where every address
    answers 404. *)
Lemma C1_example_gov_not_found :
  (unreachable not_found_world boot "example.gov" /\
   checkDomainForFeeds not_found_world "example.gov"
     (mkOrgLocation springfield school) boot
   = (Ret [], {| tick := 1; sources := [] |})) /\
  (inherited_name (Str.trim (Str.toLowerCase "Illinois")) = false /\
   returns (discoverFeedsForPopularLocation not_found_world "Springfield" "Illinois")
     (fun _ => True)).
Proof.
  split; (split; [reflexivity |]).
  - apply (proj1 (C1_discovery_survives_failures not_found_world)). reflexivity.
  - apply (proj2 (proj2 (C1_discovery_survives_failures not_found_world))).
    reflexivity.
Defined.

(** C2: every feed returned by discovery, through either entry point, has
    a confidence in [0, 1]; so has every feed [validateFeedUrl] returns
    (after the +0.2 boost) and every feed [checkKnownPatterns] returns
    (after the +0.3 boost).  For [discoverFeedsForPopularLocation] the
    state is not to be a name that every object answers to: there the
    search stops before it returns any feed. *)
Theorem C2_confidence_in_unit_interval (W : World) :
  (forall location,
      returns (discoverFeedsForLocation W location) (Forall unit_confidence)) /\
  (forall cityName stateName,
      inherited_name (Str.trim (Str.toLowerCase stateName)) = false ->
      returns (discoverFeedsForPopularLocation W cityName stateName)
        (Forall unit_confidence)) /\
  (forall url location,
      returns (validateFeedUrl W url location)
        (fun o => match o with
                  | Some f => unit_confidence f
                  | None => True
                  end)) /\
  (forall location,
      returns (checkKnownPatterns W location) (Forall unit_confidence)).
Proof.
  assert (Hv : forall l, Forall validated l -> Forall unit_confidence l).
  { intros l. apply Forall_impl. exact validated_bounds. }
  assert (Hb : forall l, Forall boosted l -> Forall unit_confidence l).
  { intros l. apply Forall_impl. exact boosted_bounds. }
  repeat split.
  - intros location s.
    destruct (discoverFeedsForLocation_returns W location s) as (feeds & s' & E & H & _).
    exists feeds, s'. auto.
  - intros cityName stateName _ s.
    destruct (discoverFeedsForPopularLocation_run W cityName stateName s)
      as (discovered & additional & s1 & s2 & _ & _ & E & (found & Hf & ->) & Ha).
    do 2 eexists. split; [exact E |].
    apply filter_indexed_Forall. apply Forall_app. split.
    + apply Hv. now apply sort_Forall.
    + now apply Hb.
  - intros url location. apply returns_wp. intros s.
    eapply wp_mono; [apply validateFeedUrl_validated |].
    intros [[f |] | e] s' H; simpl in *; auto.
    apply validated_bounds. now apply H.
  - intros location. apply returns_wp. intros s.
    eapply wp_mono; [apply checkKnownPatterns_boosted |].
    intros [l | e] s' H; simpl in *; auto.
Qed.

(** The search for Springfield, Illinois, where the chamber's site and
    the city's known address answer. *)
Lemma C2_springfield_confidences :
  inherited_name (Str.trim (Str.toLowerCase "Illinois")) = false /\
  returns (discoverFeedsForPopularLocation springfield_world "Springfield" "Illinois")
    (Forall unit_confidence).
Proof.
  split; [reflexivity |].
  apply (proj1 (proj2 (C2_confidence_in_unit_interval springfield_world))).
  reflexivity.
Defined.

(** ** Hosts and the [.gov] test *)

Lemma append_assoc (a b c : string) : (a ++ b) ++ c = a ++ (b ++ c).
Proof. induction a as [| x a IH]; simpl; [reflexivity | now rewrite IH]. Qed.

Lemma prefix_app p s : String.prefix p (p ++ s) = true.
Proof.
  induction p as [| c p IH]; simpl; [now destruct s |].
  destruct (ascii_dec c c); [exact IH | congruence].
Qed.

Lemma includes_prefix p s : String.prefix p s = true -> Str.includes s p = true.
Proof. intros H. destruct s; cbn [Str.includes]; now rewrite H. Qed.

Lemma includes_here p s : Str.includes (p ++ s) p = true.
Proof. apply includes_prefix, prefix_app. Qed.

Lemma includes_later x s p : Str.includes s p = true -> Str.includes (x ++ s) p = true.
Proof.
  intros H. induction x as [| c x IH]; simpl; [exact H |].
  rewrite IH. apply orb_true_r.
Qed.

Lemma drop_split n s : exists h, s = h ++ Str.drop n s.
Proof.
  revert s. induction n as [| n IH]; intros s; simpl.
  - now exists "".
  - destruct s as [| c s]; [now exists "" |].
    destruct (IH s) as [h Hh]. exists (String c h). simpl. congruence.
Qed.

Lemma endsWith_split s p : Str.endsWith s p = true -> exists h, s = h ++ p.
Proof.
  unfold Str.endsWith. intros H. apply andb_prop in H. destruct H as [_ H].
  apply String.eqb_eq in H.
  destruct (drop_split (String.length s - String.length p) s) as [h Hh].
  exists h. congruence.
Qed.

Lemma prefix_split p s : String.prefix p s = true -> s = p ++ Str.drop (String.length p) s.
Proof.
  revert s. induction p as [| c p IH]; intros [| c' s] H; simpl in *;
    try reflexivity; try discriminate.
  destruct (ascii_dec c c') as [<- |]; [| discriminate].
  f_equal. now apply IH.
Qed.

Lemma split_first_split pat s b a :
  Str.split_first pat s = Some (b, a) -> s = b ++ pat ++ a.
Proof.
  revert b. induction s as [| c s IH]; intros b; cbn [Str.split_first].
  - destruct (String.prefix pat "") eqn:E; [| discriminate].
    intros [= <- <-]. now apply prefix_split in E.
  - destruct (String.prefix pat (String c s)) eqn:E.
    + intros [= <- <-]. now apply prefix_split in E.
    + destruct (Str.split_first pat s) as [[b' a'] |]; [| discriminate].
      intros [= <- <-]. simpl. f_equal. now apply IH.
Qed.

Lemma until_delimiter_split s : exists tail, s = until_delimiter s ++ tail.
Proof.
  induction s as [| c s [tail IH]]; simpl; [now exists "" |].
  destruct (Str.eq_char c "/" || Str.eq_char c "?" || Str.eq_char c "#")%bool.
  - now exists (String c s).
  - exists tail. simpl. congruence.
Qed.

(** What the claim promises in one direction holds: a URL whose host ends
    in [.gov] passes the test of [validateFeedUrl]. *)
Lemma government_host_includes url :
  government_host url = true -> Str.includes url ".gov" = true.
Proof.
  unfold government_host, url_host.
  destruct (Str.split_first "://" url) as [[scheme rest] |] eqn:E; [| discriminate].
  intros H. apply endsWith_split in H. destruct H as [h Hh].
  destruct (until_delimiter_split rest) as [tail Ht].
  apply split_first_split in E. rewrite E, Ht, Hh.
  apply includes_later. apply includes_later.
  rewrite append_assoc. apply includes_later. apply includes_here.
Qed.

Lemma validateFeedUrl_government_host W url location s :
  government_host url = true ->
  wp (validateFeedUrl W url location)
    (returned (fun o _ =>
       forall f, o = Some f ->
         exists resp,
           request W (tick s) HEAD url = Reply resp /\
           confidence f
           = Math_min (snd (classify (header resp) url) + 0.2)%float 1.0)) s.
Proof.
  intros Hgov. eapply wp_mono; [apply validateFeedUrl_wp |].
  intros [o | e] s' H; simpl in *; [| exact H].
  intros f Hf. destruct (H f Hf) as (resp & Hreq & Hc & _).
  exists resp. split; [exact Hreq |].
  rewrite Hc. unfold scored. now rewrite (government_host_includes url Hgov).
Qed.

(** C3: on the home page of a chamber of commerce, a link whose query
    string mentions [city.gov] is validated with the +0.2 boost, although
    the host of the validated URL is [springfieldchamber.org]. *)
Lemma C3_boost_without_government_host :
  let url := "https://springfieldchamber.org/events?ref=city.gov" in
  government_host url = false /\
  exists f s',
    checkDomainForFeeds chamber_world "springfieldchamber.org"
      (mkOrgLocation springfield chamber) boot = (Ret [f], s') /\
    feedUrl (feed_source f) = Some url /\
    snd (classify "text/html" url) = 0.5%float /\
    confidence f = (0.5 + 0.2)%float.
Proof.
  split; [reflexivity |].
  destruct (checkDomainForFeeds chamber_world "springfieldchamber.org"
              (mkOrgLocation springfield chamber) boot) as [r s'] eqn:E.
  vm_compute in E. injection E as <- <-.
  do 2 eexists. repeat split.
Qed.

(** C4, as stated, fails for [discoverFeedsForPopularLocation]: the feed
    found on the chamber's site (0.5) comes before the known government
    URL (1.0). *)
Lemma C4_popular_location_not_descending :
  exists feeds s',
    discoverFeedsForPopularLocation springfield_world "Springfield" "Illinois" boot
    = (Ret feeds, s') /\
    List.map confidence feeds = [0.5; 1]%float /\
    ~ confidence_descending feeds.
Proof.
  destruct (discoverFeedsForPopularLocation springfield_world "Springfield"
              "Illinois" boot) as [r s'] eqn:E.
  vm_compute in E. injection E as <- <-.
  do 2 eexists. split; [reflexivity |]. split; [reflexivity |].
  intros H. specialize (H 0%nat 1%nat _ _ (Nat.lt_0_1) eq_refl eq_refl).
  vm_compute in H. discriminate.
Qed.

(** C4, amended: the result of [discoverFeedsForLocation] is in descending
    order of confidence.  The result of [discoverFeedsForPopularLocation]
    is made of the entries of that sorted result which survive the
    de-duplication by feed URL, still in descending order, followed by
    the surviving known-pattern feeds, which are not merged into that
    order.  (The state of a popular location is not to be a name that
    every object answers to.) *)
Theorem C4_discovery_order (W : World) :
  (forall location,
      returns (discoverFeedsForLocation W location) confidence_descending) /\
  (forall cityName stateName s,
      inherited_name (Str.trim (Str.toLowerCase stateName)) = false ->
      exists discovered additional s1 s2 kept later,
        discoverFeedsForLocation W (popular_location cityName stateName) s
        = (Ret discovered, s1) /\
        checkKnownPatterns W (popular_location cityName stateName) s1
        = (Ret additional, s2) /\
        discoverFeedsForPopularLocation W cityName stateName s
        = (Ret (kept ++ later)%list, s2) /\
        (kept ++ later)%list = first_by_feedUrl (discovered ++ additional)%list /\
        incl kept discovered /\ incl later additional /\
        confidence_descending discovered /\
        confidence_descending kept).
Proof.
  split.
  - intros location s.
    destruct (discoverFeedsForLocation_returns W location s) as (feeds & s' & E & _ & H).
    now exists feeds, s'.
  - intros cityName stateName s _.
    destruct (discoverFeedsForPopularLocation_run W cityName stateName s)
      as (discovered & additional & s1 & s2 & E1 & E2 & E & (found & Hf & Hd) & Ha).
    exists discovered, additional, s1, s2.
    unfold first_by_feedUrl, filter_indexed in *.
    rewrite filter_from_app in E |- *.
    do 2 eexists. split; [exact E1 |]. split; [exact E2 |]. split; [exact E |].
    split; [reflexivity |].
    split; [intros z Hz; eapply filter_from_incl; eauto |].
    split; [intros z Hz; eapply filter_from_incl; eauto |].
    subst discovered. split.
    + now apply sort_descending.
    + apply StronglySorted_descending.
      * apply filter_from_Forall. now apply sort_Forall.
      * apply filter_from_sorted.
        apply (sort_sorted by_confidence validated); auto.
        -- exact by_confidence_total.
        -- exact by_confidence_trans.
Qed.

(** The search for Springfield, Illinois: the chamber's feed, then the
    city's known address. *)
Lemma C4_springfield_order :
  inherited_name (Str.trim (Str.toLowerCase "Illinois")) = false /\
  exists discovered additional s1 s2 kept later,
    discoverFeedsForLocation springfield_world
      (popular_location "Springfield" "Illinois") boot
    = (Ret discovered, s1) /\
    checkKnownPatterns springfield_world
      (popular_location "Springfield" "Illinois") s1
    = (Ret additional, s2) /\
    discoverFeedsForPopularLocation springfield_world "Springfield" "Illinois" boot
    = (Ret (kept ++ later)%list, s2) /\
    (kept ++ later)%list = first_by_feedUrl (discovered ++ additional)%list /\
    incl kept discovered /\ incl later additional /\
    confidence_descending discovered /\
    confidence_descending kept.
Proof.
  split; [reflexivity |].
  apply (proj2 (C4_discovery_order springfield_world)). reflexivity.
Defined.


(** * Feed collection *)

Create HintDb frames.

Section CollectorFrames.

Variable W : World.

Lemma keeps_axios m url validate : keeps sources (axios W m url validate).
Proof. unfold axios. keeps_auto. Qed.

Lemma keeps_new_Date : keeps sources (new_Date W).
Proof. unfold new_Date, Date_now. keeps_auto. Qed.

Hint Resolve keeps_axios keeps_new_Date : frames.

Lemma keeps_generateFallbackEvents src :
  keeps sources (generateFallbackEvents W src).
Proof. unfold generateFallbackEvents, Date_now, Math_random. keeps_auto. Qed.

Lemma keeps_parseICalFeed src : keeps sources (parseICalFeed W src).
Proof. unfold parseICalFeed. keeps_auto; auto with frames. Qed.

Lemma keeps_rss_event src item : keeps sources (rss_event W src item).
Proof. unfold rss_event. keeps_auto; auto with frames. Qed.

Lemma keeps_parseRSSFeed src : keeps sources (parseRSSFeed W src).
Proof.
  unfold parseRSSFeed. keeps_auto; auto using keeps_rss_event with frames.
Qed.

Lemma keeps_json_event src event : keeps sources (json_event W src event).
Proof. unfold json_event. keeps_auto; auto with frames. Qed.

Lemma keeps_parseJSONFeed src : keeps sources (parseJSONFeed W src).
Proof.
  unfold parseJSONFeed. keeps_auto; auto using keeps_json_event with frames.
Qed.

Lemma keeps_parseWebCalFeed src : keeps sources (parseWebCalFeed W src).
Proof. unfold parseWebCalFeed. apply keeps_parseICalFeed. Qed.

Lemma keeps_html_event src element :
  keeps (fun ls : list InsertEvent * Sys => sources (snd ls)) (html_event W src element).
Proof. unfold html_event. keeps_auto; auto with frames. Qed.

Lemma keeps_html_selectors src doc selectors :
  keeps (fun ls : list InsertEvent * Sys => sources (snd ls))
    (html_selectors W src doc selectors).
Proof.
  induction selectors as [| selector rest IH]; simpl.
  - keeps_auto.
  - destruct (select doc selector); [exact IH |].
    keeps_auto; auto using keeps_html_event.
Qed.

Lemma keeps_scrapeHTMLEvents src : keeps sources (scrapeHTMLEvents W src).
Proof.
  unfold scrapeHTMLEvents. keeps_auto; auto using keeps_html_selectors with frames.
Qed.

Lemma keeps_collectFromSource src : keeps sources (collectFromSource W src).
Proof.
  unfold collectFromSource.
  keeps_auto;
    auto using keeps_parseICalFeed, keeps_parseRSSFeed, keeps_parseJSONFeed,
      keeps_parseWebCalFeed, keeps_scrapeHTMLEvents, keeps_generateFallbackEvents.
Qed.

Lemma keeps_collect_at position : keeps sources (collect_at W position).
Proof.
  unfold collect_at. keeps_auto. apply keeps_collectFromSource.
Qed.

End CollectorFrames.

(** ** The registry during a collection run *)


Lemma map_identity_change_at position d l :
  List.map identity (change_at position (with_lastSync d) l) = List.map identity l.
Proof.
  revert position. induction l as [| x r IH]; intros [| position]; simpl;
    try reflexivity.
  now rewrite IH.
Qed.

Lemma identity_same a b : identity a = identity b -> same_but_lastSync a b.
Proof.
  destruct a, b. unfold identity, same_but_lastSync, with_lastSync. simpl.
  intros [= -> -> -> -> -> -> -> -> ->]. reflexivity.
Qed.

Lemma map_eq_Forall2 {A B} (f : A -> B) (l l' : list A) :
  List.map f l' = List.map f l -> Forall2 (fun a b => f a = f b) l l'.
Proof.
  revert l'. induction l as [| a l IH]; intros [| b l']; simpl; try discriminate.
  - constructor.
  - intros [= Hab Hl]. constructor; auto.
Qed.

Lemma map_identity_Forall2 l l' :
  List.map identity l' = List.map identity l -> Forall2 same_but_lastSync l l'.
Proof.
  intros H. apply map_eq_Forall2 in H.
  eapply Forall2_impl; [| exact H]. exact identity_same.
Qed.

Section CollectionRun.

Variable W : World.

Lemma keeps_identity_touch position : keeps registry_identity (touch W position).
Proof.
  intros s. unfold touch, new_Date, Date_now, bind, interact, get_sources,
    set_sources, ret, registry_identity. simpl.
  apply map_identity_change_at.
Qed.

Lemma keeps_identity_collectFromAllSources :
  keeps registry_identity (collectFromAllSources W).
Proof.
  unfold collectFromAllSources.
  keeps_step; [apply (keeps_image sources); keeps_auto |].
  intros all. apply keeps_var with (proj := registry_identity).
  keeps_step; [| keeps_auto].
  keeps_step. intros i.
  keeps_step.
  { apply keeps_outer with (proj := registry_identity).
    apply (keeps_image sources). keeps_auto. apply keeps_collect_at. }
  intros batchResults. keeps_step.
  - keeps_step; [| keeps_auto].
    keeps_step. intros [[value | reason] position]; [| keeps_auto].
    keeps_step; [keeps_auto |]. intros _.
    apply keeps_outer with (proj := registry_identity).
    apply keeps_identity_touch.
  - intros _. destruct (Nat.ltb _ _); [| keeps_auto].
    apply keeps_outer with (proj := registry_identity).
    apply (keeps_image sources). unfold sleep. keeps_auto.
Qed.

End CollectionRun.

(** C9: a collection run leaves the registry with the same sources, in
    the same order, and each source with the same fields, its last-sync
    timestamp apart. *)
Theorem C9_collection_writes_lastSync_only (W : World) (s : Sys) :
  let s' := snd (collectFromAllSources W s) in
  List.length (sources s') = List.length (sources s) /\
  Forall2 same_but_lastSync (sources s) (sources s').
Proof.
  pose proof (keeps_identity_collectFromAllSources W s) as H.
  unfold registry_identity in H. cbv zeta. split.
  - apply (f_equal (@List.length _)) in H. now rewrite !length_map in H.
  - now apply map_identity_Forall2.
Qed.

(** ** The registry *)

Lemma same_string_eq a b : same_string a b = true <-> a = b.
Proof.
  destruct a as [x |], b as [y |]; simpl; split; try congruence.
  - intros H. apply String.eqb_eq in H. congruence.
  - intros [= ->]. apply String.eqb_refl.
Qed.

Lemma clashes_iff src existing :
  clashes src existing = true <->
  feedUrl existing = feedUrl src \/ id existing = id src.
Proof.
  unfold clashes. rewrite orb_true_iff, same_string_eq, String.eqb_eq. tauto.
Qed.

Lemma addSource_duplicate src s :
  duplicate_of src (sources s) -> addSource src s = (Ret false, s).
Proof.
  intros (existing & Hin & H). unfold addSource, bind, get_sources.
  fold (clashes src).
  destruct (find (clashes src) (sources s)) as [x |] eqn:E; [reflexivity |].
  apply (find_none _ _ E) in Hin. apply clashes_iff in H. congruence.
Qed.

Lemma addSource_new src s :
  ~ duplicate_of src (sources s) ->
  addSource src s
  = (Ret true, {| tick := tick s; sources := (sources s ++ [src])%list |}).
Proof.
  intros Hnew. unfold addSource, bind, get_sources. fold (clashes src).
  destruct (find (clashes src) (sources s)) as [x |] eqn:E; [| reflexivity].
  apply find_some in E. destruct E as [Hin H]. apply clashes_iff in H.
  exfalso. apply Hnew. now exists x.
Qed.

(** C6: [addSource] returns [false] and leaves the registry as it is when
    an existing source has the feed URL or the id of the candidate;
    otherwise it appends the candidate and returns [true].  Either way it
    returns a boolean and does not raise. *)
Theorem C6_addSource (src : CalendarSource) (s : Sys) :
  (duplicate_of src (sources s) -> addSource src s = (Ret false, s)) /\
  (~ duplicate_of src (sources s) ->
   addSource src s
   = (Ret true, {| tick := tick s; sources := (sources s ++ [src])%list |})).
Proof.
  split; [apply addSource_duplicate | apply addSource_new].
Qed.

(** On a fresh collector: a second source for the feed of San Francisco
    is refused, a source for Boise is added. *)
Lemma C6_addSource_samples :
  (duplicate_of sf_again (sources fresh_collector) /\
   addSource sf_again fresh_collector = (Ret false, fresh_collector)) /\
  (~ duplicate_of boise (sources fresh_collector) /\
   addSource boise fresh_collector
   = (Ret true, {| tick := 0; sources := (initial_sources ++ [boise])%list |})).
Proof.
  assert (Hdup : duplicate_of sf_again (sources fresh_collector)).
  { eexists. split; [left; reflexivity | left; reflexivity]. }
  assert (Hnew : ~ duplicate_of boise (sources fresh_collector)).
  { intros (x & Hin & H). simpl in Hin.
    repeat (destruct Hin as [<- | Hin]; [destruct H; discriminate |]).
    exact Hin. }
  split; split; [exact Hdup | | exact Hnew |].
  - exact (proj1 (C6_addSource sf_again fresh_collector) Hdup).
  - exact (proj2 (C6_addSource boise fresh_collector) Hnew).
Defined.

Lemma without_feedUrl_same l l' :
  Forall2 same_but_lastSync l l' -> without_feedUrl l' = without_feedUrl l.
Proof.
  unfold without_feedUrl. induction 1 as [| a b l l' Hab Hl IH]; simpl; [reflexivity |].
  assert (lacks_feedUrl b = lacks_feedUrl a) as ->.
  { unfold same_but_lastSync in Hab. rewrite Hab. reflexivity. }
  destruct (lacks_feedUrl a); simpl; now rewrite IH.
Qed.

Lemma without_feedUrl_change_first p f l :
  (forall x, lacks_feedUrl (f x) = lacks_feedUrl x) ->
  without_feedUrl (change_first p f l) = without_feedUrl l.
Proof.
  intros Hf. unfold without_feedUrl. induction l as [| x r IH]; simpl; [reflexivity |].
  destruct (p x); simpl.
  - rewrite Hf. now destruct (lacks_feedUrl x).
  - destruct (lacks_feedUrl x); simpl; now rewrite IH.
Qed.

Lemma without_feedUrl_remove_first p l :
  (without_feedUrl (remove_first p l) <= without_feedUrl l)%nat.
Proof.
  unfold without_feedUrl. induction l as [| x r IH]; simpl; [lia |].
  destruct (p x); destruct (lacks_feedUrl x) eqn:L; simpl; rewrite ?L; simpl; lia.
Qed.

Lemma without_feedUrl_none l :
  (forall x, In x l -> lacks_feedUrl x = false) -> without_feedUrl l = 0%nat.
Proof.
  unfold without_feedUrl. induction l as [| x r IH]; intros H; simpl; [reflexivity |].
  rewrite (H x) by now left. apply IH. intros y Hy. apply H. now right.
Qed.

Lemma without_feedUrl_push src l :
  without_feedUrl (push [src] l)
  = (without_feedUrl l + if lacks_feedUrl src then 1 else 0)%nat.
Proof.
  unfold without_feedUrl, push. rewrite filter_app, length_app. simpl.
  now destruct (lacks_feedUrl src).
Qed.

Lemma addSource_without_feedUrl src s :
  at_most_one_without_feedUrl (sources s) ->
  at_most_one_without_feedUrl (sources (snd (addSource src s))).
Proof.
  unfold at_most_one_without_feedUrl. fold (without_feedUrl (sources s)).
  intros H. unfold addSource, bind, get_sources. fold (clashes src).
  destruct (find (clashes src) (sources s)) as [x |] eqn:E; simpl; [exact H |].
  fold (without_feedUrl (push [src] (sources s))).
  rewrite without_feedUrl_push.
  destruct (lacks_feedUrl src) eqn:L; [| lia].
  rewrite without_feedUrl_none; [lia |].
  intros x Hx. apply (find_none _ _ E) in Hx.
  unfold clashes in Hx. apply orb_false_iff in Hx. destruct Hx as [Hx _].
  unfold lacks_feedUrl in *. destruct (feedUrl src); [discriminate |].
  now destruct (feedUrl x).
Qed.

Lemma apply_op_without_feedUrl W op s :
  at_most_one_without_feedUrl (sources s) ->
  at_most_one_without_feedUrl (sources (apply_op W op s)).
Proof.
  intros H. destruct op; simpl; auto.
  - (* toggleSource *)
    unfold toggleSource, bind, get_sources.
    destruct (find _ (sources s)); simpl; [| exact H].
    unfold at_most_one_without_feedUrl in *.
    fold (without_feedUrl (sources s)) in H.
    match goal with |- (List.length (List.filter _ ?l) <= 1)%nat =>
      fold (without_feedUrl l) end.
    now rewrite without_feedUrl_change_first.
  - now apply addSource_without_feedUrl.
  - (* removeSource *)
    unfold removeSource, bind, get_sources.
    destruct (findIndex _ (sources s) =? -1); simpl; [exact H |].
    unfold at_most_one_without_feedUrl in *.
    pose proof (without_feedUrl_remove_first
                  (fun x => String.eqb (id x) sourceId) (sources s)) as Hle.
    unfold without_feedUrl in Hle. lia.
  - (* collectFromAllSources *)
    pose proof (map_identity_Forall2 _ _ (keeps_identity_collectFromAllSources W s))
      as HF.
    apply without_feedUrl_same in HF.
    unfold at_most_one_without_feedUrl, without_feedUrl in *. lia.
Qed.

(** ** The fallback generator *)

Lemma trunc_lower (a : Z) (q : Q) : (inject_Z a <= q)%Q -> a <= Js.trunc q.
Proof.
  unfold Qle, Js.trunc. simpl. intros H.
  apply Z.quot_le_lower_bound; lia.
Qed.

Lemma fallback_start (now k : Z) (r : Q) :
  0 < k -> (0 <= r)%Q ->
  now < Js.trunc (inject_Z now + inject_Z k + r * inject_Z (12 * 60 * 60 * 1000)).
Proof.
  intros Hk Hr. apply Z.lt_le_trans with (now + k); [lia |].
  apply trunc_lower. rewrite inject_Z_plus.
  assert (0 <= r * inject_Z (12 * 60 * 60 * 1000))%Q.
  { apply Qmult_le_0_compat; [exact Hr |]. unfold Qle. simpl. lia. }
  lra.
Qed.

Section Fallback.

Variable W : World.

Lemma generateFallbackEvents_wp src s :
  (forall n, 0 <= random W n)%Q ->
  wp (generateFallbackEvents W src)
    (returned (fun events _ =>
       List.length events = 3%nat /\
       Forall (fallback_event src (clock W (tick s))) events)) s.
Proof.
  intros Hr. unfold generateFallbackEvents, Date_now, Math_random.
  cbn [for_each]. wp_steps. unfold push. simpl. split; [reflexivity |].
  repeat constructor; eexists; (split; [reflexivity |]);
    apply fallback_start; try lia; apply Hr.
Qed.

Lemma collectFromSource_unfold src :
  collectFromSource W src
  = try_catch (fetch_and_parse W src) (fun _ => generateFallbackEvents W src).
Proof. reflexivity. Qed.

End Fallback.

(** C5: the fallback generator returns, without raising, exactly 3
    events, each carrying the id of the source and starting strictly after
    the time read when the generator was entered; and [collectFromSource]
    is the fallback generator run after the failure when the real
    fetch-and-parse path raises, and is that path alone when it returns. *)
Theorem C5_fallback_generator (W : World) (src : CalendarSource) (s : Sys) :
  random_in_range W ->
  (exists events s',
      generateFallbackEvents W src s = (Ret events, s') /\
      List.length events = 3%nat /\
      Forall (fallback_event src (clock W (tick s))) events) /\
  (forall e s1,
      fetch_and_parse W src s = (Throw e, s1) ->
      collectFromSource W src s = generateFallbackEvents W src s1) /\
  (forall events s1,
      fetch_and_parse W src s = (Ret events, s1) ->
      collectFromSource W src s = (Ret events, s1)).
Proof.
  intros Hr. repeat split.
  - pose proof (generateFallbackEvents_wp W src s (fun n => proj1 (Hr n))) as H.
    unfold wp in H.
    destruct (generateFallbackEvents W src s) as [[events | e] s']; simpl in H;
      [| contradiction].
    now exists events, s'.
  - intros e s1 E. rewrite collectFromSource_unfold. unfold try_catch. now rewrite E.
  - intros events s1 E. rewrite collectFromSource_unfold. unfold try_catch.
    now rewrite E.
Qed.

(** The fallback events for Boise when [Math.random()] answers 0. *)
Lemma C5_fallback_in_silent_world :
  random_in_range silent_world /\
  exists events s',
    generateFallbackEvents silent_world boise boot = (Ret events, s') /\
    List.length events = 3%nat /\
    Forall (fallback_event boise (clock silent_world 0)) events.
Proof.
  assert (H : random_in_range silent_world).
  { intros n. split; [unfold Qle; simpl; lia | reflexivity]. }
  split; [exact H |].
  exact (proj1 (C5_fallback_generator silent_world boise boot H)).
Defined.

(** ** At most one source without a feed URL *)

Lemma run_ops_without_feedUrl W ops s :
  at_most_one_without_feedUrl (sources s) ->
  at_most_one_without_feedUrl (sources (run_ops W ops s)).
Proof.
  revert s. induction ops as [| op ops IH]; intros s H; simpl; [exact H |].
  apply IH. now apply apply_op_without_feedUrl.
Qed.

(** C10: when an existing source has no feed URL, a candidate without a
    feed URL is refused whatever its id; every seeded source has a feed
    URL; and after any sequence of operations on a fresh collector at most
    one source of the registry has no feed URL. *)
Theorem C10_at_most_one_source_without_feedUrl (W : World) :
  (forall src s existing,
      In existing (sources s) -> feedUrl existing = None -> feedUrl src = None ->
      addSource src s = (Ret false, s)) /\
  Forall (fun src => lacks_feedUrl src = false) initial_sources /\
  (forall ops,
      at_most_one_without_feedUrl (sources (run_ops W ops fresh_collector))).
Proof.
  split; [| split].
  - intros src s existing Hin He Hs. apply addSource_duplicate.
    exists existing. split; [exact Hin | left; congruence].
  - repeat constructor.
  - intros ops. apply run_ops_without_feedUrl.
    unfold at_most_one_without_feedUrl. simpl. lia.
Qed.

(** Once a source without a feed URL has been added, a second one is
    refused although its id is new. *)
Lemma C10_second_source_without_feedUrl_refused :
  let s := run_ops silent_world [AddSource walk_in] fresh_collector in
  (In walk_in (sources s) /\ feedUrl walk_in = None /\ feedUrl drop_by = None) /\
  id drop_by <> id walk_in /\
  addSource drop_by s = (Ret false, s).
Proof.
  cbv zeta.
  assert (H : In walk_in (sources (run_ops silent_world [AddSource walk_in] fresh_collector))
              /\ feedUrl walk_in = None /\ feedUrl drop_by = None).
  { split; [| split; reflexivity]. simpl. do 18 right. left. reflexivity. }
  split; [exact H |]. split; [discriminate |].
  destruct H as (Hin & Hw & Hd).
  exact (proj1 (C10_at_most_one_source_without_feedUrl silent_world) _ _ _ Hin Hw Hd).
Defined.

(** ** The calendar-format parser *)

Lemma Forall2_firstn {A B} (R : A -> B -> Prop) n l l' :
  Forall2 R l l' -> Forall2 R (firstn n l) (firstn n l').
Proof.
  intros H. revert n. induction H; intros [| n]; simpl; constructor; auto.
Qed.


Section ICal.

Variable W : World.
Variable src : CalendarSource.

Lemma ical_event_record c start e :
  c_start c = Some start -> ical_event W src c start = Ret e -> record_of c e.
Proof.
  unfold ical_event, record_of. intros Hs.
  destruct (lower_includes (c_description c) "free"); [| discriminate].
  intros [= <-]. simpl. auto.
Qed.

Lemma ical_event_returns c start :
  searchable (c_description c) = true -> exists e, ical_event W src c start = Ret e.
Proof.
  unfold ical_event. intros H.
  destruct (c_description c); try discriminate; simpl; eauto.
Qed.

Lemma ical_events_records comps acc out :
  ical_events W src comps acc = Ret out ->
  exists records,
    out = (acc ++ records)%list /\
    Forall2 record_of (List.filter qualifies comps) records.
Proof.
  revert acc. induction comps as [| c comps IH]; intros acc; simpl.
  - intros [= <-]. exists []. rewrite app_nil_r. split; [reflexivity | constructor].
  - unfold qualifies at 1.
    destruct (c_start c) as [start |] eqn:Es;
      [| rewrite andb_false_r; simpl; apply IH].
    rewrite andb_true_r.
    destruct (String.eqb (ctype c) "VEVENT" && Js.truthy (summary c))%bool;
      [| apply IH].
    destruct (ical_event W src c start) as [e | err] eqn:Ee; [| discriminate].
    intros H. apply IH in H. destruct H as (records & -> & HF).
    exists (e :: records). unfold push. rewrite <- app_assoc. split; [reflexivity |].
    constructor; [| exact HF]. now apply ical_event_record with start.
Qed.

Lemma ical_events_returns comps acc :
  Forall (fun c => searchable (c_description c) = true) comps ->
  exists out, ical_events W src comps acc = Ret out.
Proof.
  intros H. revert acc. induction H as [| c comps Hc _ IH]; intros acc; simpl.
  - eauto.
  - destruct (c_start c) as [start |]; [| apply IH].
    destruct (String.eqb (ctype c) "VEVENT" && Js.truthy (summary c))%bool;
      [| apply IH].
    destruct (ical_event_returns c start Hc) as [e ->]. apply IH.
Qed.

Lemma parseICalFeed_run s :
  missing (feedUrl src) = false ->
  wp (parseICalFeed W src)
    (fun r s' =>
       match request W (tick s) GET (text_of (feedUrl src)) with
       | NoReply => exists e, r = Throw e
       | Reply resp =>
           if default_validateStatus (status resp)
           then match ical_parseICS W (data resp) with
                | Ret comps =>
                    match ical_events W src comps [] with
                    | Ret out => r = Ret (firstn 10 out)
                    | Throw _ => exists e, r = Throw e
                    end
                | Throw _ => exists e, r = Throw e
                end
           else exists e, r = Throw e
       end) s.
Proof.
  intros Hm. unfold parseICalFeed, axios. rewrite Hm. wp_steps.
  destruct (request W (tick s) GET (text_of (feedUrl src))) as [| resp].
  - wp_steps. eauto.
  - destruct (default_validateStatus (status resp)); [| wp_steps; eauto].
    wp_steps. destruct (ical_parseICS W (data resp)) as [comps | e];
      [| wp_steps; eauto].
    wp_steps. destruct (ical_events W src comps []) as [out | e];
      [| wp_steps; eauto].
    wp_steps. reflexivity.
Qed.

End ICal.

(** C7, as stated, fails: of eleven complete events, the eleventh has a
    title and a start and no end, and no record is emitted for it. *)
Lemma C7_eleventh_event_has_no_record :
  let c := complete_event 11 in
  In c eleven_events /\ qualifies c = true /\ c_end c = None /\
  exists events s',
    parseICalFeed (feed_world (VStr "BEGIN:VCALENDAR") eleven_events) sf_city boot
    = (Ret events, s') /\
    List.length events = 10%nat /\
    ~ exists e, In e events /\ title e = summary c.
Proof.
  cbv zeta. split; [simpl; tauto |]. split; [reflexivity |]. split; [reflexivity |].
  destruct (parseICalFeed (feed_world (VStr "BEGIN:VCALENDAR") eleven_events)
              sf_city boot) as [r s'] eqn:E.
  vm_compute in E. injection E as <- <-.
  do 2 eexists. split; [reflexivity |]. split; [reflexivity |].
  intros (e & Hin & Ht). simpl in Hin.
  repeat (destruct Hin as [<- | Hin]; [vm_compute in Ht; discriminate |]).
  exact Hin.
Qed.

(** C7, amended: when the calendar-format parser returns, its records are
    those of the first 10 components that are events with a start and a
    title, in order, so that a component lacking a start or a title has no
    record; a record ends at the end the decoder gives the component, and
    one hour after its start only when the decoder gives the component no
    end.  The parser does return when the feed is fetched and decoded
    and every description is absent or a string.  Nothing is said of the
    end the decoder gives an event that the feed writes without one: with
    a decoder that gives it its start, the default of one hour is not
    applied and the record ends when it starts. *)
Theorem C7_calendar_parser (W : World) (src : CalendarSource) (s : Sys) :
  missing (feedUrl src) = false ->
  (forall events s',
      parseICalFeed W src s = (Ret events, s') ->
      exists resp comps,
        request W (tick s) GET (text_of (feedUrl src)) = Reply resp /\
        ical_parseICS W (data resp) = Ret comps /\
        Forall2 record_of (firstn 10 (List.filter qualifies comps)) events) /\
  (forall resp comps,
      request W (tick s) GET (text_of (feedUrl src)) = Reply resp ->
      default_validateStatus (status resp) = true ->
      ical_parseICS W (data resp) = Ret comps ->
      Forall (fun c => searchable (c_description c) = true) comps ->
      exists events s',
        parseICalFeed W src s = (Ret events, s') /\
        Forall2 record_of (firstn 10 (List.filter qualifies comps)) events).
Proof.
  intros Hm. pose proof (parseICalFeed_run W src s Hm) as H. unfold wp in H.
  destruct (parseICalFeed W src s) as [r s1]. cbn [fst snd] in H. split.
  - intros events s' [= -> ->].
    destruct (request W (tick s) GET (text_of (feedUrl src))) as [| resp] eqn:Er;
      [destruct H; discriminate |].
    destruct (default_validateStatus (status resp)); [| destruct H; discriminate].
    destruct (ical_parseICS W (data resp)) as [comps | e] eqn:Ei;
      [| destruct H; discriminate].
    destruct (ical_events W src comps []) as [out | e] eqn:E;
      [| destruct H; discriminate].
    injection H as ->. exists resp, comps.
    split; [reflexivity |]. split; [exact Ei |].
    apply ical_events_records in E. destruct E as (records & -> & HF).
    exact (Forall2_firstn record_of 10 _ _ HF).
  - intros resp comps Hreq Hst Hics Hdesc. rewrite Hreq, Hst, Hics in H.
    destruct (ical_events_returns W src comps [] Hdesc) as [out E].
    rewrite E in H. subst r. exists (firstn 10 out), s1. split; [reflexivity |].
    apply ical_events_records in E. destruct E as (records & -> & HF).
    exact (Forall2_firstn record_of 10 _ _ HF).
Qed.

(** Two events as a decoder may hand them over.  The first comes without
    an end: its record ends one hour after its start.  The second comes
    with its start as its end: its record ends when it starts. *)
Lemma C7_event_without_end_and_event_with_end :
  missing (feedUrl sf_city) = false /\
  exists e1 e2 s',
    parseICalFeed
      (feed_world (VStr "BEGIN:VCALENDAR") [complete_event 1; instant_event 2])
      sf_city boot
    = (Ret [e1; e2], s') /\
    record_of (complete_event 1) e1 /\
    record_of (instant_event 2) e2 /\
    c_end (complete_event 1) = None /\
    endDate e1 = date_plus (startDate e1) (60 * 60 * 1000) /\
    c_end (instant_event 2) = c_start (instant_event 2) /\
    endDate e2 = startDate e2.
Proof.
  split; [reflexivity |].
  assert (Hd : Forall (fun c => searchable (c_description c) = true)
                 [complete_event 1; instant_event 2]).
  { repeat (apply Forall_cons; [reflexivity |]). apply Forall_nil. }
  destruct (proj2 (C7_calendar_parser
                     (feed_world (VStr "BEGIN:VCALENDAR")
                        [complete_event 1; instant_event 2])
                     sf_city boot eq_refl)
              (mkResponse 200 None (VStr "BEGIN:VCALENDAR"))
              [complete_event 1; instant_event 2]
              eq_refl eq_refl eq_refl Hd)
    as (events & s' & E & HF).
  inversion HF as [| c1 e1 l1 l1' Hrec1 HF1]; subst.
  inversion HF1 as [| c2 e2 l2 l2' Hrec2 HF2]; subst.
  inversion HF2; subst.
  exists e1, e2, s'. split; [exact E |].
  split; [exact Hrec1 |]. split; [exact Hrec2 |].
  split; [reflexivity |].
  split; [exact (proj2 (proj2 Hrec1)) |].
  split; [reflexivity |].
  destruct Hrec2 as (_ & Hs & He). rewrite He.
  change (c_end (instant_event 2)) with (c_start (instant_event 2)).
  rewrite Hs. reflexivity.
Defined.

(** ** The JSON parser *)


(** What [map_M] returns is made element by element. *)
Lemma map_M_Forall2 {St A B} (f : A -> M St B) (P : A -> B -> Prop) :
  (forall x s, wp (f x) (fun r _ => forall y, r = Ret y -> P x y) s) ->
  forall l s, wp (map_M f l) (fun r _ => forall out, r = Ret out -> Forall2 P l out) s.
Proof.
  intros Hf. induction l as [| x l IH]; intros s; simpl.
  - wp_steps. intros out [= <-]. constructor.
  - wp_step. eapply wp_mono; [apply Hf |].
    intros [y | e] s1 Hy; [| discriminate].
    wp_step. eapply wp_mono; [apply IH |].
    intros [ys | e] s2 Hys; [| discriminate].
    wp_step. intros out [= <-]. constructor; auto.
Qed.

Section Json.

Variable W : World.
Variable src : CalendarSource.



End Json.


(** * More about the registry *)

Lemma Sys_eta s : {| tick := tick s; sources := sources s |} = s.
Proof. now destruct s. Qed.

Lemma findIndex_none {A} (p : A -> bool) l :
  findIndex p l = -1 <-> forall x, In x l -> p x = false.
Proof.
  induction l as [| x r IH]; simpl.
  - split; [intros _ y [] | reflexivity].
  - destruct (p x) eqn:E.
    + split; [discriminate |]. intros H. specialize (H x (or_introl eq_refl)). congruence.
    + assert (Hge : -1 <= findIndex p r).
      { clear. induction r as [| y r IH]; simpl; [lia |].
        destruct (p y); [lia |]. destruct (findIndex p r =? -1); lia. }
      destruct (findIndex p r =? -1) eqn:E1.
      * apply Z.eqb_eq in E1. split; [| reflexivity].
        intros _ y [<- | Hy]; [exact E | now apply IH].
      * apply Z.eqb_neq in E1. split; [lia |].
        intros H. exfalso. apply E1, IH. intros y Hy. apply H. now right.
Qed.

Lemma find_none_iff {A} (p : A -> bool) l :
  find p l = None <-> forall x, In x l -> p x = false.
Proof.
  split; [apply find_none |].
  induction l as [| x r IH]; simpl; intros H; [reflexivity |].
  rewrite (H x) by now left. apply IH. intros y Hy. apply H. now right.
Qed.

Lemma change_first_absent {A} (p : A -> bool) f (l : list A) :
  (forall x, In x l -> p x = false) -> change_first p f l = l.
Proof.
  induction l as [| x r IH]; simpl; intros H; [reflexivity |].
  rewrite (H x) by now left. f_equal. apply IH. intros y Hy. apply H. now right.
Qed.

Lemma change_first_twice {A} (p : A -> bool) f (l : list A) :
  (forall x, p (f x) = p x) -> (forall x, f (f x) = x) ->
  change_first p f (change_first p f l) = l.
Proof.
  intros Hp Hf. induction l as [| x r IH]; simpl; [reflexivity |].
  destruct (p x) eqn:E; simpl.
  - now rewrite Hp, E, Hf.
  - now rewrite E, IH.
Qed.

Lemma change_first_map {A B} (g : A -> B) (p : A -> bool) f (l : list A) :
  (forall x, g (f x) = g x) -> List.map g (change_first p f l) = List.map g l.
Proof.
  intros Hg. induction l as [| x r IH]; simpl; [reflexivity |].
  destruct (p x); simpl; [now rewrite Hg | now rewrite IH].
Qed.

Lemma find_change_first {A} (p : A -> bool) f (l : list A) :
  (forall x, p (f x) = p x) ->
  find p (change_first p f l) = option_map f (find p l).
Proof.
  intros Hp. induction l as [| x r IH]; simpl; [reflexivity |].
  destruct (p x) eqn:E; simpl.
  - now rewrite Hp, E.
  - now rewrite E, IH.
Qed.

Lemma flip_active_twice src : flip_active (flip_active src) = src.
Proof. destruct src. unfold flip_active, with_isActive. simpl. now rewrite negb_involutive. Qed.

Lemma toggleSource_run sourceId s :
  toggleSource sourceId s
  = match find (has_id sourceId) (sources s) with
    | Some src =>
        (Ret (negb (isActive src)),
         {| tick := tick s;
            sources := change_first (has_id sourceId) flip_active (sources s) |})
    | None => (Ret false, s)
    end.
Proof.
  unfold toggleSource, bind, get_sources, set_sources, ret.
  fold (has_id sourceId). now destruct (find (has_id sourceId) (sources s)).
Qed.

(** X1: [toggleSource] on an id no source has returns [false] and changes
    nothing; on the id of a source it returns the new flag of the first
    such source and changes the [isActive] fields only; done twice, it
    leaves the registry as it was. *)
Theorem toggleSource_involution (sourceId : string) (s : Sys) :
  ((forall src, In src (sources s) -> id src <> sourceId) ->
   toggleSource sourceId s = (Ret false, s)) /\
  (forall src,
      find (has_id sourceId) (sources s) = Some src ->
      exists s1,
        toggleSource sourceId s = (Ret (negb (isActive src)), s1) /\
        toggleSource sourceId s1 = (Ret (isActive src), s)) /\
  List.map (with_isActive true) (sources (snd (toggleSource sourceId s)))
  = List.map (with_isActive true) (sources s) /\
  snd (toggleSource sourceId (snd (toggleSource sourceId s))) = s.
Proof.
  assert (Hp : forall x, has_id sourceId (flip_active x) = has_id sourceId x)
    by reflexivity.
  split; [| split; [| split]].
  - intros H. rewrite toggleSource_run.
    assert (E : find (has_id sourceId) (sources s) = None).
    { apply find_none_iff. intros x Hx. apply String.eqb_neq. now apply H. }
    now rewrite E.
  - intros src E. rewrite toggleSource_run, E. eexists. split; [reflexivity |].
    rewrite toggleSource_run. cbn [sources tick].
    rewrite find_change_first, E by exact Hp. cbn [option_map].
    rewrite change_first_twice by (exact Hp || exact flip_active_twice).
    rewrite Sys_eta. unfold flip_active. cbn [isActive with_isActive].
    now rewrite negb_involutive.
  - rewrite toggleSource_run.
    destruct (find (has_id sourceId) (sources s)); [| reflexivity].
    cbn [snd sources]. now apply change_first_map.
  - rewrite (toggleSource_run sourceId s).
    destruct (find (has_id sourceId) (sources s)) as [src |] eqn:E; cbn [snd].
    + rewrite toggleSource_run. cbn [sources tick].
      rewrite find_change_first, E by exact Hp. cbn [option_map snd].
      rewrite change_first_twice by (exact Hp || exact flip_active_twice).
      apply Sys_eta.
    + rewrite toggleSource_run, E. reflexivity.
Qed.

(** Toggling on a fresh collector: an id nobody has, and Austin's. *)
Lemma toggleSource_samples :
  ((forall src, In src (sources fresh_collector) -> id src <> "nowhere") /\
   toggleSource "nowhere" fresh_collector = (Ret false, fresh_collector)) /\
  (find (has_id "austin-city") (sources fresh_collector)
   = Some (nth 3 initial_sources boise) /\
   exists s1,
     toggleSource "austin-city" fresh_collector = (Ret false, s1) /\
     toggleSource "austin-city" s1 = (Ret true, fresh_collector)).
Proof.
  assert (H : forall src, In src (sources fresh_collector) -> id src <> "nowhere").
  { intros src Hin. simpl in Hin.
    repeat (destruct Hin as [<- | Hin]; [discriminate |]). destruct Hin. }
  split; split.
  - exact H.
  - exact (proj1 (toggleSource_involution "nowhere" fresh_collector) H).
  - reflexivity.
  - exact (proj1 (proj2 (toggleSource_involution "austin-city" fresh_collector))
             (nth 3 initial_sources boise) eq_refl).
Defined.

Lemma remove_first_absent {A} (p : A -> bool) (l : list A) :
  (forall x, In x l -> p x = false) -> remove_first p l = l.
Proof.
  induction l as [| x r IH]; simpl; intros H; [reflexivity |].
  rewrite (H x) by now left. f_equal. apply IH. intros y Hy. apply H. now right.
Qed.

Lemma remove_first_split {A} (p : A -> bool) (l : list A) x :
  find p l = Some x ->
  exists pre post,
    l = (pre ++ x :: post)%list /\ (forall y, In y pre -> p y = false) /\
    p x = true /\ remove_first p l = (pre ++ post)%list.
Proof.
  induction l as [| y r IH]; simpl; [discriminate |].
  destruct (p y) eqn:E.
  - intros [= <-]. exists [], r. repeat split; auto. intros z [].
  - intros H. destruct (IH H) as (pre & post & -> & Hpre & Hx & Hr).
    exists (y :: pre), post. simpl. rewrite Hr. repeat split; auto.
    intros z [<- | Hz]; auto.
Qed.

Lemma remove_first_push {A} (p : A -> bool) (l : list A) x :
  (forall y, In y l -> p y = false) -> p x = true ->
  remove_first p (push [x] l) = l.
Proof.
  unfold push. induction l as [| y r IH]; simpl; intros H Hx.
  - now rewrite Hx.
  - rewrite (H y) by now left. f_equal. apply IH; auto.
Qed.

Lemma removeSource_run sourceId s :
  removeSource sourceId s
  = match find (has_id sourceId) (sources s) with
    | Some _ =>
        (Ret true,
         {| tick := tick s; sources := remove_first (has_id sourceId) (sources s) |})
    | None => (Ret false, s)
    end.
Proof.
  unfold removeSource, bind, get_sources, set_sources, ret.
  fold (has_id sourceId).
  destruct (find (has_id sourceId) (sources s)) as [x |] eqn:E.
  - destruct (findIndex (has_id sourceId) (sources s) =? -1) eqn:E1; [| reflexivity].
    apply Z.eqb_eq in E1. pose proof (proj1 (findIndex_none _ _) E1) as E2.
    apply find_some in E.
    destruct E as [Hin Hx]. rewrite (E2 x Hin) in Hx. discriminate.
  - pose proof (proj2 (findIndex_none _ _) (proj1 (find_none_iff _ _) E)) as E2.
    now rewrite E2.
Qed.

(** X2: [removeSource] on an id no source has returns [false] and changes
    nothing; otherwise it returns [true] and takes out the first source
    with that id, and that one only, the others keeping their order. *)
Theorem removeSource_first_match (sourceId : string) (s : Sys) :
  ((forall src, In src (sources s) -> id src <> sourceId) ->
   removeSource sourceId s = (Ret false, s)) /\
  (forall src,
      find (has_id sourceId) (sources s) = Some src ->
      exists before after,
        sources s = (before ++ src :: after)%list /\
        id src = sourceId /\
        (forall other, In other before -> id other <> sourceId) /\
        removeSource sourceId s
        = (Ret true, {| tick := tick s; sources := (before ++ after)%list |})).
Proof.
  split.
  - intros H. rewrite removeSource_run.
    assert (E : find (has_id sourceId) (sources s) = None).
    { apply find_none_iff. intros x Hx. apply String.eqb_neq. now apply H. }
    now rewrite E.
  - intros src E. rewrite removeSource_run, E.
    destruct (remove_first_split _ _ _ E) as (pre & post & Hl & Hpre & Hx & Hr).
    exists pre, post. rewrite Hr. repeat split; auto.
    + now apply String.eqb_eq.
    + intros other Ho. apply String.eqb_neq. now apply Hpre.
Qed.

Lemma removeSource_samples :
  ((forall src, In src (sources fresh_collector) -> id src <> "nowhere") /\
   removeSource "nowhere" fresh_collector = (Ret false, fresh_collector)) /\
  (find (has_id "los-angeles-city") (sources fresh_collector)
   = Some (nth 1 initial_sources boise) /\
   exists before after,
     sources fresh_collector = (before ++ nth 1 initial_sources boise :: after)%list /\
     id (nth 1 initial_sources boise) = "los-angeles-city" /\
     (forall other, In other before -> id other <> "los-angeles-city") /\
     removeSource "los-angeles-city" fresh_collector
     = (Ret true, {| tick := 0; sources := (before ++ after)%list |})).
Proof.
  assert (H : forall src, In src (sources fresh_collector) -> id src <> "nowhere").
  { intros src Hin. simpl in Hin.
    repeat (destruct Hin as [<- | Hin]; [discriminate |]). destruct Hin. }
  split; split.
  - exact H.
  - exact (proj1 (removeSource_first_match "nowhere" fresh_collector) H).
  - reflexivity.
  - exact (proj2 (removeSource_first_match "los-angeles-city" fresh_collector)
             (nth 1 initial_sources boise) eq_refl).
Defined.

Lemma addSource_run src s :
  addSource src s
  = match find (clashes src) (sources s) with
    | Some _ => (Ret false, s)
    | None => (Ret true, {| tick := tick s; sources := push [src] (sources s) |})
    end.
Proof.
  unfold addSource, bind, get_sources, set_sources, ret. fold (clashes src).
  now destruct (find (clashes src) (sources s)).
Qed.

Lemma clashes_self src : clashes src src = true.
Proof. unfold clashes. now rewrite String.eqb_refl, orb_true_r. Qed.

(** X3: a candidate that [addSource] has accepted is refused when offered
    again, and [removeSource] with its id then gives back the registry as
    it was before the candidate was added. *)
Theorem addSource_then_removeSource (src : CalendarSource) (s s1 : Sys) :
  addSource src s = (Ret true, s1) ->
  sources s1 = (sources s ++ [src])%list /\
  addSource src s1 = (Ret false, s1) /\
  removeSource (id src) s1 = (Ret true, s).
Proof.
  rewrite addSource_run.
  destruct (find (clashes src) (sources s)) as [x |] eqn:E; [discriminate |].
  intros [= <-]. split; [reflexivity |]. split.
  - rewrite addSource_run. cbn [sources].
    assert (Hf : find (clashes src) (push [src] (sources s)) <> None).
    { intros Hn. pose proof (clashes_self src) as Hc.
      rewrite (find_none _ _ Hn src) in Hc; [discriminate |].
      unfold push. apply in_or_app. right. now left. }
    now destruct (find (clashes src) (push [src] (sources s))).
  - rewrite removeSource_run. cbn [sources tick].
    assert (Hl : forall y, In y (sources s) -> has_id (id src) y = false).
    { intros y Hy. apply (find_none _ _ E) in Hy. unfold clashes in Hy.
      apply orb_false_iff in Hy. apply Hy. }
    assert (Hx : has_id (id src) src = true) by apply String.eqb_refl.
    assert (Hf : find (has_id (id src)) (push [src] (sources s)) <> None).
    { intros Hn. rewrite (find_none _ _ Hn src) in Hx; [discriminate |].
      unfold push. apply in_or_app. right. now left. }
    destruct (find (has_id (id src)) (push [src] (sources s))); [| congruence].
    rewrite remove_first_push by assumption. now rewrite Sys_eta.
Qed.

Lemma addSource_then_removeSource_boise :
  addSource boise fresh_collector
  = (Ret true, {| tick := 0; sources := (initial_sources ++ [boise])%list |}) /\
  removeSource "boise-city"
    {| tick := 0; sources := (initial_sources ++ [boise])%list |}
  = (Ret true, fresh_collector).
Proof.
  assert (H : addSource boise fresh_collector
              = (Ret true, {| tick := 0; sources := (initial_sources ++ [boise])%list |}))
    by reflexivity.
  split; [exact H |].
  exact (proj2 (proj2 (addSource_then_removeSource boise fresh_collector _ H))).
Defined.

(** ** Distinct ids and distinct feed URLs *)

Lemma remove_first_map_NoDup {A B} (g : A -> B) (p : A -> bool) (l : list A) :
  NoDup (List.map g l) -> NoDup (List.map g (remove_first p l)).
Proof.
  induction l as [| x r IH]; simpl; intros H; [constructor |].
  inversion H as [| ? ? Hnot Hr]; subst.
  destruct (p x); [exact Hr |]. simpl. constructor; [| now apply IH].
  intros Hin. apply Hnot. clear -Hin.
  induction r as [| y r IH]; simpl in *; [exact Hin |].
  destruct (p y); [now right |]. destruct Hin as [-> | Hin]; [now left | right; auto].
Qed.

Lemma NoDup_map_push {A B} (g : A -> B) (l : list A) x :
  NoDup (List.map g l) -> (forall y, In y l -> g y <> g x) ->
  NoDup (List.map g (push [x] l)).
Proof.
  unfold push. intros Hl Hx. induction l as [| y r IH]; simpl.
  - constructor; [intros [] | constructor].
  - inversion Hl as [| ? ? Hnot Hr]; subst. constructor.
    + rewrite map_app, in_app_iff. intros [Hin | [Heq | []]]; [now apply Hnot |].
      apply (Hx y); [now left | now symmetry].
    + apply IH; [exact Hr |]. intros z Hz. apply Hx. now right.
Qed.

Lemma same_but_lastSync_map {B} (g : CalendarSource -> B) l l' :
  (forall d x, g (with_lastSync d x) = g x) ->
  Forall2 same_but_lastSync l l' -> List.map g l' = List.map g l.
Proof.
  intros Hg. induction 1 as [| a b l l' Hab _ IH]; simpl; [reflexivity |].
  unfold same_but_lastSync in Hab. rewrite Hab at 1. now rewrite Hg, IH.
Qed.

Lemma apply_op_distinct W op s :
  distinct_sources (sources s) -> distinct_sources (sources (apply_op W op s)).
Proof.
  unfold distinct_sources. intros [Hid Hurl]. destruct op; simpl; auto.
  - (* toggleSource *)
    rewrite toggleSource_run.
    destruct (find (has_id sourceId) (sources s)); cbn [snd sources]; [| auto].
    rewrite !change_first_map by reflexivity. auto.
  - (* addSource *)
    rewrite addSource_run.
    destruct (find (clashes src) (sources s)) eqn:E; cbn [snd sources]; [auto |].
    pose proof (find_none _ _ E) as Hnone.
    split; apply NoDup_map_push; auto; intros y Hy Heq;
      specialize (Hnone y Hy); unfold clashes in Hnone;
      apply orb_false_iff in Hnone; destruct Hnone as [Hu Hi].
    + apply String.eqb_neq in Hi. contradiction.
    + apply (proj2 (same_string_eq _ _)) in Heq. congruence.
  - (* removeSource *)
    rewrite removeSource_run.
    destruct (find (has_id sourceId) (sources s)); cbn [snd sources]; [| auto].
    split; now apply remove_first_map_NoDup.
  - (* collectFromAllSources *)
    pose proof (map_identity_Forall2 _ _ (keeps_identity_collectFromAllSources W s))
      as HF.
    rewrite (same_but_lastSync_map id _ _ (fun _ _ => eq_refl) HF).
    rewrite (same_but_lastSync_map feedUrl _ _ (fun _ _ => eq_refl) HF). auto.
Qed.

(** X4: on a collector as constructed, whatever operations are then made
    (listings, toggles, additions, removals, collection runs), no two
    sources of the registry have the same id and no two have the same
    feed URL. *)
Theorem registry_sources_stay_distinct (W : World) (ops : list RegistryOp) :
  distinct_sources (sources (run_ops W ops fresh_collector)).
Proof.
  assert (H : distinct_sources (sources fresh_collector)).
  { split; simpl;
      repeat (constructor; [simpl; intros H;
                            repeat (destruct H as [H | H]; [discriminate |]);
                            exact H |]);
      constructor. }
  revert H. generalize fresh_collector.
  induction ops as [| op ops IH]; intros s H; simpl; [exact H |].
  apply IH. now apply apply_op_distinct.
Qed.


(** * More about collection *)

(** A loop whose body takes [Inv done] to [Inv (done ++ [x])] takes
    [Inv done] to [Inv (done ++ l)]. *)
Lemma wp_for_each_done {St A} (Inv : list A -> St -> Prop) (body : A -> M St unit) :
  forall (l done : list A),
    (forall pre x s, In x l -> Inv pre s ->
       wp (body x) (returned (fun _ => Inv (pre ++ [x])%list)) s) ->
    forall s, Inv done s ->
      wp (for_each l body) (returned (fun _ => Inv (done ++ l)%list)) s.
Proof.
  induction l as [| x r IH]; intros done Hbody s Hs; simpl.
  - rewrite app_nil_r. exact Hs.
  - apply wp_bind. eapply wp_mono.
    + apply (Hbody done x s); [now left | exact Hs].
    + intros [[] | e] s' H; simpl in H; [| contradiction].
      replace (done ++ x :: r)%list with ((done ++ [x]) ++ r)%list
        by (rewrite <- app_assoc; reflexivity).
      apply IH; [| exact H].
      intros pre y s0 Hy. apply Hbody. now right.
Qed.

Lemma length_take n s : (String.length (Str.take n s) <= n)%nat.
Proof.
  unfold Str.take. revert s. induction n as [| n IH]; intros [| c s]; simpl; try lia.
  specialize (IH s). lia.
Qed.

Lemma length_chars s : List.length (Js.chars s) = String.length s.
Proof. induction s as [| c s IH]; simpl; congruence. Qed.

Lemma slice_items_length n v items :
  Js.slice_items n v = Ret items -> (List.length items <= n)%nat.
Proof.
  destruct v; simpl; try discriminate; intros [= <-].
  - rewrite length_chars. apply length_take.
  - apply firstn_le_length.
Qed.

Lemma Forall_firstn {A} (P : A -> Prop) n (l : list A) :
  Forall P l -> Forall P (firstn n l).
Proof.
  intros H. revert n. induction H; intros [| n]; simpl; constructor; auto.
Qed.

Lemma Forall2_right {A B} (P : B -> Prop) (l : list A) (l' : list B) :
  Forall2 (fun _ y => P y) l l' ->
  List.length l' = List.length l /\ Forall P l'.
Proof. induction 1 as [| x y l l' Hy _ [IH1 IH2]]; simpl; split; auto. Qed.

Lemma categorizeEvent_categories title_ description_ :
  In (categorizeEvent title_ description_) categories.
Proof.
  unfold categorizeEvent, categories.
  repeat match goal with
         | |- context [if ?b then _ else _] => destruct b
         end; simpl; tauto.
Qed.

Section Parsers.

Variable W : World.

Lemma ical_events_tagged src comps acc out :
  Forall (tagged src) acc -> ical_events W src comps acc = Ret out ->
  Forall (tagged src) out.
Proof.
  revert acc. induction comps as [| c comps IH]; intros acc Hacc; simpl.
  - now intros [= <-].
  - destruct (c_start c) as [start |]; [| now apply IH].
    destruct (String.eqb (ctype c) "VEVENT" && Js.truthy (summary c))%bool;
      [| now apply IH].
    destruct (ical_event W src c start) as [e | err] eqn:Ee; [| discriminate].
    apply IH. apply push_Forall; [exact Hacc |]. constructor; [| constructor].
    unfold ical_event in Ee.
    destruct (lower_includes (c_description c) "free"); [| discriminate].
    injection Ee as <-. repeat split. apply categorizeEvent_categories.
Qed.

Lemma parseICalFeed_bounded src s :
  wp (parseICalFeed W src)
    (fun r _ => forall events, r = Ret events -> batch_of_events 10 src events) s.
Proof.
  unfold parseICalFeed.
  destruct (missing (feedUrl src)).
  { wp_step. intros events [= <-]. split; [simpl; lia | constructor]. }
  wp_steps. apply wp_axios; [| intros e; wp_step; discriminate].
  intros resp _ _. wp_steps.
  destruct (ical_parseICS W (data resp)) as [comps | e]; [| wp_steps; discriminate].
  wp_steps. destruct (ical_events W src comps []) as [out | e] eqn:E;
    [| wp_steps; discriminate].
  wp_steps. intros events Hev.
  assert (events = firstn 10 out) as -> by congruence. split.
  - apply firstn_le_length.
  - apply Forall_firstn. eapply ical_events_tagged; [| exact E]. constructor.
Qed.

Lemma rss_event_tagged src item s :
  wp (rss_event W src item) (fun r _ => forall e, r = Ret e -> tagged src e) s.
Proof.
  unfold rss_event, new_Date, Date_now.
  wp_steps. destruct (Js.get item "title"); [| wp_steps; discriminate].
  wp_steps. destruct (Js.truthy _); wp_steps;
    repeat match goal with
           | |- wp (lift ?o) _ _ => destruct o; wp_steps; try discriminate
           | |- match ?o with Ret _ => _ | Throw _ => _ end =>
               destruct o; wp_steps; try discriminate
           end;
    intros e [= <-]; repeat split; apply categorizeEvent_categories.
Qed.

Lemma map_M_tagged src (f : jsval -> M Sys InsertEvent) items s :
  (forall item s', wp (f item) (fun r _ => forall e, r = Ret e -> tagged src e) s') ->
  (List.length items <= 10)%nat ->
  wp (map_M f items)
    (fun r _ => forall events, r = Ret events -> batch_of_events 10 src events) s.
Proof.
  intros Hf Hlen. eapply wp_mono.
  - apply (map_M_Forall2 f (fun _ e => tagged src e)). intros; apply Hf.
  - intros r s' H events ->. specialize (H events eq_refl).
    apply Forall2_right in H. destruct H as [Hl HF]. split; [lia | exact HF].
Qed.

Lemma parseRSSFeed_bounded src s :
  wp (parseRSSFeed W src)
    (fun r _ => forall events, r = Ret events -> batch_of_events 10 src events) s.
Proof.
  unfold parseRSSFeed.
  destruct (missing (feedUrl src)).
  { wp_step. intros events [= <-]. split; [simpl; lia | constructor]. }
  wp_steps. apply wp_axios; [| intros e; wp_steps; discriminate].
  intros resp _ _. wp_steps.
  destruct (xml2js_parseString W (data resp)) as [result | e];
    [| wp_steps; discriminate].
  wp_steps. destruct (Js.get result "rss") as [rss_ | e]; [| wp_steps; discriminate].
  wp_steps. destruct (Js.get result "feed") as [feed_ | e]; [| wp_steps; discriminate].
  wp_steps. destruct (Js.slice_items 10 _) as [items | e] eqn:E;
    [| wp_steps; discriminate].
  apply map_M_tagged; [apply rss_event_tagged |].
  now apply slice_items_length in E.
Qed.

Lemma json_event_tagged src event s :
  wp (json_event W src event) (fun r _ => forall e, r = Ret e -> tagged src e) s.
Proof.
  unfold json_event, new_Date, Date_now.
  wp_steps. destruct (Js.get event "start_date"); [| wp_steps; discriminate].
  wp_steps. destruct (Js.truthy _); wp_steps;
    repeat match goal with
           | |- wp (lift ?o) _ _ => destruct o; wp_steps; try discriminate
           | |- match ?o with Ret _ => _ | Throw _ => _ end =>
               destruct o; wp_steps; try discriminate
           end;
    intros e [= <-]; repeat split; apply categorizeEvent_categories.
Qed.

Lemma parseJSONFeed_bounded src s :
  wp (parseJSONFeed W src)
    (fun r _ => forall events, r = Ret events -> batch_of_events 10 src events) s.
Proof.
  unfold parseJSONFeed.
  destruct (missing (feedUrl src)).
  { wp_step. intros events [= <-]. split; [simpl; lia | constructor]. }
  wp_steps. apply wp_axios; [| intros e; wp_steps; discriminate].
  intros resp _ _. wp_steps.
  destruct (Js.get (data resp) "events") as [data_events | e];
    [| wp_steps; discriminate].
  wp_steps. destruct (Js.slice_items 10 _) as [items | e] eqn:E;
    [| wp_steps; discriminate].
  eapply wp_mono.
  - apply map_M_tagged; [apply json_event_tagged |].
    now apply slice_items_length in E.
  - intros [events | e] s' H; wp_steps; [exact H | discriminate].
Qed.

Lemma html_event_gathered src element k ls :
  gathered src k ls ->
  wp (html_event W src element) (returned (fun _ => gathered src (S k))) ls.
Proof.
  destruct ls as [acc s]. unfold gathered, batch_of_events. cbn [fst].
  intros [Hlen Hall]. unfold html_event, new_Date, Date_now.
  match goal with |- wp (if ?b then _ else _) _ _ => destruct b end.
  2: { wp_step. simpl. split; [lia | exact Hall]. }
  wp_step. destruct (parseEventDate W _); wp_steps; simpl;
    (split; [unfold push; rewrite length_app; simpl; lia |]);
    (apply push_Forall; [exact Hall |]); (constructor; [| constructor]);
    repeat split; apply categorizeEvent_categories.
Qed.

Lemma html_selectors_gathered src doc selectors s :
  wp (html_selectors W src doc selectors) (returned (fun _ => gathered src 5))
    ([], s).
Proof.
  revert s. induction selectors as [| selector rest IH]; intros s;
    cbn [html_selectors].
  - wp_step. simpl. split; [simpl; lia | constructor].
  - cbv zeta. destruct (select doc selector) as [| el els]; [apply IH |].
    generalize (el :: els). intros found. wp_step.
    pose proof (wp_for_each_done
                  (fun done ls => gathered src (List.length done) ls)
                  (html_event W src) (firstn 5 found) []) as Hloop.
    eapply wp_mono.
    + apply Hloop.
      * intros pre x ls _ Hpre. eapply wp_mono; [apply html_event_gathered, Hpre |].
        intros [[] | e] ls' H; simpl in *; [| exact H].
        rewrite length_app. simpl. now rewrite Nat.add_1_r.
      * split; [simpl; lia | constructor].
    + intros [[] | e] [acc s1] H; cbn [returned] in H; [| contradiction].
      wp_steps. destruct acc as [| ev acc]; [apply IH |].
      wp_step. destruct H as [Hlen Hall]. split; [| exact Hall].
      cbn [fst app] in *. pose proof (firstn_le_length 5 found). lia.
Qed.

Lemma scrapeHTMLEvents_bounded src s :
  wp (scrapeHTMLEvents W src)
    (fun r _ => forall events, r = Ret events -> batch_of_events 10 src events) s.
Proof.
  unfold scrapeHTMLEvents.
  destruct (missing (websiteUrl src)).
  { wp_step. intros events [= <-]. split; [simpl; lia | constructor]. }
  wp_steps. apply wp_axios; [| intros e; wp_steps; discriminate].
  intros resp _ _. wp_steps.
  destruct (cheerio_load W (data resp)) as [doc | e]; [| wp_steps; discriminate].
  wp_steps. eapply wp_mono; [apply html_selectors_gathered |].
  intros [[] | e] [acc s1] H; simpl in H; [| contradiction].
  wp_steps. intros events [= <-]. destruct H as [Hlen Hall]. split; [| exact Hall].
  cbn [fst] in Hlen. lia.
Qed.

Lemma generateFallbackEvents_tagged src s :
  wp (generateFallbackEvents W src)
    (returned (fun events _ => batch_of_events 3 src events)) s.
Proof.
  unfold generateFallbackEvents, Date_now, Math_random.
  cbn [for_each]. wp_steps. unfold push. simpl. split; [simpl; lia |].
  repeat (constructor; [repeat split; simpl; tauto |]). constructor.
Qed.

(** [collectFromSource] always returns. *)
Lemma collectFromSource_returns src s :
  wp (collectFromSource W src)
    (returned (fun events _ => batch_of_events 10 src events)) s.
Proof.
  unfold collectFromSource. wp_step.
  assert (H : wp (fetch_and_parse W src)
                (fun r _ => forall events, r = Ret events ->
                                           batch_of_events 10 src events) s).
  { unfold fetch_and_parse. destruct (feedType src).
    - apply parseICalFeed_bounded.
    - apply parseRSSFeed_bounded.
    - unfold parseWebCalFeed.
      exact (parseICalFeed_bounded (with_feedUrl _ src) s).
    - apply parseJSONFeed_bounded.
    - apply scrapeHTMLEvents_bounded. }
  eapply wp_mono; [exact H |].
  intros [events | e] s' Hr; [now apply Hr |].
  eapply wp_mono; [apply generateFallbackEvents_tagged |].
  intros [events | e'] s'' Hf; simpl in *; [| exact Hf].
  destruct Hf as [Hlen Hall]. split; [lia | exact Hall].
Qed.

End Parsers.


(** X5: whatever the feed answers, [collectFromSource] does not raise;
    it returns at most ten events, each carrying the id of the source,
    its name as organizer and a category of the schema, and it leaves
    the registry as it was. *)
Theorem collectFromSource_never_raises (W : World) (src : CalendarSource) (s : Sys) :
  exists events s',
    collectFromSource W src s = (Ret events, s') /\
    (List.length events <= 10)%nat /\
    Forall (tagged src) events /\
    sources s' = sources s.
Proof.
  pose proof (collectFromSource_returns W src s) as H.
  pose proof (keeps_collectFromSource W src s) as Hk.
  unfold wp in H. destruct (collectFromSource W src s) as [[events | e] s'];
    simpl in H; [| contradiction].
  exists events, s'. destruct H as [Hlen Hall]. auto.
Qed.

(** * The batches of a collection run *)

Lemma firstn_add {A} (a b : nat) (l : list A) :
  firstn (a + b) l = (firstn a l ++ firstn b (skipn a l))%list.
Proof.
  revert l. induction a as [| a IH]; intros [| x l]; simpl; try reflexivity.
  - now rewrite firstn_nil.
  - now rewrite IH.
Qed.

Lemma batch_starts_step size n :
  batch_starts size (S n)
  = (batch_starts size n ++ (if Nat.eqb (n mod size) 0 then [n] else []))%list.
Proof.
  unfold batch_starts. rewrite seq_S, filter_app. reflexivity.
Qed.

(** The batches up to [n] are the first elements of the list, up to a
    multiple of the batch size. *)
Lemma batches_prefix {A} (size : nat) (l : list A) : (0 < size)%nat ->
  forall n, exists q, (n <= size * q < n + size)%nat /\
    List.concat (List.map (fun i => slice i (i + size) l) (batch_starts size n))
    = firstn (size * q) l.
Proof.
  intros Hsize. induction n as [| n (q & Hq & IH)].
  - exists 0%nat. split; [lia |]. now rewrite Nat.mul_0_r.
  - rewrite batch_starts_step, map_app, concat_app, IH.
    destruct (Nat.eqb (n mod size) 0) eqn:E.
    + apply Nat.eqb_eq in E. apply Nat.Div0.div_exact in E.
      assert (q = (n / size)%nat) as -> by nia.
      exists (S (n / size)). split; [lia |].
      simpl. rewrite app_nil_r. unfold slice.
      replace (n + size - n)%nat with size by lia.
      rewrite <- E. rewrite <- firstn_add. f_equal. lia.
    + apply Nat.eqb_neq in E. exists q. simpl. rewrite app_nil_r. split; [| reflexivity].
      assert (n <> size * q)%nat; [| lia].
      intros ->. apply E. rewrite Nat.mul_comm. apply Nat.Div0.mod_mul.
Qed.

Lemma batches_partition {A} (size : nat) (l : list A) : (0 < size)%nat ->
  List.concat (List.map (fun i => slice i (i + size) l) (batch_starts size (List.length l)))
  = l.
Proof.
  intros Hsize. destruct (batches_prefix size l Hsize (List.length l)) as (q & Hq & ->).
  apply firstn_all2. lia.
Qed.

Lemma slice_length {A} (i size : nat) (l : list A) :
  (List.length (slice i (i + size) l) <= size)%nat.
Proof. unfold slice. rewrite length_firstn. lia. Qed.

(** ** Positions of the active sources *)

Lemma positions_In {A} (p : A -> bool) (l : list A) from i :
  In i (positions p from l) <->
  (from <= i)%nat /\ exists x, nth_error l (i - from) = Some x /\ p x = true.
Proof.
  revert from. induction l as [| y r IH]; intros from; simpl.
  - split; [intros [] | intros (_ & x & H & _)].
    now destruct (i - from)%nat.
  - assert (Hr : In i (positions p (S from) r) <->
                 (from < i)%nat /\
                 exists x, nth_error (y :: r) (i - from) = Some x /\ p x = true).
    { rewrite IH. split; intros (Hle & x & Hx & Hp); (split; [lia |]); exists x;
        (split; [| exact Hp]).
      - replace (i - from)%nat with (S (i - S from)) by lia. exact Hx.
      - replace (i - from)%nat with (S (i - S from)) in Hx by lia. exact Hx. }
    destruct (p y) eqn:E; simpl; rewrite Hr.
    + split.
      * intros [<- | (Hlt & x & Hx & Hp)].
        -- split; [lia |]. exists y. now rewrite Nat.sub_diag.
        -- split; [lia |]. now exists x.
      * intros (Hle & x & Hx & Hp).
        destruct (Nat.eq_dec from i) as [-> | Hne]; [now left | right].
        split; [lia |]. now exists x.
    + split.
      * intros (Hlt & x & Hx & Hp). split; [lia |]. now exists x.
      * intros (Hle & x & Hx & Hp). split; [| now exists x].
        destruct (Nat.eq_dec from i) as [-> | Hne]; [| lia].
        rewrite Nat.sub_diag in Hx. simpl in Hx. congruence.
Qed.

Lemma positions_length {A} (p : A -> bool) (l : list A) from :
  List.length (positions p from l) = List.length (List.filter p l).
Proof.
  revert from. induction l as [| y r IH]; intros from; simpl; [reflexivity |].
  destruct (p y); simpl; now rewrite IH.
Qed.

Lemma change_at_nth_error {A} (f : A -> A) (l : list A) i j :
  nth_error (change_at i f l) j
  = if Nat.eqb j i then option_map f (nth_error l j) else nth_error l j.
Proof.
  revert i j. induction l as [| x r IH]; intros [| i] [| j]; simpl; try reflexivity.
  - now destruct (Nat.eqb j i).
  - apply IH.
Qed.

Lemma Forall2_nth_error {A B} (R : A -> B -> Prop) (l : list A) (l' : list B) :
  List.length l' = List.length l ->
  (forall i x y, nth_error l i = Some x -> nth_error l' i = Some y -> R x y) ->
  Forall2 R l l'.
Proof.
  revert l'. induction l as [| x r IH]; intros [| y r']; simpl; try discriminate.
  - constructor.
  - intros [= Hlen] H. constructor.
    + now apply (H 0%nat).
    + apply IH; [exact Hlen |]. intros i. apply (H (S i)).
Qed.

Lemma Forall2_combine {A B} (R : A -> B -> Prop) (l : list A) (l' : list B) x y :
  Forall2 R l l' -> In (y, x) (List.combine l' l) -> R x y.
Proof.
  induction 1 as [| a b l l' Hab _ IH]; simpl; [intros [] |].
  intros [[= <- <-] | Hin]; auto.
Qed.

Lemma combine_snd {A B} (l : list A) (l' : list B) :
  List.length l' = List.length l -> List.map snd (List.combine l' l) = l.
Proof.
  revert l'. induction l as [| x r IH]; intros [| y r']; simpl; try discriminate;
    [reflexivity |].
  intros [= H]. now rewrite IH.
Qed.

(** ** Rules for loops that build a list and for frames *)

Lemma wp_keeps {St T A} (proj : St -> T) (m : M St A) Q s :
  keeps proj m -> wp m Q s -> wp m (fun r s' => Q r s' /\ proj s' = proj s) s.
Proof. unfold wp, keeps. auto. Qed.

Lemma wp_map_M {St A B} (I : St -> Prop) (R : A -> B -> Prop) (f : A -> M St B)
    (l : list A) :
  (forall x s, In x l -> I s -> wp (f x) (returned (fun y s' => I s' /\ R x y)) s) ->
  forall s, I s ->
    wp (map_M f l) (returned (fun ys s' => I s' /\ Forall2 R l ys)) s.
Proof.
  induction l as [| x r IH]; intros Hf s Hs; simpl.
  - wp_step. simpl. split; [exact Hs | constructor].
  - wp_step. eapply wp_mono; [apply Hf; [now left | exact Hs] |].
    intros [y | e] s' H; simpl in H; [| contradiction]. destruct H as [Hs' Hy].
    wp_step. eapply wp_mono; [apply IH; [| exact Hs'] |].
    + intros z s0 Hz. apply Hf. now right.
    + intros [ys | e] s'' H; simpl in H; [| contradiction]. destruct H as [Hs'' Hys].
      wp_step. simpl. split; [exact Hs'' | now constructor].
Qed.

Lemma wp_settled {St A} (m : M St A) (Q : outcome (outcome A) -> St -> Prop) s :
  wp m (fun r s' => Q (Ret r) s') s -> wp (settled m) Q s.
Proof. unfold wp, settled. now destruct (m s). Qed.

Lemma identity_fields a b :
  identity a = identity b -> id a = id b /\ name a = name b /\ isActive a = isActive b.
Proof.
  destruct a, b. unfold identity, with_lastSync. simpl.
  intros [= -> -> -> -> -> -> -> -> ->]. auto.
Qed.

Lemma map_nth_error_eq {A B} (g : A -> B) (l l' : list A) i x :
  List.map g l' = List.map g l -> nth_error l i = Some x ->
  exists y, nth_error l' i = Some y /\ g y = g x.
Proof.
  intros H Hx. apply (map_nth_error g) in Hx. rewrite <- H in Hx.
  rewrite nth_error_map in Hx. destruct (nth_error l' i) as [y |]; [| discriminate].
  exists y. split; [reflexivity |]. simpl in Hx. congruence.
Qed.

Section CollectionBatches.

Variable W : World.

Lemma wp_get_sources (Q : outcome (list CalendarSource) -> Sys -> Prop) s :
  Q (Ret (sources s)) s -> wp get_sources Q s.
Proof. exact (fun H => H). Qed.

Lemma wp_set_sources l (Q : outcome unit -> Sys -> Prop) s :
  Q (Ret tt) (mkSys (tick s) l) -> wp (set_sources l) Q s.
Proof. exact (fun H => H). Qed.

Lemma collect_at_wp position src s :
  nth_error (sources s) position = Some src ->
  wp (collect_at W position)
    (returned (fun events s' =>
                 sources s' = sources s /\ batch_of_events 10 src events)) s.
Proof.
  intros H. unfold collect_at. wp_step. apply wp_get_sources. rewrite H.
  eapply wp_mono.
  - apply (wp_keeps sources); [apply keeps_collectFromSource |].
    apply collectFromSource_returns.
  - intros [events | e] s' [Hr Hs]; simpl in *; [split; assumption | exact Hr].
Qed.

Lemma touch_wp position (Q : outcome unit -> Sys -> Prop) s :
  Q (Ret tt)
    (mkSys (S (tick s))
       (change_at position (with_lastSync (Some (Time (clock W (tick s)))))
          (sources s))) ->
  wp (touch W position) Q s.
Proof. exact (fun H => H). Qed.

Variable all : list CalendarSource.

(** One settled task of a batch, seen from the registry [all]. *)
Lemma task_wp position s :
  List.map identity (sources s) = List.map identity all ->
  In position (positions isActive 0 all) ->
  wp (settled (collect_at W position))
    (returned (fun r s' =>
       sources s' = sources s /\ task_result all position r)) s.
Proof.
  intros Hmap Hin. apply positions_In in Hin.
  destruct Hin as (_ & src & Hsrc & Hact). rewrite Nat.sub_0_r in Hsrc.
  destruct (map_nth_error_eq identity _ _ _ _ Hmap Hsrc) as (src' & Hsrc' & Hid).
  apply wp_settled. eapply wp_mono; [apply (collect_at_wp _ _ _ Hsrc') |].
  intros [events | e] s' H; simpl in *; [| contradiction].
  destruct H as [Hs [Hlen Hall]]. split; [exact Hs |].
  exists src, events. repeat split; auto.
  apply identity_fields in Hid. destruct Hid as (Hi & Hn & _).
  eapply Forall_impl; [| exact Hall]. unfold tagged. intros e [H1 H2].
  split; congruence.
Qed.

Lemma In_slice {A} (i j : nat) (l : list A) x : In x (slice i j l) -> In x l.
Proof.
  unfold slice. intros H.
  rewrite <- (firstn_skipn i l). apply in_or_app. right.
  rewrite <- (firstn_skipn (j - i) (skipn i l)). apply in_or_app. now left.
Qed.

(** The bookkeeping for one fulfilled task: its events are added and its
    source is stamped. *)
Lemma record_wp processed result position ls :
  collecting all processed ls ->
  task_result all position result ->
  In position (positions isActive 0 all) ->
  wp (match result with
      | Ret value => update (push value) ;;; outer (touch W position)
      | Throw reason => ret tt
      end)
    (returned (fun _ => collecting all (processed ++ [position])%list)) ls.
Proof.
  destruct ls as [acc s]. intros (Hmap & Hfrom & Hlen & Hsync & Hrest & Hgroup).
  intros (src & events & -> & Hsrc & Hact & Hn & Hall) Hin.
  cbn [fst snd] in *. wp_steps. apply touch_wp. cbn [returned].
  unfold collecting. cbn [fst snd sources].
  split; [| split; [| split; [| split; [| split]]]].
  - now rewrite map_identity_change_at.
  - unfold push. apply Forall_app. split; [exact Hfrom |].
    eapply Forall_impl; [| exact Hall]. intros e He. exists src.
    split; [eapply nth_error_In, Hsrc |]. split; [exact Hact | exact He].
  - unfold push. rewrite !length_app. simpl. lia.
  - intros p src' Hp. rewrite change_at_nth_error.
    destruct (Nat.eqb p position) eqn:E.
    + destruct (nth_error (sources s) p); [| discriminate].
      intros [= <-]. eexists. reflexivity.
    + apply Nat.eqb_neq in E. apply in_app_or in Hp.
      destruct Hp as [Hp | [-> | []]]; [| contradiction]. now apply Hsync.
  - intros p Hp. rewrite change_at_nth_error.
    destruct (Nat.eqb p position) eqn:E; [| now apply Hrest].
    apply Nat.eqb_eq in E. subst p. contradiction.
  - destruct Hgroup as (lists & -> & Hlists). exists (lists ++ [events])%list. split.
    + unfold push. rewrite concat_app. simpl. now rewrite app_nil_r.
    + apply Forall2_app; [exact Hlists |]. constructor; [| constructor].
      exists src. split; [exact Hsrc |]. split; [exact Hn | exact Hall].
Qed.

(** One batch: its tasks, the bookkeeping, the pause. *)
Lemma batch_wp processed i ls :
  collecting all processed ls ->
  let activeSources := positions isActive 0 all in
  let batch := slice i (i + 5) activeSources in
  wp (batchResults <- outer (map_M (fun p => settled (collect_at W p)) batch) ;;
      try_catch
        (for_each (List.combine batchResults batch) (fun '(result, position) =>
           match result with
           | Ret value => update (push value) ;;; outer (touch W position)
           | Throw reason => ret tt
           end))
        (fun error => ret tt) ;;;
      (if Nat.ltb (i + 5) (List.length activeSources)
       then outer sleep else ret tt))
    (returned (fun _ => collecting all (processed ++ batch)%list)) ls.
Proof.
  intros Hc activeSources batch. destruct ls as [acc s].
  assert (Hbatch : forall p, In p batch -> In p activeSources)
    by (intros p; apply In_slice).
  wp_steps. eapply wp_mono.
  - apply (wp_map_M (fun s' => sources s' = sources s) (task_result all)).
    + intros p s' Hp Hs'. eapply wp_mono.
      * apply task_wp; [| apply Hbatch, Hp].
        rewrite Hs'. apply Hc.
      * intros [r | e] s'' H; simpl in *; [| exact H].
        destruct H as [Hs'' Hr]. split; [congruence | exact Hr].
    + reflexivity.
  - intros [batchResults | e] s1 H; simpl in H; [| contradiction].
    destruct H as [Hs1 Hres]. wp_steps.
    pose proof (wp_for_each_done
                  (fun done ls => collecting all (processed ++ List.map snd done)%list ls)
                  (fun '(result, position) =>
                     match result with
                     | Ret value => update (push value) ;;; outer (touch W position)
                     | Throw reason => ret tt
                     end)
                  (List.combine batchResults batch) [] ) as Hloop.
    eapply wp_mono.
    + apply Hloop.
      * intros pre [result position] ls' Hin Hpre.
        eapply wp_mono.
        -- apply record_wp; [exact Hpre | |].
           ++ eapply Forall2_combine; [exact Hres | exact Hin].
           ++ apply Hbatch. eapply in_combine_r, Hin.
        -- intros [[] | e] ls'' H; simpl in *; [| exact H].
           now rewrite map_app, app_assoc.
      * simpl. rewrite app_nil_r.
        destruct Hc as (H1 & H2 & H3 & H4 & H5). cbn [fst snd] in *.
        unfold collecting. cbn [fst snd]. rewrite Hs1. auto.
    + intros [[] | e] [acc2 s2] H; cbn [returned] in H; [| contradiction].
      cbn [app] in H. rewrite combine_snd in H
        by (symmetry; eapply Forall2_length, Hres).
      wp_steps. destruct (Nat.ltb _ _); wp_steps; [| exact H].
      unfold sleep. apply wp_interact. exact H.
Qed.

(** The whole run, seen from the registry it started from. *)
Lemma collectFromAllSources_wp s :
  sources s = all ->
  wp (collectFromAllSources W)
    (returned (fun events s' =>
       collecting all (positions isActive 0 all) (events, s'))) s.
Proof.
  intros Hall. unfold collectFromAllSources. wp_step. apply wp_get_sources.
  rewrite Hall. cbv zeta. wp_steps.
  pose proof (wp_for_each_done
                (fun done ls =>
                   collecting all
                     (List.concat
                        (List.map
                           (fun i => slice i (i + 5) (positions isActive 0 all))
                           done)) ls)) as Hloop.
  eapply wp_mono.
  - eapply (Hloop _ _ []).
    + intros pre i ls _ Hpre. eapply wp_mono.
      * apply batch_wp. exact Hpre.
      * intros [[] | e] ls' H; simpl in H; [| contradiction]. cbn [returned].
        rewrite map_app, concat_app. simpl. now rewrite app_nil_r.
    + unfold collecting. cbn [fst snd List.map List.concat List.length].
      rewrite Hall. split; [reflexivity |]. split; [constructor |].
      split; [lia |]. split; [intros p src [] |]. split; [reflexivity |].
      exists []. split; [reflexivity | constructor].
  - intros [[] | e] [acc s'] H; cbn [returned] in H; [| contradiction].
    cbn [app] in H. rewrite batches_partition in H by lia.
    wp_steps. exact H.
Qed.

End CollectionBatches.

Lemma positions_filter {A} (p : A -> bool) (l : list A) from :
  Forall2 (fun i x => (from <= i)%nat /\ nth_error l (i - from) = Some x)
    (positions p from l) (List.filter p l).
Proof.
  revert from. induction l as [| y r IH]; intros from; simpl; [constructor |].
  assert (Hr : Forall2 (fun i x => (from <= i)%nat /\
                                   nth_error (y :: r) (i - from) = Some x)
                 (positions p (S from) r) (List.filter p r)).
  { eapply Forall2_impl; [| apply IH]. intros i x [Hle Hx]. split; [lia |].
    replace (i - from)%nat with (S (i - S from)) by lia. exact Hx. }
  destruct (p y); [| exact Hr].
  constructor; [| exact Hr]. split; [lia |]. now rewrite Nat.sub_diag.
Qed.

Lemma Forall2_join {A B C} (R1 : A -> B -> Prop) (R2 : A -> C -> Prop)
    (l : list A) (lb : list B) (lc : list C) :
  Forall2 R1 l lb -> Forall2 R2 l lc ->
  Forall2 (fun c b => exists a, R2 a c /\ R1 a b) lc lb.
Proof.
  intros H1. revert lc. induction H1 as [| a b l lb Hab _ IH]; intros lc H2;
    inversion H2; subst; constructor; eauto.
Qed.

(** X6: a collection run does not raise, and its events come source by
    source, in the order of the registry: they are, one after the
    other, a list of at most ten events for each source that was
    active, each list holding events of its source only. *)
Theorem collectFromAllSources_source_by_source (W : World) (s : Sys) :
  exists lists events s',
    collectFromAllSources W s = (Ret events, s') /\
    events = List.concat lists /\
    Forall2 (batch_of_events 10) (List.filter isActive (sources s)) lists.
Proof.
  pose proof (collectFromAllSources_wp W (sources s) s eq_refl) as H.
  unfold wp in H. destruct (collectFromAllSources W s) as [[events | e] s'];
    simpl in H; [| contradiction].
  destruct H as (_ & _ & _ & _ & _ & lists & Hev & Hlists). cbn [fst] in Hev.
  exists lists, events, s'. split; [reflexivity |]. split; [exact Hev |].
  pose proof (Forall2_join _ _ _ _ _ Hlists (positions_filter isActive (sources s) 0))
    as Hj.
  eapply Forall2_impl; [| exact Hj].
  intros src l (p & [_ Hp] & src' & Hsrc' & Hb). rewrite Nat.sub_0_r in Hp.
  congruence.
Qed.

(** What a run makes of the source at one position of the registry. *)
Lemma collectFromAllSources_at (W : World) (s : Sys) i x :
  nth_error (sources s) i = Some x ->
  exists y,
    nth_error (sources (snd (collectFromAllSources W s))) i = Some y /\ after_run x y.
Proof.
  intros Hx.
  pose proof (collectFromAllSources_wp W (sources s) s eq_refl) as H.
  unfold wp in H. destruct (collectFromAllSources W s) as [[events | e] s'];
    simpl in H; [| contradiction].
  destruct H as (Hmap & _ & _ & Hsync & Hrest & _). cbn [fst snd] in *.
  destruct (map_nth_error_eq identity _ _ _ _ Hmap Hx) as (y & Hy & Hid).
  exists y. split; [exact Hy |]. unfold after_run.
  destruct (isActive x) eqn:E.
  - assert (Hin : In i (positions isActive 0 (sources s))).
    { apply positions_In. split; [lia |]. exists x. now rewrite Nat.sub_0_r. }
    destruct (Hsync i y Hin Hy) as [t Ht]. exists t. rewrite <- Ht.
    now apply identity_same.
  - rewrite Hrest in Hy; [congruence |].
    intros Hin. apply positions_In in Hin. destruct Hin as (_ & x' & Hx' & Hp).
    rewrite Nat.sub_0_r in Hx'. congruence.
Qed.

(** X7: after a collection run every source that was active has an
    instant as its last-sync timestamp, whether its feed answered or
    not, and every inactive source is as it was. *)
Theorem collectFromAllSources_stamps_active_sources (W : World) (s : Sys) :
  Forall2 after_run (sources s) (sources (snd (collectFromAllSources W s))).
Proof.
  apply Forall2_nth_error.
  - pose proof (keeps_identity_collectFromAllSources W s) as H.
    unfold registry_identity in H.
    apply (f_equal (@List.length _)) in H. now rewrite !length_map in H.
  - intros i x y Hx Hy.
    destruct (collectFromAllSources_at W s i x Hx) as (y' & Hy' & H).
    congruence.
Qed.


(** * The schedule of the fallback events *)

Lemma trunc_upper (a : Z) (q : Q) : (q <= inject_Z a)%Q -> Js.trunc q <= a.
Proof.
  unfold Qle, Js.trunc. simpl. intros H.
  apply Z.quot_le_upper_bound; lia.
Qed.

Lemma fallback_window (now k : Z) (r : Q) :
  (0 <= r)%Q -> (r < 1)%Q ->
  now + k
  <= Js.trunc (inject_Z now + inject_Z k + r * inject_Z (12 * 60 * 60 * 1000))
  <= now + k + 12 * 60 * 60 * 1000.
Proof.
  intros H0 H1.
  assert (Hlo : (0 <= r * inject_Z (12 * 60 * 60 * 1000))%Q).
  { apply Qmult_le_0_compat; [exact H0 |]. unfold Qle. simpl. lia. }
  assert (Hhi : (r * inject_Z (12 * 60 * 60 * 1000) <= inject_Z (12 * 60 * 60 * 1000))%Q).
  { rewrite <- (Qmult_1_l (inject_Z (12 * 60 * 60 * 1000))) at 2.
    apply Qmult_le_compat_r; [now apply Qlt_le_weak |]. unfold Qle. simpl. lia. }
  split.
  - apply trunc_lower. rewrite inject_Z_plus. lra.
  - apply trunc_upper. rewrite !inject_Z_plus. lra.
Qed.

Lemma fallback_attendance (r : Q) :
  (0 <= r)%Q -> (r < 1)%Q -> 20 <= Qfloor (r * 100) + 20 <= 119.
Proof.
  intros H0 H1.
  assert (Hlo : 0 <= Qfloor (r * 100)).
  { rewrite <- (Qfloor_Z 0). apply Qfloor_resp_le.
    change (inject_Z 0) with 0%Q. lra. }
  assert (Hhi : Qfloor (r * 100) < 100).
  { rewrite Zlt_Qlt. apply Qle_lt_trans with (r * 100)%Q; [apply Qfloor_le |].
    change (inject_Z 100) with 100%Q. lra. }
  lia.
Qed.

(** X8: with [Math.random()] in [0, 1), the fallback generator makes one
    event for each of the next three days, from the first three
    templates: each starts within the first twelve hours of its day
    (counted from the instant the generator was entered) and lasts the
    hours of its template, so no two of them overlap; each expects
    between 20 and 119 attendees; the generator reads the clock once
    and draws nine random numbers. *)
Theorem generateFallbackEvents_schedule (W : World) (src : CalendarSource) (s : Sys) :
  random_in_range W ->
  exists e0 e1 e2 s',
    generateFallbackEvents W src s = (Ret [e0; e1; e2], s') /\
    fallback_slot (clock W (tick s)) 0 2 e0 /\
    fallback_slot (clock W (tick s)) 1 1 e1 /\
    fallback_slot (clock W (tick s)) 2 2 e2 /\
    precedes e0 e1 /\ precedes e1 e2 /\
    Forall expected_attendance [e0; e1; e2] /\
    List.map category [e0; e1; e2]
    = ["Community & Social"; "Family & Kids"; "Business & Networking"] /\
    tick s' = (tick s + 10)%nat.
Proof.
  intros Hr.
  assert (Hslot : forall i hours n,
             fallback_slot (clock W (tick s)) i hours
               {| title := VUndef; description := VUndef; category := "";
                  location := VUndef; organizer := "";
                  startDate :=
                    Time (Js.trunc (inject_Z (clock W (tick s))
                                    + inject_Z ((i + 1) * 24 * 60 * 60 * 1000)
                                    + random W n * inject_Z (12 * 60 * 60 * 1000)));
                  endDate :=
                    Time (Js.trunc (inject_Z (clock W (tick s))
                                    + inject_Z ((i + 1) * 24 * 60 * 60 * 1000)
                                    + random W n * inject_Z (12 * 60 * 60 * 1000))
                          + hours * 60 * 60 * 1000);
                  startTime := ""; endTime := ""; attendees := VUndef;
                  imageUrl := VUndef; isFree := ""; source := "" |}).
  { intros i hours n. eexists. split; [reflexivity |]. split; [reflexivity |].
    apply fallback_window; apply Hr. }
  unfold generateFallbackEvents, Date_now, Math_random, var, bind, outer, interact,
    update, read, ret, push. cbn [for_each bind fst snd].
  unfold bind, outer, interact, update, ret. cbn [fst snd tick sources app].
  do 4 eexists. split; [reflexivity |].
  pose proof (Hslot 0 2 (S (tick s))) as H0.
  pose proof (Hslot 1 1 (S (S (S (S (tick s)))))) as H1.
  pose proof (Hslot 2 2 (S (S (S (S (S (S (S (tick s))))))))) as H2.
  destruct H0 as (t0 & Hs0 & He0 & Hw0).
  destruct H1 as (t1 & Hs1 & He1 & Hw1).
  destruct H2 as (t2 & Hs2 & He2 & Hw2).
  cbn [startDate endDate] in *.
  repeat split.
  - exists t0. cbn [startDate endDate]. repeat split; try assumption; lia.
  - exists t1. cbn [startDate endDate]. repeat split; try assumption; lia.
  - exists t2. cbn [startDate endDate]. repeat split; try assumption; lia.
  - exists (t0 + 2 * 60 * 60 * 1000), t1. cbn [startDate endDate].
    repeat split; try assumption; lia.
  - exists (t1 + 1 * 60 * 60 * 1000), t2. cbn [startDate endDate].
    repeat split; try assumption; lia.
  - repeat (constructor; [eexists; split; [reflexivity |];
                          apply fallback_attendance; apply Hr |]).
    constructor.
  - cbn [tick]. lia.
Qed.

(** The fallback events for Boise when [Math.random()] answers 0. *)
Lemma generateFallbackEvents_schedule_boise :
  random_in_range silent_world /\
  exists e0 e1 e2 s',
    generateFallbackEvents silent_world boise boot = (Ret [e0; e1; e2], s') /\
    fallback_slot (clock silent_world 0) 0 2 e0 /\
    fallback_slot (clock silent_world 0) 1 1 e1 /\
    fallback_slot (clock silent_world 0) 2 2 e2 /\
    precedes e0 e1 /\ precedes e1 e2 /\
    Forall expected_attendance [e0; e1; e2] /\
    List.map category [e0; e1; e2]
    = ["Community & Social"; "Family & Kids"; "Business & Networking"] /\
    tick s' = 10%nat.
Proof.
  assert (H : random_in_range silent_world).
  { intros n. split; [unfold Qle; simpl; lia | reflexivity]. }
  split; [exact H |].
  exact (generateFallbackEvents_schedule silent_world boise boot H).
Defined.

(** * Sources with nothing to fetch, and webcal sources *)

Lemma replace_absent s pat repl :
  Str.split_first pat s = None -> Str.replace s pat repl = s.
Proof. unfold Str.replace. now intros ->. Qed.

Lemma drop_app (p s : string) : Str.drop (String.length p) (p ++ s) = s.
Proof. induction p as [| c p IH]; simpl; [now destruct s | exact IH]. Qed.

Lemma split_first_prefix pat s :
  Str.split_first pat (pat ++ s) = Some ("", s).
Proof.
  destruct (pat ++ s) as [| c r] eqn:E; cbn [Str.split_first];
    rewrite <- E, prefix_app, drop_app; reflexivity.
Qed.

Lemma split_first_absent pat s :
  Str.includes s pat = false -> Str.split_first pat s = None.
Proof.
  induction s as [| c s IH]; cbn [Str.includes Str.split_first]; intros H;
    apply orb_false_iff in H; destruct H as [Hp Hr]; rewrite Hp; [reflexivity |].
  now rewrite IH.
Qed.

Lemma with_feedUrl_same src : with_feedUrl (feedUrl src) src = src.
Proof. now destruct src. Qed.

(** X9: a source whose address is missing (no feed URL, or an empty one;
    for a source to be scraped, no web page) gives no events, not even
    fallback events, and nothing is asked of the network or the clock. *)
Theorem collectFromSource_nothing_to_fetch (W : World) (src : CalendarSource) (s : Sys) :
  missing (fetched_url src) = true ->
  collectFromSource W src s = (Ret [], s).
Proof.
  unfold fetched_url, collectFromSource, try_catch.
  destruct (feedType src) eqn:E; intros H.
  - unfold parseICalFeed. now rewrite H.
  - unfold parseRSSFeed. now rewrite H.
  - unfold parseWebCalFeed, parseICalFeed. cbn [feedUrl with_feedUrl].
    destruct (feedUrl src) as [[| c u] |]; try discriminate; reflexivity.
  - unfold parseJSONFeed. now rewrite H.
  - unfold scrapeHTMLEvents. now rewrite H.
Qed.

(** Boise without its feed address. *)
Lemma collectFromSource_nothing_to_fetch_boise :
  missing (fetched_url (with_feedUrl None boise)) = true /\
  collectFromSource silent_world (with_feedUrl None boise) boot = (Ret [], boot).
Proof.
  split; [reflexivity |].
  exact (collectFromSource_nothing_to_fetch silent_world (with_feedUrl None boise)
           boot eq_refl).
Defined.

(** X10: a webcal source is read as a calendar feed at the same address
    with [https://] in place of the leading [webcal://]; a webcal source
    whose address does not contain [webcal://] is read at its address. *)
Theorem parseWebCalFeed_over_https (W : World) (src : CalendarSource) (url : string) :
  feedUrl src = Some url ->
  (forall rest,
      url = "webcal://" ++ rest ->
      parseWebCalFeed W src
      = parseICalFeed W (with_feedUrl (Some ("https://" ++ rest)) src)) /\
  (Str.includes url "webcal://" = false ->
   parseWebCalFeed W src = parseICalFeed W src).
Proof.
  intros Hurl. unfold parseWebCalFeed. rewrite Hurl. split.
  - intros rest ->. unfold Str.replace. rewrite split_first_prefix. reflexivity.
  - intros H. rewrite replace_absent by now apply split_first_absent.
    rewrite <- Hurl.
    now rewrite with_feedUrl_same.
Qed.

(** Boise's calendar, subscribed to over webcal, and the seeded source
    of San Francisco marked as webcal. *)
Lemma parseWebCalFeed_over_https_boise :
  parseWebCalFeed silent_world boise_webcal
  = parseICalFeed silent_world
      (with_feedUrl (Some "https://www.cityofboise.org/calendar.ics") boise_webcal) /\
  parseWebCalFeed silent_world sf_city = parseICalFeed silent_world sf_city.
Proof.
  split.
  - exact (proj1 (parseWebCalFeed_over_https silent_world boise_webcal
                    "webcal://www.cityofboise.org/calendar.ics" eq_refl)
             "www.cityofboise.org/calendar.ics" eq_refl).
  - exact (proj2 (parseWebCalFeed_over_https silent_world sf_city
                    "https://sfgov.org/calendar/feed" eq_refl) eq_refl).
Defined.


(** * Slugs and state abbreviations *)

Lemma filter_every p s : every p (Str.filter p s) = true.
Proof.
  induction s as [| c s IH]; simpl; [reflexivity |].
  destruct (p c) eqn:E; simpl; [now rewrite E |]. exact IH.
Qed.

Lemma filter_all p s : every p s = true -> Str.filter p s = s.
Proof.
  induction s as [| c s IH]; simpl; [reflexivity |].
  intros H. apply andb_prop in H. destruct H as [Hc Hs].
  now rewrite Hc, IH.
Qed.

Lemma map_fixed f p s :
  (forall c, p c = true -> f c = c) -> every p s = true -> Str.map f s = s.
Proof.
  intros Hf. induction s as [| c s IH]; simpl; [reflexivity |].
  intros H. apply andb_prop in H. destruct H as [Hc Hs].
  now rewrite Hf, IH.
Qed.

Lemma replace_spaces_none sep p s :
  (forall c, p c = true -> Str.is_space c = false) -> every p s = true ->
  Str.replace_spaces sep s = s.
Proof.
  intros Hp. unfold Str.replace_spaces.
  induction s as [| c s IH]; simpl; [reflexivity |].
  intros H. apply andb_prop in H. destruct H as [Hc Hs].
  now rewrite Hp, IH.
Qed.

Lemma slug_char_lower c : slug_char c = true -> Str.lower_char c = c.
Proof.
  unfold slug_char, Str.lower_char, Str.is_lower, Str.is_digit, Str.is_upper,
    Str.between.
  intros H. destruct (Nat.leb 65 (Str.code c) && Nat.leb (Str.code c) 90)%bool eqn:E;
    [| reflexivity].
  exfalso. apply andb_prop in E. destruct E as [E1 E2].
  apply Nat.leb_le in E1, E2.
  apply orb_prop in H. destruct H as [H | H]; apply andb_prop in H;
    destruct H as [H1 H2]; apply Nat.leb_le in H1, H2; lia.
Qed.

Lemma slug_char_space c : slug_char c = true -> Str.is_space c = false.
Proof.
  unfold slug_char, Str.is_space, Str.is_lower, Str.is_digit, Str.between.
  intros H. apply orb_false_iff. split.
  - apply andb_false_iff.
    destruct (Nat.leb (Str.code c) 13) eqn:E; [| now right]. left.
    apply Nat.leb_le in E. apply Nat.leb_gt.
    apply orb_prop in H. destruct H as [H | H]; apply andb_prop in H;
      destruct H as [H1 H2]; apply Nat.leb_le in H1, H2; lia.
  - apply Nat.eqb_neq.
    apply orb_prop in H. destruct H as [H | H]; apply andb_prop in H;
      destruct H as [H1 H2]; apply Nat.leb_le in H1, H2; lia.
Qed.

(** X11: a city slug is made of lower-case letters and digits only, and
    the slug of a slug is that slug. *)
Theorem createCitySlug_is_a_slug (city : string) :
  every slug_char (createCitySlug city) = true /\
  createCitySlug (createCitySlug city) = createCitySlug city.
Proof.
  assert (H : every slug_char (createCitySlug city) = true)
    by apply filter_every.
  split; [exact H |].
  unfold createCitySlug at 1. unfold Str.toLowerCase.
  rewrite (map_fixed _ _ _ slug_char_lower H).
  rewrite (replace_spaces_none _ _ _ slug_char_space H).
  now apply filter_all.
Qed.

Lemma length_map f s : String.length (Str.map f s) = String.length s.
Proof. induction s as [| c s IH]; simpl; congruence. Qed.

Lemma length_append (a b : string) :
  String.length (a ++ b) = (String.length a + String.length b)%nat.
Proof. induction a as [| c a IH]; simpl; congruence. Qed.

Lemma length_rev s : String.length (Str.rev s) = String.length s.
Proof.
  induction s as [| c s IH]; simpl; [reflexivity |].
  rewrite length_append, IH. simpl. lia.
Qed.

Lemma length_trimStart s : (String.length (Str.trimStart s) <= String.length s)%nat.
Proof.
  induction s as [| c s IH]; simpl; [lia |].
  destruct (Str.is_space c); simpl; lia.
Qed.

Lemma length_trim s : (String.length (Str.trim s) <= String.length s)%nat.
Proof.
  unfold Str.trim. rewrite length_rev.
  etransitivity; [apply length_trimStart |]. rewrite length_rev.
  apply length_trimStart.
Qed.

Lemma take_all n s : (String.length s <= n)%nat -> Str.take n s = s.
Proof.
  unfold Str.take. revert n. induction s as [| c s IH]; intros [| n] H; simpl in *;
    try reflexivity; try lia.
  rewrite IH by lia. reflexivity.
Qed.

Lemma take_map f n s : Str.take n (Str.map f s) = Str.map f (Str.take n s).
Proof.
  unfold Str.take. revert n. induction s as [| c s IH]; intros [| n]; simpl;
    try reflexivity.
  now rewrite IH.
Qed.

Lemma upper_char_twice c : Str.upper_char (Str.upper_char c) = Str.upper_char c.
Proof. destruct c as [[] [] [] [] [] [] [] []]; reflexivity. Qed.

Lemma toUpperCase_twice s :
  Str.toUpperCase (Str.toUpperCase s) = Str.toUpperCase s.
Proof.
  unfold Str.toUpperCase. induction s as [| c s IH]; simpl; [reflexivity |].
  now rewrite upper_char_twice, IH.
Qed.

Lemma assoc_row (check : string * string -> bool) k table v :
  forallb check table = true -> assoc k table = Some v -> check (k, v) = true.
Proof.
  induction table as [| [k' v'] r IH]; simpl; [discriminate |].
  intros H. apply andb_prop in H. destruct H as [Hrow Hr].
  destruct (String.eqb k k') eqn:E; [| now apply IH].
  apply String.eqb_eq in E. subst k'. now intros [= <-].
Qed.

Lemma stateMap_rows k v :
  assoc k stateMap = Some v ->
  (4 <= String.length k)%nat /\ String.length v = 2%nat /\ Str.toUpperCase v = v.
Proof.
  intros H. apply (assoc_row state_row) in H; [| reflexivity].
  unfold state_row in H. cbn [fst snd] in H.
  apply andb_prop in H. destruct H as [H H3].
  apply andb_prop in H. destruct H as [H1 H2].
  apply Nat.leb_le in H1. apply Nat.eqb_eq in H2. apply String.eqb_eq in H3. auto.
Qed.

Lemma getStateAbbreviation_short stateName :
  (String.length stateName <= 2)%nat ->
  getStateAbbreviation stateName = Str.toUpperCase stateName.
Proof.
  intros H. unfold getStateAbbreviation.
  destruct (assoc _ stateMap) as [abbr |] eqn:E.
  - apply stateMap_rows in E. destruct E as [E _].
    pose proof (length_trim (Str.toLowerCase stateName)) as Ht.
    unfold Str.toLowerCase in Ht at 2. rewrite length_map in Ht. lia.
  - apply take_all. unfold Str.toUpperCase. now rewrite length_map.
Qed.

(** X12: for a name that is not one every object answers to,
    [getStateAbbreviation] gives at most two characters, and gives them
    back when it is applied to them; a string of at most two characters
    is given back in upper case. *)
Theorem getStateAbbreviation_two_letters (stateName : string) :
  inherited_name (Str.trim (Str.toLowerCase stateName)) = false ->
  (String.length (getStateAbbreviation stateName) <= 2)%nat /\
  getStateAbbreviation (getStateAbbreviation stateName)
  = getStateAbbreviation stateName /\
  ((String.length stateName <= 2)%nat ->
   getStateAbbreviation stateName = Str.toUpperCase stateName).
Proof.
  intros _.
  assert (H : (String.length (getStateAbbreviation stateName) <= 2)%nat /\
              Str.toUpperCase (getStateAbbreviation stateName)
              = getStateAbbreviation stateName).
  { unfold getStateAbbreviation.
    destruct (assoc _ stateMap) as [abbr |] eqn:E.
    - apply stateMap_rows in E. destruct E as (_ & E2 & E3). split; [lia | exact E3].
    - split; [apply length_take |].
      unfold Str.toUpperCase at 1. rewrite <- take_map.
      fold (Str.toUpperCase (Str.toUpperCase stateName)).
      now rewrite toUpperCase_twice. }
  destruct H as [Hlen Hup]. split; [exact Hlen |]. split.
  - rewrite getStateAbbreviation_short by exact Hlen. exact Hup.
  - apply getStateAbbreviation_short.
Qed.

Lemma getStateAbbreviation_samples :
  getStateAbbreviation (getStateAbbreviation " New York ")
  = getStateAbbreviation " New York " /\
  getStateAbbreviation "tx" = "TX".
Proof.
  split.
  - exact (proj1 (proj2 (getStateAbbreviation_two_letters " New York " eq_refl))).
  - exact (proj2 (proj2 (getStateAbbreviation_two_letters "tx" eq_refl))
             (Nat.le_refl 2)).
Defined.


(** * Which addresses are accepted as feeds *)

(** X13: [validateFeedUrl] does not raise, and it proposes a feed exactly
    when the HEAD request for the address is answered with a status from
    200 to 299 and the address is an absolute URL; the feed proposed is
    for that address, in the wire format that the content type and the
    address give, and was checked at the second reading of the clock
    after the request. *)
Theorem validateFeedUrl_accepts_exactly (W : World) (url : string)
    (location : OrgLocation) (s : Sys) :
  exists o s',
    validateFeedUrl W url location s = (Ret o, s') /\
    ((exists f, o = Some f) <-> (exists resp, answers W s url resp)) /\
    (forall f resp,
        o = Some f -> answers W s url resp ->
        feedUrl (feed_source f) = Some url /\
        feedType (feed_source f) = fst (classify (header resp) url) /\
        lastChecked f = Time (clock W (S (S (tick s)))) /\
        s' = mkSys (S (S (S (tick s)))) (sources s)).
Proof.
  unfold answers, validateFeedUrl, axios, new_Date, Date_now, try_catch, bind,
    interact, lift, ret, throw. cbn [fst snd tick sources].
  destruct (request W (tick s) HEAD url) as [| resp] eqn:E.
  { do 2 eexists. split; [reflexivity |]. split.
    - split; [intros [f Hf]; discriminate | intros (resp & H & _); discriminate].
    - intros f resp H; discriminate. }
  unfold default_validateStatus.
  destruct (200 <=? status resp) eqn:E1; cbn [andb].
  2: { do 2 eexists. split; [reflexivity |]. apply Z.leb_gt in E1. split.
       - split; [intros [f Hf]; discriminate |].
         intros (resp' & [= <-] & H & _). lia.
       - intros f resp' H; discriminate. }
  destruct (status resp <? 300) eqn:E2.
  2: { do 2 eexists. split; [reflexivity |]. apply Z.ltb_ge in E2. split.
       - split; [intros [f Hf]; discriminate |].
         intros (resp' & [= <-] & H & _). lia.
       - intros f resp' H; discriminate. }
  apply Z.leb_le in E1. apply Z.ltb_lt in E2. fold (header resp).
  destruct (classify (header resp) url) as [ft c] eqn:Ec.
  cbn [tick sources].
  destruct (URL_parse W url None) as [u | e] eqn:Eu.
  2: { do 2 eexists. split; [reflexivity |]. split.
       - split; [intros [f Hf]; discriminate |].
         intros (resp' & _ & _ & u & Hu). discriminate.
       - intros f resp' H; discriminate. }
  cbn [tick sources]. do 2 eexists. split; [reflexivity |]. split.
  - split; [| intros _; eexists; reflexivity].
    intros _. exists resp. split; [reflexivity |]. split; [lia |]. now exists u.
  - intros f resp' [= <-] ([= <-] & _). cbn [feed_source feedUrl feedType lastChecked].
    rewrite Ec. auto.
Qed.

(** Of the known government addresses of Springfield only the calendar
    host answers. *)
Lemma validateFeedUrl_accepts_calendar_springfield :
  answers springfield_world boot "https://calendar.springfield.gov"
    (mkResponse 200 (Some "text/html") VUndef) /\
  exists f,
    validateFeedUrl springfield_world "https://calendar.springfield.gov"
      (mkOrgLocation springfield city) boot
    = (Ret (Some f), mkSys 3 []) /\
    feedUrl (feed_source f) = Some "https://calendar.springfield.gov" /\
    feedType (feed_source f) = html.
Proof.
  pose (url := "https://calendar.springfield.gov").
  pose (resp := mkResponse 200 (Some "text/html") VUndef).
  assert (Ha : answers springfield_world boot url resp).
  { split; [reflexivity |]. split; [simpl; lia |]. eexists. reflexivity. }
  split; [exact Ha |].
  destruct (validateFeedUrl_accepts_exactly springfield_world url
              (mkOrgLocation springfield city) boot) as (o & s' & E & Hiff & Hwhen).
  destruct (proj2 Hiff (ex_intro _ resp Ha)) as [f Hf].
  destruct (Hwhen f resp Hf Ha) as (H1 & H2 & _ & H4).
  exists f. subst o s'. auto.
Defined.


(** * What discovery hands over, and what it costs *)

Section DiscoveryCost.

Variable W : World.

Lemma validateFeedUrl_candidate url location s :
  Str.startsWith url "http" = true ->
  In (organizationType location) [city; school; chamber] ->
  wp (validateFeedUrl W url location)
    (returned (fun o s' =>
       (tick s' <= tick s + 3)%nat /\ sources s' = sources s /\
       forall f, o = Some f -> candidate (place location) f)) s.
Proof.
  intros Hurl Horg. unfold validateFeedUrl, axios, new_Date, Date_now.
  wp_steps.
  destruct (request W (tick s) HEAD url) as [| resp] eqn:E.
  - wp_steps. simpl. split; [lia | split; [reflexivity | discriminate]].
  - destruct (default_validateStatus (status resp)).
    2: { wp_steps. simpl. split; [lia | split; [reflexivity | discriminate]]. }
    wp_steps.
    match goal with |- context [classify ?a ?b] => destruct (classify a b) as [ft c] end.
    wp_steps.
    destruct (URL_parse W url None) as [u | e].
    2: { wp_steps. simpl. split; [lia | split; [reflexivity | discriminate]]. }
    wp_steps. simpl. split; [lia | split; [reflexivity |]]. intros f [= <-].
    unfold candidate. cbn [feed_source isActive lastSync src_city src_state type name
                             id feedUrl].
    split; [reflexivity |]. split; [reflexivity |]. split; [reflexivity |].
    split; [reflexivity |]. split; [exact Horg |].
    split; [now destruct location |].
    split; [apply (prefix_app "discovered-") |].
    exists url. auto.
Qed.

Lemma searched_weaken location n n' ticks ticks' s feeds s' :
  searched location n ticks s feeds s' -> (n <= n')%nat -> (ticks <= ticks')%nat ->
  searched location n' ticks' s feeds s'.
Proof.
  intros (H1 & H2 & H3 & H4) Hn Ht. repeat split; auto; lia.
Qed.

Lemma checkDomainForFeeds_searched domain location s :
  In (organizationType location) [city; school; chamber] ->
  wp (checkDomainForFeeds W domain location)
    (returned (fun feeds s' => searched (place location) 10 31 s feeds s')) s.
Proof.
  intros Horg. unfold checkDomainForFeeds. do 3 wp_step.
  apply wp_mono
    with (Q := fun _ ls => searched (place location) 10 31 s (fst ls) (snd ls)).
  2: { intros [[] | e] ls H; wp_steps; exact H. }
  assert (Hnone : searched (place location) 10 31 s []
                    {| tick := S (tick s); sources := sources s |}).
  { repeat split; simpl; auto; lia. }
  wp_steps. apply wp_axios; [| intros; exact Hnone].
  intros resp _ _.
  destruct (status resp =? 404); [wp_step; exact Hnone |].
  wp_steps. destruct (cheerio_load W (data resp)) as [doc | e]; [| exact Hnone].
  wp_steps. destruct (linked_paths W _ _ _) as [paths | e]; [| exact Hnone].
  pose proof (wp_for_each_done (St := list DiscoveredFeed * Sys) (A := string)
                (searching (place location) s 1 3 1)) as Hloop.
  eapply wp_mono.
  - eapply (Hloop _ _ []).
    + intros pre path [feeds s1] _ (Hlen & Hall & Htick & Hsrc). cbn [fst snd] in *.
      wp_steps. eapply wp_mono.
      * apply validateFeedUrl_candidate; [| exact Horg].
        destruct (Str.startsWith path "http") eqn:E; [exact E | reflexivity].
      * intros [[f |] | e] s2 H; simpl in H; [| | contradiction];
          destruct H as (Ht2 & Hs2 & Hf); wp_step; cbn [returned];
          unfold searching, searched; cbn [fst snd]; rewrite length_app;
          cbn [List.length].
        -- unfold push. rewrite length_app. cbn [List.length].
           split; [lia |]. split; [| split; [lia | congruence]].
           apply Forall_app. split; [exact Hall |]. constructor; auto.
        -- split; [lia |]. split; [exact Hall |]. split; [lia | congruence].
    + repeat split; simpl; auto; lia.
  - intros [[] | e] [feeds s1] H; cbn [returned] in H; [| contradiction].
    cbn [app fst snd] in *. eapply searched_weaken; [exact H | |];
      pose proof (firstn_le_length 10 (fold_left set_add commonFeedPaths paths)); lia.
Qed.

Lemma discoverFromPatterns_searched patterns org location citySlug stateSlug s :
  In org [city; school; chamber] ->
  wp (discoverFromPatterns W patterns org location citySlug stateSlug)
    (returned (fun feeds s' =>
       searched location (10 * List.length patterns) (31 * List.length patterns)
         s feeds s')) s.
Proof.
  intros Horg. unfold discoverFromPatterns. do 2 wp_step.
  pose proof (wp_for_each_done (St := list DiscoveredFeed * Sys) (A := string)
                (searching location s 0 31 10)) as Hloop.
  eapply wp_mono.
  - eapply (Hloop _ _ []).
    + intros pre pattern [feeds s1] _ (Hlen & Hall & Htick & Hsrc). cbn [fst snd] in *.
      wp_steps. eapply wp_mono.
      * apply checkDomainForFeeds_searched. exact Horg.
      * intros [found | e] s2 H; simpl in H; [| contradiction].
        destruct H as (Hl2 & Ha2 & Ht2 & Hs2). wp_step. cbn [returned].
        unfold searching, searched, push. cbn [fst snd].
        rewrite !length_app. cbn [List.length].
        split; [lia |]. split; [| split; [lia | congruence]].
        apply Forall_app. split; [exact Hall | exact Ha2].
    + repeat split; simpl; auto; lia.
  - intros [[] | e] [feeds s1] H; cbn [returned] in H; [| contradiction].
    wp_steps. exact H.
Qed.

Lemma sort_insert_length {A} (cmp : A -> A -> float) x l :
  List.length (sort_insert cmp x l) = S (List.length l).
Proof.
  induction l as [| y r IH]; simpl; [reflexivity |].
  destruct (0 <? cmp x y)%float; simpl; congruence.
Qed.

Lemma sort_length {A} (cmp : A -> A -> float) l :
  List.length (sort cmp l) = List.length l.
Proof.
  unfold sort. induction l as [| x r IH]; simpl; [reflexivity |].
  now rewrite sort_insert_length, IH.
Qed.

Lemma filter_from_length {A} (self : list A) p index l :
  (List.length (filter_from self p index l) <= List.length l)%nat.
Proof.
  revert index. induction l as [| x r IH]; intros index; simpl; [lia |].
  specialize (IH (index + 1)). destruct (p x index self); simpl; lia.
Qed.

Lemma searched_then location n1 t1 n2 t2 s s1 s2 feeds1 feeds2 :
  searched location n1 t1 s feeds1 s1 -> searched location n2 t2 s1 feeds2 s2 ->
  searched location (n1 + n2) (t1 + t2) s (feeds1 ++ feeds2)%list s2.
Proof.
  intros (H1 & H2 & H3 & H4) (K1 & K2 & K3 & K4). unfold searched.
  rewrite length_app. split; [lia |]. split; [| split; [lia | congruence]].
  apply Forall_app. auto.
Qed.

Lemma discoverFeedsForLocation_searched location s :
  wp (discoverFeedsForLocation W location)
    (returned (fun feeds s' => searched location 190 589 s feeds s')) s.
Proof.
  unfold discoverFeedsForLocation, discoverGovernmentFeeds, discoverSchoolFeeds,
    discoverChamberFeeds.
  wp_step. eapply wp_mono;
    [apply discoverFromPatterns_searched; simpl; tauto |].
  intros [gov | e] s1 Hgov; simpl in Hgov; [| contradiction].
  wp_step. eapply wp_mono;
    [apply discoverFromPatterns_searched; simpl; tauto |].
  intros [sch | e] s2 Hsch; simpl in Hsch; [| contradiction].
  wp_step. eapply wp_mono;
    [apply discoverFromPatterns_searched; simpl; tauto |].
  intros [cham | e] s3 Hcham; simpl in Hcham; [| contradiction].
  wp_step. cbn [returned]. unfold push. cbn [app].
  pose proof (searched_then _ _ _ _ _ _ _ _ _ _
                (searched_then _ _ _ _ _ _ _ _ _ _ Hgov Hsch) Hcham) as H.
  destruct H as (H1 & H2 & H3 & H4). unfold searched.
  rewrite sort_length. split; [exact H1 |]. split; [| split; [exact H3 | exact H4]].
  now apply sort_Forall.
Qed.

Lemma boost_candidate location f : candidate location f -> candidate location (boost f).
Proof. exact (fun H => H). Qed.

Lemma checkKnownPatterns_searched location s :
  wp (checkKnownPatterns W location)
    (returned (fun feeds s' => searched location 5 15 s feeds s')) s.
Proof.
  unfold checkKnownPatterns. do 2 wp_step.
  pose proof (wp_for_each_done (St := list DiscoveredFeed * Sys) (A := string)
                (searching location s 0 3 1)) as Hloop.
  eapply wp_mono.
  - eapply (Hloop _ _ []).
    + intros pre pattern [feeds s1] Hin (Hlen & Hall & Htick & Hsrc).
      cbn [fst snd] in *.
      wp_steps. eapply wp_mono.
      * apply validateFeedUrl_candidate; [| simpl; tauto].
        simpl in Hin. repeat (destruct Hin as [<- | Hin]; [reflexivity |]).
        destruct Hin.
      * intros [[f |] | e] s2 H; simpl in H; [| | contradiction];
          destruct H as (Ht2 & Hs2 & Hf); wp_step; cbn [returned];
          unfold searching, searched; cbn [fst snd]; rewrite length_app;
          cbn [List.length].
        -- unfold push. rewrite length_app. cbn [List.length].
           split; [lia |]. split; [| split; [lia | congruence]].
           apply Forall_app. split; [exact Hall |].
           constructor; [| constructor]. apply boost_candidate. now apply Hf.
        -- split; [lia |]. split; [exact Hall |]. split; [lia | congruence].
    + repeat split; simpl; auto; lia.
  - intros [[] | e] [feeds s1] H; cbn [returned] in H; [| contradiction].
    wp_steps. exact H.
Qed.

Lemma discoverFeedsForPopularLocation_searched cityName stateName s :
  wp (discoverFeedsForPopularLocation W cityName stateName)
    (returned (fun feeds s' =>
       searched (popular_location cityName stateName) 195 604 s feeds s')) s.
Proof.
  unfold discoverFeedsForPopularLocation. fold (popular_location cityName stateName).
  wp_step. eapply wp_mono; [apply discoverFeedsForLocation_searched |].
  intros [found | e] s1 H1; simpl in H1; [| contradiction].
  wp_step. eapply wp_mono; [apply checkKnownPatterns_searched |].
  intros [more | e] s2 H2; simpl in H2; [| contradiction].
  wp_step. cbn [returned]. unfold push.
  destruct (searched_then _ _ _ _ _ _ _ _ _ _ H1 H2) as (K1 & K2 & K3 & K4).
  unfold searched. split; [| split; [| split; [exact K3 | exact K4]]].
  - unfold filter_indexed. etransitivity; [apply filter_from_length | exact K1].
  - now apply filter_indexed_Forall.
Qed.

End DiscoveryCost.

(** X14: every feed that discovery proposes is a candidate for the
    location searched: an inactive, never synchronised source for that
    city and state, of kind city, school or chamber and named after it,
    whose id begins with [discovered-] and whose feed address begins
    with [http].  (For a popular location the state is not to be a name
    that every object answers to.) *)
Theorem discovered_feeds_are_candidates (W : World) :
  (forall location,
      returns (discoverFeedsForLocation W location) (Forall (candidate location))) /\
  (forall cityName stateName,
      inherited_name (Str.trim (Str.toLowerCase stateName)) = false ->
      returns (discoverFeedsForPopularLocation W cityName stateName)
        (Forall (candidate (popular_location cityName stateName)))).
Proof.
  split.
  - intros location. apply returns_wp. intros s.
    eapply wp_mono; [apply discoverFeedsForLocation_searched |].
    intros [feeds | e] s' H; simpl in *; [apply H | exact H].
  - intros cityName stateName _. apply returns_wp. intros s.
    eapply wp_mono; [apply discoverFeedsForPopularLocation_searched |].
    intros [feeds | e] s' H; simpl in *; [apply H | exact H].
Qed.

(** Springfield, Illinois. *)
Lemma discovered_feeds_are_candidates_springfield :
  inherited_name (Str.trim (Str.toLowerCase "Illinois")) = false /\
  returns (discoverFeedsForPopularLocation springfield_world "Springfield" "Illinois")
    (Forall (candidate (popular_location "Springfield" "Illinois"))).
Proof.
  split; [reflexivity |].
  apply (proj2 (discovered_feeds_are_candidates springfield_world)). reflexivity.
Defined.

(** X15: a search is bounded: for a location, at most 190 feeds after at
    most 589 interactions with the outside (requests and readings of
    the clock); for a popular location, at most 195 feeds after at most
    604 interactions; one domain gives at most 10 feeds after at most 31
    interactions.  The registry of sources is not touched.  (The kind
    of organization is one of the three that discovery looks for, and
    the state of a popular location is not a name that every object
    answers to.) *)
Theorem discovery_is_bounded (W : World) (s : Sys) :
  (forall domain location,
      In (organizationType location) [city; school; chamber] ->
      exists feeds s',
        checkDomainForFeeds W domain location s = (Ret feeds, s') /\
        (List.length feeds <= 10)%nat /\ (tick s' <= tick s + 31)%nat /\
        sources s' = sources s) /\
  (forall location,
      exists feeds s',
        discoverFeedsForLocation W location s = (Ret feeds, s') /\
        (List.length feeds <= 190)%nat /\ (tick s' <= tick s + 589)%nat /\
        sources s' = sources s) /\
  (forall cityName stateName,
      inherited_name (Str.trim (Str.toLowerCase stateName)) = false ->
      exists feeds s',
        discoverFeedsForPopularLocation W cityName stateName s = (Ret feeds, s') /\
        (List.length feeds <= 195)%nat /\ (tick s' <= tick s + 604)%nat /\
        sources s' = sources s).
Proof.
  split; [| split].
  - intros domain location Horg.
    pose proof (checkDomainForFeeds_searched W domain location s Horg) as H.
    unfold wp in H. destruct (checkDomainForFeeds W domain location s)
      as [[feeds | e] s']; simpl in H; [| contradiction].
    exists feeds, s'. destruct H as (H1 & _ & H3 & H4). auto.
  - intros location.
    pose proof (discoverFeedsForLocation_searched W location s) as H.
    unfold wp in H. destruct (discoverFeedsForLocation W location s)
      as [[feeds | e] s']; simpl in H; [| contradiction].
    exists feeds, s'. destruct H as (H1 & _ & H3 & H4). auto.
  - intros cityName stateName _.
    pose proof (discoverFeedsForPopularLocation_searched W cityName stateName s) as H.
    unfold wp in H. destruct (discoverFeedsForPopularLocation W cityName stateName s)
      as [[feeds | e] s']; simpl in H; [| contradiction].
    exists feeds, s'. destruct H as (H1 & _ & H3 & H4). auto.
Qed.

Lemma discovery_is_bounded_samples :
  (In (organizationType (mkOrgLocation springfield school)) [city; school; chamber] /\
   exists feeds s',
     checkDomainForFeeds not_found_world "example.gov"
       (mkOrgLocation springfield school) boot = (Ret feeds, s') /\
     (List.length feeds <= 10)%nat /\ (tick s' <= 31)%nat /\ sources s' = []) /\
  (inherited_name (Str.trim (Str.toLowerCase "Illinois")) = false /\
   exists feeds s',
     discoverFeedsForPopularLocation springfield_world "Springfield" "Illinois" boot
     = (Ret feeds, s') /\
     (List.length feeds <= 195)%nat /\ (tick s' <= 604)%nat /\ sources s' = []).
Proof.
  assert (H : In (organizationType (mkOrgLocation springfield school))
                [city; school; chamber]) by (simpl; tauto).
  split; (split; [first [exact H | reflexivity] |]).
  - exact (proj1 (discovery_is_bounded not_found_world boot) "example.gov"
             (mkOrgLocation springfield school) H).
  - exact (proj2 (proj2 (discovery_is_bounded springfield_world boot))
             "Springfield" "Illinois" eq_refl).
Defined.


(** * De-duplication of the feeds of a popular location *)

Lemma findIndex_bounds {A} (p : A -> bool) l :
  -1 <= findIndex p l < Z.of_nat (List.length l).
Proof.
  induction l as [| x r IH]; simpl; [lia |].
  destruct (p x); [lia |]. destruct (findIndex p r =? -1) eqn:E; lia.
Qed.

(** [findIndex] answers the length of a prefix exactly when nothing in
    the prefix satisfies the test and the element after it does. *)
Lemma findIndex_app {A} (p : A -> bool) pre x r :
  p x = true ->
  (findIndex p (pre ++ x :: r)%list =? Z.of_nat (List.length pre))
  = negb (existsb p pre).
Proof.
  intros Hx. induction pre as [| y pre IH]; cbn [findIndex app existsb List.length].
  - now rewrite Hx.
  - rewrite Nat2Z.inj_succ.
    pose proof (findIndex_bounds p (pre ++ x :: r)%list) as Hb.
    destruct (p y) eqn:E; cbn [orb negb]; [apply Z.eqb_neq; lia |].
    rewrite <- IH.
    destruct (Z.eqb_spec (findIndex p (pre ++ x :: r)%list) (-1)) as [E1 | E1];
      destruct (Z.eqb_spec (findIndex p (pre ++ x :: r)%list)
                  (Z.of_nat (List.length pre))) as [E2 | E2];
      try (apply Z.eqb_eq; lia); try (apply Z.eqb_neq; lia).
Qed.

Section FirstOccurrences.

Context {A K : Type}.
Variable key : A -> K.
Variable same : K -> K -> bool.
Hypothesis same_eq : forall a b, same a b = true <-> a = b.

Lemma is_first_app pre x r :
  is_first key same x (Z.of_nat (List.length pre)) (pre ++ x :: r)%list
  = negb (existsb (fun y => same (key y) (key x)) pre).
Proof.
  unfold is_first. rewrite Z.eqb_sym. apply findIndex_app. now apply same_eq.
Qed.

Lemma existsb_key pre x :
  existsb (fun y => same (key y) (key x)) pre = true <-> In (key x) (List.map key pre).
Proof.
  rewrite existsb_exists, in_map_iff. split; intros (y & H1 & H2); exists y.
  - split; [now apply same_eq | exact H1].
  - split; [exact H2 | now apply same_eq].
Qed.

Lemma first_occurrences pre l :
  let kept := filter_from (pre ++ l)%list (is_first key same) (Z.of_nat (List.length pre)) l in
  NoDup (List.map key kept) /\
  (forall g, In g kept -> ~ In (key g) (List.map key pre)) /\
  (forall f, In f l -> In (key f) (List.map key pre) \/ In (key f) (List.map key kept)).
Proof.
  revert pre. induction l as [| x r IH]; intros pre; cbn zeta.
  - simpl. repeat split; [constructor | tauto | tauto].
  - cbn [filter_from]. rewrite is_first_app.
    specialize (IH (pre ++ [x])%list). cbn zeta in IH.
    rewrite <- app_assoc, length_app in IH. cbn [app List.length] in IH.
    replace (Z.of_nat (List.length pre + 1)) with (Z.of_nat (List.length pre) + 1)
      in IH by lia.
    destruct IH as (Hnd & Hout & Hcov).
    assert (Hout' : forall g,
               In g (filter_from (pre ++ x :: r)%list (is_first key same)
                       (Z.of_nat (List.length pre) + 1) r) ->
               ~ In (key g) (List.map key pre) /\ key g <> key x).
    { intros g Hg. specialize (Hout g Hg).
      rewrite map_app, in_app_iff in Hout. simpl in Hout. split; intros H; apply Hout;
        [now left | right; left; congruence]. }
    destruct (existsb (fun y => same (key y) (key x)) pre) eqn:E; cbn [negb].
    + apply existsb_key in E. split; [exact Hnd |]. split.
      * intros g Hg. now apply Hout'.
      * intros f [<- | Hf]; [now left |].
        destruct (Hcov f Hf) as [H | H]; [| now right].
        rewrite map_app, in_app_iff in H. simpl in H.
        destruct H as [H | [H | []]]; [now left |]. left. now rewrite <- H.
    + assert (Hx : ~ In (key x) (List.map key pre)).
      { intros H. apply existsb_key in H. congruence. }
      split; [| split].
      * simpl. constructor; [| exact Hnd].
        rewrite in_map_iff. intros (g & Hk & Hg). now apply (Hout' g Hg).
      * intros g [<- | Hg]; [exact Hx | now apply Hout'].
      * intros f [<- | Hf]; [right; now left |].
        destruct (Hcov f Hf) as [H | H]; [| right; now right].
        rewrite map_app, in_app_iff in H. simpl in H.
        destruct H as [H | [H | []]]; [now left |]. right. left. exact H.
Qed.

End FirstOccurrences.

Lemma first_by_feedUrl_distinct feeds :
  NoDup (List.map address (first_by_feedUrl feeds)) /\
  (forall f, In f feeds ->
             exists g, In g (first_by_feedUrl feeds) /\ address g = address f).
Proof.
  destruct (first_occurrences address same_string same_string_eq [] feeds)
    as (H1 & _ & H3).
  split; [exact H1 |].
  intros f Hf. destruct (H3 f Hf) as [[] | H].
  apply in_map_iff in H. destruct H as (g & Hg & Hin). now exists g.
Qed.

(** X16: the feeds returned for a popular location are those of the
    search and of the known patterns, each feed address once: no two of
    the returned feeds have the same address, every returned feed is one
    of those found, and the address of every feed found is the address
    of a returned feed.  (The state is not to be a name that every
    object answers to.) *)
Theorem popular_location_feeds_are_distinct (W : World) (cityName stateName : string)
    (s : Sys) :
  inherited_name (Str.trim (Str.toLowerCase stateName)) = false ->
  exists discovered additional s1 s2 feeds,
    discoverFeedsForLocation W (popular_location cityName stateName) s
    = (Ret discovered, s1) /\
    checkKnownPatterns W (popular_location cityName stateName) s1
    = (Ret additional, s2) /\
    discoverFeedsForPopularLocation W cityName stateName s = (Ret feeds, s2) /\
    NoDup (List.map address feeds) /\
    incl feeds (discovered ++ additional) /\
    (forall f, In f (discovered ++ additional)%list ->
               exists g, In g feeds /\ address g = address f).
Proof.
  intros _.
  destruct (discoverFeedsForPopularLocation_run W cityName stateName s)
    as (discovered & additional & s1 & s2 & E1 & E2 & E3 & _).
  exists discovered, additional, s1, s2, (first_by_feedUrl (discovered ++ additional)).
  repeat split; try assumption.
  - apply first_by_feedUrl_distinct.
  - intros f Hf. unfold first_by_feedUrl, filter_indexed in Hf.
    now apply filter_from_incl in Hf.
  - apply first_by_feedUrl_distinct.
Qed.



(** Springfield, Illinois: the chamber's calendar and the calendar host
    of the city. *)
Lemma popular_location_feeds_are_distinct_springfield :
  inherited_name (Str.trim (Str.toLowerCase "Illinois")) = false /\
  exists discovered additional s1 s2 feeds,
    discoverFeedsForLocation springfield_world
      (popular_location "Springfield" "Illinois") boot = (Ret discovered, s1) /\
    checkKnownPatterns springfield_world
      (popular_location "Springfield" "Illinois") s1 = (Ret additional, s2) /\
    discoverFeedsForPopularLocation springfield_world "Springfield" "Illinois" boot
    = (Ret feeds, s2) /\
    NoDup (List.map address feeds) /\
    incl feeds (discovered ++ additional) /\
    (forall f, In f (discovered ++ additional)%list ->
               exists g, In g feeds /\ address g = address f).
Proof.
  split; [reflexivity |].
  exact (popular_location_feeds_are_distinct springfield_world "Springfield" "Illinois"
           boot eq_refl).
Defined.
(** * Events read from RSS feeds and from web pages *)

Lemma length_clean s : (String.length (clean s) <= 300)%nat.
Proof. apply length_take. Qed.

Lemma cleanText_short v t : cleanText v = Ret t -> short_text (VStr t).
Proof.
  destruct v; simpl; try discriminate. intros [= <-]. eexists. split; [reflexivity |].
  apply length_clean.
Qed.

Section PlainEvents.

Variable W : World.

Lemma rss_event_plain src item s :
  wp (rss_event W src item) (fun r _ => forall e, r = Ret e -> plain_event src e) s.
Proof.
  unfold rss_event, new_Date, Date_now.
  wp_steps. destruct (Js.get item "title"); [| wp_steps; discriminate].
  wp_steps.
  destruct (Js.truthy _); wp_steps;
    repeat match goal with
           | |- match ?o with Ret _ => _ | Throw _ => _ end =>
               let E := fresh "E" in destruct o eqn:E; wp_steps; try discriminate
           end;
    intros e [= <-]; unfold plain_event; cbn;
    (split; [reflexivity |]);
    (split; [eapply cleanText_short; eassumption |]);
    (split; [eapply cleanText_short; eassumption |]); repeat split;
    match goal with |- context [if ?b then _ else _] => destruct b end; auto.
Qed.

Lemma parseRSSFeed_run src s :
  missing (feedUrl src) = false ->
  wp (parseRSSFeed W src)
    (fun r _ =>
       forall events, r = Ret events ->
         exists resp document items,
           request W (tick s) GET (text_of (feedUrl src)) = Reply resp /\
           xml2js_parseString W (data resp) = Ret document /\
           rss_items document = Ret items /\
           Forall2 (fun _ e => plain_event src e) items events) s.
Proof.
  intros Hm. unfold parseRSSFeed. rewrite Hm. wp_steps.
  apply wp_axios; [| intros e; wp_steps; discriminate].
  intros resp Hreq _. wp_steps.
  destruct (xml2js_parseString W (data resp)) as [document | e] eqn:Ex;
    [| wp_steps; discriminate].
  wp_steps.
  destruct (Js.get document "rss") as [rss_ | e] eqn:Er; [| wp_steps; discriminate].
  wp_steps.
  destruct (Js.get document "feed") as [feed_ | e] eqn:Ef; [| wp_steps; discriminate].
  wp_steps. destruct (Js.slice_items 10 _) as [items | e] eqn:E;
    [| wp_steps; discriminate].
  eapply wp_mono.
  - apply (map_M_Forall2 (rss_event W src) (fun _ e => plain_event src e)).
    intros item s1. apply rss_event_plain.
  - intros r s1 H events Hr. specialize (H events Hr).
    exists resp, document, items. unfold rss_items. rewrite Er, Ef.
    repeat split; assumption.
Qed.

Lemma html_event_scraped src element k ls :
  scraped src k ls ->
  wp (html_event W src element) (returned (fun _ => scraped src (S k))) ls.
Proof.
  destruct ls as [acc s]. unfold scraped. cbn [fst].
  intros [Hlen Hall]. unfold html_event, new_Date, Date_now.
  match goal with |- wp (if ?b then _ else _) _ _ => destruct b end.
  2: { wp_step. simpl. split; [lia | exact Hall]. }
  wp_step. destruct (parseEventDate W _); wp_steps; simpl;
    (split; [unfold push; rewrite length_app; simpl; lia |]);
    (apply push_Forall; [exact Hall |]); (constructor; [| constructor]);
    unfold plain_event; cbn;
    (split; [reflexivity |]);
    (split; [eexists; split; [reflexivity | apply length_clean] |]);
    (split; [eexists; split; [reflexivity | apply length_clean] |]);
    repeat split;
    match goal with |- context [if ?b then _ else _] => destruct b end; auto.
Qed.

Lemma html_selectors_scraped src doc selectors s :
  wp (html_selectors W src doc selectors) (returned (fun _ => scraped src 5)) ([], s).
Proof.
  revert s. induction selectors as [| selector rest IH]; intros s;
    cbn [html_selectors].
  - wp_step. simpl. split; [simpl; lia | constructor].
  - cbv zeta. destruct (select doc selector) as [| el els]; [apply IH |].
    generalize (el :: els). intros found. wp_step.
    pose proof (wp_for_each_done
                  (fun done ls => scraped src (List.length done) ls)
                  (html_event W src) (firstn 5 found) []) as Hloop.
    eapply wp_mono.
    + apply Hloop.
      * intros pre x ls _ Hpre. eapply wp_mono; [apply html_event_scraped, Hpre |].
        intros [[] | e] ls' H; simpl in *; [| exact H].
        rewrite length_app. simpl. now rewrite Nat.add_1_r.
      * split; [simpl; lia | constructor].
    + intros [[] | e] [acc s1] H; cbn [returned] in H; [| contradiction].
      wp_steps. destruct acc as [| ev acc]; [apply IH |].
      wp_step. destruct H as [Hlen Hall]. split; [| exact Hall].
      cbn [fst app] in *. pose proof (firstn_le_length 5 found). lia.
Qed.

Lemma scrapeHTMLEvents_run src s :
  missing (websiteUrl src) = false ->
  wp (scrapeHTMLEvents W src)
    (fun r s' =>
       match request W (tick s) GET (text_of (websiteUrl src)) with
       | NoReply => exists e, r = Throw e
       | Reply resp =>
           if default_validateStatus (status resp)
           then match cheerio_load W (data resp) with
                | Ret doc =>
                    exists events,
                      r = Ret events /\ (List.length events <= 5)%nat /\
                      Forall (plain_event src) events
                | Throw _ => exists e, r = Throw e
                end
           else exists e, r = Throw e
       end) s.
Proof.
  intros Hm. unfold scrapeHTMLEvents, axios. rewrite Hm. wp_steps.
  destruct (request W (tick s) GET (text_of (websiteUrl src))) as [| resp].
  - wp_steps. eauto.
  - destruct (default_validateStatus (status resp)); [| wp_steps; eauto].
    wp_steps. destruct (cheerio_load W (data resp)) as [doc | e];
      [| wp_steps; eauto].
    wp_steps. eapply wp_mono; [apply html_selectors_scraped |].
    intros [[] | e] [acc s1] H; simpl in H; [| contradiction].
    wp_steps. exists acc. destruct H as [Hlen Hall]. auto.
Qed.

End PlainEvents.

(** X17: when the RSS parser returns, it has made one event for each of
    the first ten items of the channel (or entries of the feed), in
    order, each two hours long, with a title and a description of at
    most 300 characters, at the city and state of the source, with no
    attendees and no image. *)
Theorem parseRSSFeed_events (W : World) (src : CalendarSource) (s : Sys)
    (events : list InsertEvent) (s' : Sys) :
  missing (feedUrl src) = false ->
  parseRSSFeed W src s = (Ret events, s') ->
  exists resp document items,
    request W (tick s) GET (text_of (feedUrl src)) = Reply resp /\
    xml2js_parseString W (data resp) = Ret document /\
    rss_items document = Ret items /\
    List.length events = List.length items /\
    Forall (plain_event src) events.
Proof.
  intros Hm E. pose proof (parseRSSFeed_run W src s Hm) as H.
  unfold wp in H. rewrite E in H. cbn [fst snd] in H.
  destruct (H events eq_refl) as (resp & document & items & H1 & H2 & H3 & H4).
  exists resp, document, items. repeat split; try assumption.
  - symmetry. eapply Forall2_length, H4.
  - apply Forall2_right in H4. apply H4.
Qed.

(** A channel with two items, one of them without a title. *)
Lemma parseRSSFeed_two_items :
  exists e1 e2 s',
    parseRSSFeed (reading_world (VStr "<rss>") two_items []) la_city boot
    = (Ret [e1; e2], s') /\
    title e1 = VStr "Free Concert" /\ title e2 = VStr "Untitled Event" /\
    Forall (plain_event la_city) [e1; e2].
Proof.
  destruct (parseRSSFeed (reading_world (VStr "<rss>") two_items []) la_city boot)
    as [r s'] eqn:E.
  pose proof E as E'. vm_compute in E'. injection E' as <- <-.
  do 3 eexists. split; [reflexivity |]. split; [reflexivity |].
  split; [reflexivity |].
  destruct (parseRSSFeed_events (reading_world (VStr "<rss>") two_items []) la_city
              boot _ _ eq_refl E) as (_ & _ & _ & _ & _ & _ & _ & H).
  exact H.
Defined.

(** X18: a page that is fetched and parsed gives at most five events,
    those of the first selector that gives any, each two hours long,
    with a title and a description of at most 300 characters; the
    scraper raises only when the page cannot be fetched or parsed. *)
Theorem scrapeHTMLEvents_events (W : World) (src : CalendarSource) (s : Sys) :
  missing (websiteUrl src) = false ->
  (forall events s',
      scrapeHTMLEvents W src s = (Ret events, s') ->
      (List.length events <= 5)%nat /\ Forall (plain_event src) events) /\
  (forall resp doc,
      request W (tick s) GET (text_of (websiteUrl src)) = Reply resp ->
      default_validateStatus (status resp) = true ->
      cheerio_load W (data resp) = Ret doc ->
      exists events s', scrapeHTMLEvents W src s = (Ret events, s')).
Proof.
  intros Hm. pose proof (scrapeHTMLEvents_run W src s Hm) as H. unfold wp in H.
  destruct (scrapeHTMLEvents W src s) as [r s1]. cbn [fst snd] in H. split.
  - intros events s' [= -> ->].
    destruct (request W (tick s) GET (text_of (websiteUrl src))) as [| resp];
      [destruct H; discriminate |].
    destruct (default_validateStatus (status resp)); [| destruct H; discriminate].
    destruct (cheerio_load W (data resp)) as [doc | e]; [| destruct H; discriminate].
    destruct H as (ev & [= <-] & Hlen & Hall). auto.
  - intros resp doc Hreq Hst Hdoc. rewrite Hreq, Hst, Hdoc in H.
    destruct H as (events & -> & _). now exists events, s1.
Qed.

(** A page with seven announcements, the second with a title too short
    to be kept. *)
Lemma scrapeHTMLEvents_seven_announcements :
  missing (websiteUrl springfield_chamber) = false /\
  exists events s',
    scrapeHTMLEvents announcements_world springfield_chamber boot = (Ret events, s') /\
    List.length events = 4%nat /\ Forall (plain_event springfield_chamber) events.
Proof.
  pose (W := announcements_world). fold W. split; [reflexivity |].
  destruct (proj2 (scrapeHTMLEvents_events W springfield_chamber boot eq_refl)
              (mkResponse 200 None (VStr "<html>"))
              {| select := fun _ =>
                   List.map (fun t => {| attr := fun _ => None;
                                         find_first_text := fun _ => t |})
                     ["Spring Gala"; "TBA"; "Job Fair"; "Mixer"; "Awards"; "Picnic";
                      "Parade"] |}
              eq_refl eq_refl eq_refl) as (events & s' & E).
  exists events, s'. split; [exact E |].
  destruct (proj1 (scrapeHTMLEvents_events W springfield_chamber boot eq_refl)
              events s' E) as [_ Hall].
  split; [| exact Hall].
  assert (E' : fst (scrapeHTMLEvents W springfield_chamber boot) = Ret events)
    by now rewrite E.
  vm_compute in E'. injection E' as <-. reflexivity.
Defined.


(** * Batches, inactive sources, dates read by hand *)

(** X19: the batches of a collection run, one after the other, are the
    list of the active sources: each source is in exactly one batch, in
    its place, and no batch has more than [size] sources. *)
Theorem batches_cover_the_sources {A} (size : nat) (l : list A) :
  (0 < size)%nat ->
  let batches :=
    List.map (fun i => slice i (i + size) l) (batch_starts size (List.length l)) in
  List.concat batches = l /\
  Forall (fun batch => (List.length batch <= size)%nat) batches.
Proof.
  intros Hsize. split; [now apply batches_partition |].
  apply Forall_forall. intros batch Hin. apply in_map_iff in Hin.
  destruct Hin as (i & <- & _). apply slice_length.
Qed.

(** The eighteen seeded sources: three batches of five and one of
    three. *)
Lemma batches_cover_the_seeded_sources :
  (0 < 5)%nat /\
  batch_starts 5 (List.length initial_sources) = [0; 5; 10; 15]%nat /\
  List.concat
    (List.map (fun i => slice i (i + 5) initial_sources)
       (batch_starts 5 (List.length initial_sources)))
  = initial_sources /\
  Forall (fun batch => (List.length batch <= 5)%nat)
    (List.map (fun i => slice i (i + 5) initial_sources)
       (batch_starts 5 (List.length initial_sources))).
Proof.
  split; [lia |]. split; [reflexivity |].
  apply (batches_cover_the_sources 5 initial_sources). lia.
Defined.

(** X20: a source that is not active contributes nothing: when no active
    source has the id [sourceId], no event of a collection run carries
    that id. *)
Theorem inactive_sources_contribute_nothing (W : World) (s : Sys) (sourceId : string) :
  (forall src, In src (sources s) -> id src = sourceId -> isActive src = false) ->
  exists events s',
    collectFromAllSources W s = (Ret events, s') /\
    Forall (fun e => source e <> sourceId) events.
Proof.
  intros Hoff.
  pose proof (collectFromAllSources_wp W (sources s) s eq_refl) as H.
  unfold wp in H. destruct (collectFromAllSources W s) as [[events | e] s'];
    simpl in H; [| contradiction].
  exists events, s'. split; [reflexivity |].
  destruct H as (_ & Hfrom & _). cbn [fst] in Hfrom.
  eapply Forall_impl; [| exact Hfrom].
  intros e (src & Hin & Hact & Hsrc & _) Heq.
  rewrite (Hoff src Hin) in Hact; [discriminate | congruence].
Qed.

(** Austin switched off: no event of the run is Austin's. *)
Lemma inactive_sources_contribute_nothing_austin :
  (forall src, In src (sources austin_off) -> id src = "austin-city" ->
               isActive src = false) /\
  exists events s',
    collectFromAllSources silent_world austin_off = (Ret events, s') /\
    Forall (fun e => source e <> "austin-city") events.
Proof.
  pose (s := austin_off).
  assert (Hoff : forall src, In src (sources s) -> id src = "austin-city" ->
                             isActive src = false).
  { intros src Hin Hid. simpl in Hin.
    repeat (destruct Hin as [<- | Hin]; [first [reflexivity | discriminate Hid] |]).
    destruct Hin. }
  split; [exact Hoff |].
  exact (inactive_sources_contribute_nothing silent_world s "austin-city" Hoff).
Defined.

(** X21: [parseEventDate] never gives a date that [new Date(dateText)]
    does not give: it answers with no date for an empty text, and for a
    text that the constructor cannot read and that matches none of the
    patterns; otherwise it answers with what the constructor makes of
    the text, which is an invalid date when only a pattern matched. *)
Theorem parseEventDate_is_the_constructor (W : World) (dateText : string) :
  (forall d,
      parseEventDate W dateText = Some d ->
      dateText <> "" /\ d = Date_parse W dateText) /\
  (parseEventDate W dateText = None <->
   dateText = "" \/
   (Date_parse W dateText = InvalidDate /\
    forall pattern, In pattern date_patterns -> RegExp_test W pattern dateText = false)).
Proof.
  unfold parseEventDate.
  destruct (String.eqb_spec dateText "") as [-> | Hne].
  { split; [discriminate |]. split; auto. }
  destruct (Date_parse W dateText) as [| t] eqn:Ed.
  - destruct (existsb (fun pattern => RegExp_test W pattern dateText) date_patterns)
      eqn:Ex.
    + split; [intros d [= <-]; auto |]. split; [discriminate |].
      intros [H | [_ H]]; [contradiction |].
      apply existsb_exists in Ex. destruct Ex as (pattern & Hin & Hp).
      rewrite (H pattern Hin) in Hp. discriminate.
    + split; [discriminate |]. split; [| reflexivity]. intros _. right.
      split; [reflexivity |]. intros pattern Hin.
      destruct (RegExp_test W pattern dateText) eqn:Ep; [| reflexivity].
      rewrite <- Ex. symmetry. apply existsb_exists. now exists pattern.
  - split; [intros d [= <-]; auto |]. split; [discriminate |].
    intros [H | [H _]]; [contradiction | discriminate].
Qed.

(** A text that only the patterns accept is read as an invalid date. *)
Lemma parseEventDate_invalid_date :
  parseEventDate pattern_world "03/15/2025" = Some InvalidDate /\
  InvalidDate = Date_parse pattern_world "03/15/2025".
Proof.
  assert (H : parseEventDate pattern_world "03/15/2025" = Some InvalidDate)
    by reflexivity.
  split; [exact H |].
  exact (proj2 (proj1 (parseEventDate_is_the_constructor pattern_world "03/15/2025")
                  InvalidDate H)).
Defined.


(** * The discovery route *)

(** X22: the discovery route always answers, and never touches the
    registry.  It answers 400 when the city or the state is missing and
    500 when the request has no body or one of the two is not a string,
    without searching; for a city and a state that are non-empty strings
    (the state not being a name every object answers to) it answers 200
    with the feeds found for that city, their count, at most 195, and
    the date, whatever the network does. *)
Theorem discover_feeds_answers (W : World) (body : jsval) (s : Sys) :
  exists resp s',
    discover_feeds W body s = (Ret resp, s') /\
    sources s' = sources s /\
    (lacks_place body ->
     resp = mkHttp 400 (Message "City and state are required") /\ s' = s) /\
    (unreadable_place body ->
     resp = mkHttp 500 (Message "Failed to discover feeds for location") /\ s' = s) /\
    (forall cityName stateName,
        names_place body cityName stateName ->
        inherited_name (Str.trim (Str.toLowerCase stateName)) = false ->
        exists feeds now,
          resp = mkHttp 200
                   (Discovery cityName stateName feeds (Z.of_nat (List.length feeds)) now) /\
          (List.length feeds <= 195)%nat /\
          Forall (candidate (popular_location cityName stateName)) feeds).
Proof.
  unfold discover_feeds, lacks_place, unreadable_place, names_place.
  destruct (Js.get body "city") as [city_ | e] eqn:Ec.
  2: { unfold try_catch, bind, lift, ret. cbn [fst snd].
       do 2 eexists. split; [reflexivity |]. split; [reflexivity |].
       split; [intros (c & st & [=] & _) |]. split; [auto |].
       intros c st ([=] & _). }
  destruct (Js.get body "state") as [state_ | e] eqn:Es.
  2: { destruct body; discriminate. }
  unfold try_catch, bind, lift. cbn [fst snd].
  destruct (Js.truthy city_) eqn:Tc; cbn [negb orb].
  2: { do 2 eexists. split; [reflexivity |]. split; [reflexivity |]. split; [auto |].
       split.
       - intros [[e [=]] | (c & st & [= <-] & _ & H & _)]. congruence.
       - intros c st ([= ->] & _ & Hc & _) _. simpl in Tc.
         destruct (String.eqb_spec c ""); [contradiction | discriminate]. }
  destruct (Js.truthy state_) eqn:Ts; cbn [negb].
  2: { do 2 eexists. split; [reflexivity |]. split; [reflexivity |]. split; [auto |].
       split.
       - intros [[e [=]] | (c & st & _ & [= <-] & _ & H & _)]. congruence.
       - intros c st (_ & [= ->] & _ & Hst) _. simpl in Ts.
         destruct (String.eqb_spec st ""); [contradiction | discriminate]. }
  assert (Hno : forall P : Prop,
             (exists c st : jsval,
                 Ret city_ = Ret c /\ Ret state_ = Ret st /\
                 (Js.truthy c = false \/ Js.truthy st = false)) -> P).
  { intros P (c & st & [= <-] & [= <-] & [H | H]); congruence. }
  destruct state_ as [| | | | stateName | |];
    try (do 2 eexists; split; [reflexivity |]; split; [reflexivity |];
         split; [apply Hno |]; split; [auto | intros c st (_ & [=] & _)]).
  destruct city_ as [| | | | cityName | |];
    try (do 2 eexists; split; [reflexivity |]; split; [reflexivity |];
         split; [apply Hno |]; split; [auto | intros c st ([=] & _)]).
  pose proof (discoverFeedsForPopularLocation_searched W cityName stateName s) as H.
  unfold wp in H.
  destruct (discoverFeedsForPopularLocation W cityName stateName s)
    as [[feeds | e] s1]; simpl in H; [| contradiction].
  destruct H as (Hlen & Hall & _ & Hsrc).
  unfold new_Date, Date_now, bind, interact, ret. cbn [fst snd].
  do 2 eexists. split; [reflexivity |]. split; [exact Hsrc |]. split; [apply Hno |].
  split.
  - intros [[e [=]] | (c & st & [= <-] & [= <-] & _ & _ & [H | H])];
      exfalso; eapply H; reflexivity.
  - intros c st ([= <-] & [= <-] & _) _. exists feeds. eexists.
    repeat split; assumption.
Qed.

Lemma discover_feeds_samples :
  (unreadable_place VUndef /\
   discover_feeds silent_world VUndef boot
   = (Ret (mkHttp 500 (Message "Failed to discover feeds for location")), boot)) /\
  (lacks_place ask_nowhere /\
   discover_feeds silent_world ask_nowhere boot
   = (Ret (mkHttp 400 (Message "City and state are required")), boot)) /\
  (names_place ask_springfield "Springfield" "Illinois" /\
   exists resp s' feeds now,
     discover_feeds springfield_world ask_springfield boot = (Ret resp, s') /\
     resp = mkHttp 200
              (Discovery "Springfield" "Illinois" feeds (Z.of_nat (List.length feeds)) now) /\
     (List.length feeds <= 195)%nat).
Proof.
  assert (H1 : lacks_place ask_nowhere).
  { exists (VStr "Springfield"), VUndef. repeat split. now right. }
  assert (H2 : names_place ask_springfield "Springfield" "Illinois").
  { repeat split; discriminate. }
  assert (H0 : unreadable_place VUndef) by (left; eexists; reflexivity).
  split; [split; [exact H0 |] | split; split; [exact H1 | | exact H2 |]].
  - destruct (discover_feeds_answers silent_world VUndef boot)
      as (resp & s' & E & _ & _ & Hbad & _).
    destruct (Hbad H0) as [-> ->]. exact E.
  - destruct (discover_feeds_answers silent_world ask_nowhere boot)
      as (resp & s' & E & _ & Hbad & _ & _).
    destruct (Hbad H1) as [-> ->]. exact E.
  - destruct (discover_feeds_answers springfield_world ask_springfield boot)
      as (resp & s' & E & _ & _ & _ & Hok).
    destruct (Hok "Springfield" "Illinois" H2 eq_refl) as (feeds & now & Hr & Hlen & _).
    exists resp, s', feeds, now. auto.
Defined.


(** * Cleaned text *)

Lemma thinned_refl s : thinned s s.
Proof. induction s; [apply thinned_nil | apply thinned_keep; auto]. Qed.

Lemma thinned_empty s : thinned "" s.
Proof. induction s; [apply thinned_nil | apply thinned_drop; auto]. Qed.

Lemma thinned_has_char out inp :
  thinned out inp ->
  Str.has_char (Str.eq_char ">") out = true -> Str.has_char (Str.eq_char ">") inp = true.
Proof.
  induction 1 as [| c out inp _ IH | c out inp _ IH | c out inp _ IH]; simpl; auto.
  - intros H. apply orb_prop in H. destruct H as [-> | H]; [reflexivity |].
    rewrite IH by exact H. apply orb_true_r.
  - intros H. rewrite IH by exact H. apply orb_true_r.
  - intros H. rewrite IH by exact H. apply orb_true_r.
Qed.

Lemma thinned_has_tag out inp :
  thinned out inp -> has_tag inp = false -> has_tag out = false.
Proof.
  induction 1 as [| c out inp Ht IH | c out inp _ IH | c out inp _ IH]; simpl; auto.
  - intros H. apply orb_false_iff in H. destruct H as [H1 H2].
    rewrite (IH H2), orb_false_r.
    destruct (Str.eq_char c "<"); [| reflexivity]. simpl in *.
    destruct (Str.has_char (Str.eq_char ">") out) eqn:E; [| reflexivity].
    apply (thinned_has_char _ _ Ht) in E. congruence.
  - intros H. apply orb_false_iff in H. now apply IH.
  - intros H. apply orb_false_iff in H. now apply IH.
Qed.

Lemma thinned_app o1 i1 o2 i2 :
  thinned o1 i1 -> thinned o2 i2 -> thinned (o1 ++ o2) (i1 ++ i2).
Proof.
  induction 1 as [| c out inp _ IH | c out inp _ IH | c out inp _ IH]; simpl;
    intros H2.
  - exact H2.
  - apply thinned_keep; auto.
  - apply thinned_drop; auto.
  - apply thinned_blank; auto.
Qed.

Lemma append_empty s : s ++ "" = s.
Proof. induction s as [| c s IH]; simpl; congruence. Qed.

Lemma thinned_rev out inp : thinned out inp -> thinned (Str.rev out) (Str.rev inp).
Proof.
  induction 1 as [| c out inp _ IH | c out inp _ IH | c out inp _ IH]; simpl.
  - constructor.
  - apply thinned_app; [exact IH | apply thinned_refl].
  - rewrite <- (append_empty (Str.rev out)).
    apply thinned_app; [exact IH | apply thinned_drop, thinned_nil].
  - apply thinned_app; [exact IH | apply thinned_blank, thinned_nil].
Qed.

Lemma strip_tags_has_char b s :
  Str.has_char (Str.eq_char ">") (Str.strip_tags_from b s) = true ->
  Str.has_char (Str.eq_char ">") s = true.
Proof.
  revert b. induction s as [| c s IH]; intros b; simpl; [destruct b; auto |].
  destruct b.
  - intros H. rewrite (IH _ H). apply orb_true_r.
  - destruct (Str.eq_char c "<" && Str.has_char (Str.eq_char ">") s)%bool.
    + intros H. rewrite (IH _ H). apply orb_true_r.
    + simpl. intros H. apply orb_prop in H. destruct H as [-> | H]; [reflexivity |].
      rewrite (IH _ H). apply orb_true_r.
Qed.

Lemma strip_tags_has_tag b s : has_tag (Str.strip_tags_from b s) = false.
Proof.
  revert b. induction s as [| c s IH]; intros b; simpl; [now destruct b |].
  destruct b; [apply IH |].
  destruct (Str.eq_char c "<") eqn:Ec; simpl.
  - destruct (Str.has_char (Str.eq_char ">") s) eqn:Eh; [apply IH |].
    simpl. rewrite Ec, IH, orb_false_r. simpl.
    destruct (Str.has_char (Str.eq_char ">") (Str.strip_tags_from false s)) eqn:E;
      [| reflexivity].
    apply strip_tags_has_char in E. congruence.
  - rewrite Ec. simpl. apply IH.
Qed.

Lemma strip_entities_thinned b s : thinned (Str.strip_entities_from b s) s.
Proof.
  revert b. induction s as [| c s IH]; intros b; simpl;
    [destruct b; apply thinned_nil |].
  destruct b; [apply thinned_drop, IH |].
  destruct (Str.eq_char c "&" && Str.opens_entity s)%bool;
    [apply thinned_blank, IH | apply thinned_keep, IH].
Qed.

Lemma replace_spaces_thinned b s : thinned (Str.replace_spaces_from b " " s) s.
Proof.
  revert b. induction s as [| c s IH]; intros b; simpl; [apply thinned_nil |].
  destruct (Str.is_space c); [| apply thinned_keep, IH].
  destruct b; [apply thinned_drop, IH |]. simpl. apply thinned_blank, IH.
Qed.

Lemma trimStart_thinned s : thinned (Str.trimStart s) s.
Proof.
  induction s as [| c s IH]; simpl; [apply thinned_nil |].
  destruct (Str.is_space c); [apply thinned_drop, IH | apply thinned_refl].
Qed.

Lemma thinned_trans a b c : thinned a b -> thinned b c -> thinned a c.
Proof.
  intros Hab Hbc. revert a Hab.
  induction Hbc as [| x b c _ IH | x b c _ IH | x b c _ IH]; intros a Hab.
  - exact Hab.
  - inversion Hab; subst;
      [apply thinned_keep | apply thinned_drop | apply thinned_blank]; auto.
  - apply thinned_drop; auto.
  - inversion Hab; subst;
      [apply thinned_blank | apply thinned_drop | apply thinned_blank]; auto.
Qed.

Lemma rev_append (a b : string) : Str.rev (a ++ b) = Str.rev b ++ Str.rev a.
Proof.
  induction a as [| c a IH]; simpl; [now rewrite append_empty |].
  now rewrite IH, append_assoc.
Qed.

Lemma rev_twice s : Str.rev (Str.rev s) = s.
Proof.
  induction s as [| c s IH]; simpl; [reflexivity |].
  rewrite rev_append, IH. reflexivity.
Qed.

Lemma trim_thinned s : thinned (Str.trim s) s.
Proof.
  unfold Str.trim.
  apply thinned_trans with (Str.trimStart s); [| apply trimStart_thinned].
  rewrite <- (rev_twice (Str.trimStart s)) at 2.
  apply thinned_rev, trimStart_thinned.
Qed.

Lemma take_thinned n s : thinned (Str.take n s) s.
Proof.
  unfold Str.take. revert n. induction s as [| c s IH]; intros [| n]; simpl.
  - apply thinned_nil.
  - apply thinned_nil.
  - apply thinned_empty.
  - apply thinned_keep, IH.
Qed.

Lemma clean_has_tag s : has_tag (clean s) = false.
Proof.
  unfold clean.
  apply (thinned_has_tag _ _ (take_thinned 300 _)).
  apply (thinned_has_tag _ _ (trim_thinned _)).
  apply (thinned_has_tag _ _ (replace_spaces_thinned false _)).
  apply (thinned_has_tag _ _ (strip_entities_thinned false _)).
  apply strip_tags_has_tag.
Qed.

(** X23: a cleaned text has at most 300 characters and holds no tag (no
    ["<"] with a [">"] after it); what is not a string cannot be
    cleaned. *)
Theorem cleanText_strips_tags (text : jsval) :
  match text with
  | VStr s =>
      exists t, cleanText text = Ret t /\
                (String.length t <= 300)%nat /\ has_tag t = false
  | _ => exists e, cleanText text = Throw e
  end.
Proof.
  destruct text; simpl; eauto.
  eexists. split; [reflexivity |]. split; [apply length_take | apply clean_has_tag].
Qed.


(** * The life of an added source *)

Lemma find_app_absent {A} (p : A -> bool) (l : list A) x :
  (forall y, In y l -> p y = false) -> p x = true ->
  find p (l ++ [x]) = Some x /\
  forall f, change_first p f (l ++ [x]) = (l ++ [f x])%list.
Proof.
  intros Hl Hx. induction l as [| y r IH]; simpl.
  - rewrite Hx. auto.
  - rewrite (Hl y) by now left.
    destruct IH as [IH1 IH2]; [intros z Hz; apply Hl; now right |].
    split; [exact IH1 |]. intros f. now rewrite IH2.
Qed.

Lemma nth_error_end {A} (l : list A) x : nth_error (l ++ [x]) (List.length l) = Some x.
Proof. induction l as [| y r IH]; simpl; auto. Qed.

(** X24: a source that is added inactive waits for its toggle.  Once
    [addSource] has accepted it, a collection run returns no event of
    that source and leaves it as it was, at the end of the registry;
    [toggleSource] with its id then answers [true], and the next run
    gives it a last-sync timestamp. *)
Theorem added_source_waits_for_its_toggle (W : World) (src : CalendarSource)
    (s s1 : Sys) :
  addSource src s = (Ret true, s1) ->
  isActive src = false ->
  (exists events s',
      collectFromAllSources W s1 = (Ret events, s') /\
      Forall (fun e => source e <> id src) events /\
      nth_error (sources s') (List.length (sources s)) = Some src) /\
  (exists s2 events s' t,
      toggleSource (id src) s1 = (Ret true, s2) /\
      collectFromAllSources W s2 = (Ret events, s') /\
      nth_error (sources s') (List.length (sources s))
      = Some (with_lastSync (Some (Time t)) (with_isActive true src))).
Proof.
  rewrite addSource_run.
  destruct (find (clashes src) (sources s)) as [x |] eqn:E; [discriminate |].
  intros [= <-] Hoff.
  assert (Hids : forall y, In y (sources s) -> has_id (id src) y = false).
  { intros y Hy. apply (find_none _ _ E) in Hy. unfold clashes in Hy.
    apply orb_false_iff in Hy. apply Hy. }
  assert (Hself : has_id (id src) src = true) by apply String.eqb_refl.
  split.
  - pose proof (collectFromAllSources_wp W _ (mkSys (tick s) (push [src] (sources s)))
                  eq_refl) as H.
    pose proof (collectFromAllSources_at W (mkSys (tick s) (push [src] (sources s)))
                  _ _ (nth_error_end (sources s) src)) as Hat.
    unfold wp in H. destruct (collectFromAllSources W _) as [[events | e] s'];
      simpl in H; [| contradiction].
    exists events, s'. split; [reflexivity |].
    destruct H as (_ & Hfrom & _). cbn [fst snd sources] in *. split.
    + eapply Forall_impl; [| exact Hfrom].
      intros e (src' & Hin & Hact & Hsrc & _) Heq. unfold push in Hin.
      apply in_app_or in Hin. destruct Hin as [Hin | [<- | []]]; [| congruence].
      specialize (Hids src' Hin). unfold has_id in Hids.
      apply String.eqb_neq in Hids. congruence.
    + destruct Hat as (y & Hy & Hrun). unfold after_run in Hrun.
      rewrite Hoff in Hrun. now subst y.
  - destruct (find_app_absent _ _ _ Hids Hself) as [Hfind Hchange].
    pose proof (toggleSource_run (id src) (mkSys (tick s) (push [src] (sources s))))
      as Ht.
    cbn [sources tick] in Ht. unfold push in Ht. rewrite Hfind, Hchange in Ht.
    rewrite Hoff in Ht. cbn [negb] in Ht.
    pose proof (collectFromAllSources_at W
                  (mkSys (tick s) (sources s ++ [flip_active src])%list)
                  _ _ (nth_error_end (sources s) (flip_active src))) as Hat.
    destruct Hat as (y & Hy & Hrun). unfold after_run, flip_active in Hrun.
    rewrite Hoff in Hrun. cbn [isActive with_isActive negb] in Hrun.
    destruct Hrun as [t ->].
    destruct (collectFromAllSources W
                (mkSys (tick s) (sources s ++ [flip_active src])%list))
      as [[events | e] s'] eqn:Erun.
    + exists (mkSys (tick s) (sources s ++ [flip_active src])%list), events, s', t.
      split; [exact Ht |]. split; [exact Erun |]. exact Hy.
    + pose proof (collectFromAllSources_wp W _
                    (mkSys (tick s) (sources s ++ [flip_active src])%list) eq_refl) as H.
      unfold wp in H. rewrite Erun in H. destruct H.
Qed.

(** Boise's walk-in announcements, added then switched on. *)
Lemma added_source_waits_for_its_toggle_walk_in :
  addSource walk_in fresh_collector
  = (Ret true, mkSys 0 (initial_sources ++ [walk_in])) /\
  isActive walk_in = false /\
  (exists events s',
      collectFromAllSources silent_world (mkSys 0 (initial_sources ++ [walk_in]))
      = (Ret events, s') /\
      Forall (fun e => source e <> "walk-in") events /\
      nth_error (sources s') 18 = Some walk_in) /\
  (exists s2 events s' t,
      toggleSource "walk-in" (mkSys 0 (initial_sources ++ [walk_in])) = (Ret true, s2) /\
      collectFromAllSources silent_world s2 = (Ret events, s') /\
      nth_error (sources s') 18
      = Some (with_lastSync (Some (Time t)) (with_isActive true walk_in))).
Proof.
  assert (H : addSource walk_in fresh_collector
              = (Ret true, mkSys 0 (initial_sources ++ [walk_in]))) by reflexivity.
  split; [exact H |]. split; [reflexivity |].
  exact (added_source_waits_for_its_toggle silent_world walk_in fresh_collector _ H
           eq_refl).
Defined.
(** * The dates of a JSON entry *)

(** X25: the record the JSON parser makes of an entry with no
    [start_date] and no [end_date] ends when it starts if the entry has
    a [date], and otherwise starts at the instant the entry is read and
    lasts two hours; with an [end_date], the record ends there. *)
Theorem json_event_dates (W : World) (src : CalendarSource) (event : jsval)
    (s : Sys) (e : InsertEvent) (s' : Sys) :
  json_event W src event s = (Ret e, s') ->
  (lacks event "start_date" -> lacks event "end_date" -> ~ lacks event "date" ->
   startDate e = Date_of W (Js.get_opt event "date") /\ endDate e = startDate e) /\
  (lacks event "start_date" -> lacks event "end_date" -> lacks event "date" ->
   startDate e = Time (clock W (tick s)) /\
   endDate e = Time (clock W (tick s) + 2 * 60 * 60 * 1000)) /\
  (~ lacks event "end_date" -> endDate e = Date_of W (Js.get_opt event "end_date")).
Proof.
  unfold lacks, json_event, new_Date, Date_now, bind, lift, interact, ret.
  destruct event as [| | | | | | fields]; try discriminate.
  - cbn [Js.get Js.get_opt Js.or Js.truthy fst snd].
    intros [= <- <-]. cbn [startDate endDate]. repeat split; congruence.
  - cbn [Js.get Js.get_opt Js.or Js.truthy fst snd].
    intros [= <- <-]. cbn [startDate endDate]. repeat split; congruence.
  - cbn [Js.get Js.get_opt Js.or Js.truthy fst snd].
    intros [= <- <-]. cbn [startDate endDate]. repeat split; congruence.
  - cbn [Js.get Js.get_opt Js.or Js.truthy fst snd].
    intros [= <- <-]. cbn [startDate endDate]. repeat split; congruence.
  - cbn [Js.get Js.get_opt fst snd]. unfold Js.or.
    destruct (Js.truthy (Js.lookup "start_date" fields)) eqn:Es;
      destruct (Js.truthy (Js.lookup "end_date" fields)) eqn:Ee;
      destruct (Js.truthy (Js.lookup "date" fields)) eqn:Ed;
      rewrite ?Es, ?Ee, ?Ed; cbn [fst snd];
      repeat match goal with
             | |- context [match ?o with Ret _ => _ | Throw _ => _ end] =>
                 destruct o; cbn [fst snd]; try discriminate
             | |- context [if ?b then _ else _] => destruct b; cbn [fst snd]
             end;
      intros [= <- <-]; cbn [startDate endDate];
      (split; [| split]); intros; try congruence; split; reflexivity.
Qed.

(** A meetup dated by [date] alone. *)
Lemma json_event_dates_meetup :
  lacks meetup "start_date" /\ lacks meetup "end_date" /\ ~ lacks meetup "date" /\
  exists e s',
    json_event silent_world nyc_events meetup boot = (Ret e, s') /\
    startDate e = Date_of silent_world (VStr "2025-03-01") /\
    endDate e = startDate e.
Proof.
  assert (H1 : lacks meetup "start_date") by reflexivity.
  assert (H2 : lacks meetup "end_date") by reflexivity.
  assert (H3 : ~ lacks meetup "date") by discriminate.
  split; [exact H1 |]. split; [exact H2 |]. split; [exact H3 |].
  destruct (json_event silent_world nyc_events meetup boot) as [r s'] eqn:E.
  pose proof E as E'. vm_compute in E'. injection E' as <- <-.
  do 2 eexists. split; [reflexivity |].
  exact (proj1 (json_event_dates silent_world nyc_events meetup boot _ _ E) H1 H2 H3).
Defined.


(** * Feeds of equal confidence *)

Lemma ties_checked :
  forallb (fun x => forallb (fun y => forallb (tie_checks x y) scores) scores) scores
  = true.
Proof. vm_compute. reflexivity. Qed.

Lemma score_ties x y c :
  In x scores -> In y scores -> In c scores ->
  (0 <? y - x)%float = true -> ((x =? c) && (y =? c))%float%bool = false.
Proof.
  intros Hx Hy Hc Hlt. pose proof ties_checked as H.
  rewrite forallb_forall in H. specialize (H x Hx).
  rewrite forallb_forall in H. specialize (H y Hy).
  rewrite forallb_forall in H. specialize (H c Hc).
  unfold tie_checks in H. rewrite Hlt in H. cbn [andb] in H.
  now apply negb_true_iff in H.
Qed.

Lemma sort_insert_tied c x l :
  In c scores -> validated x -> Forall validated l ->
  List.filter (tied c) (sort_insert by_confidence x l) = List.filter (tied c) (x :: l).
Proof.
  intros Hc Hx. induction l as [| y r IH]; intros Hl; [reflexivity |].
  inversion Hl as [| ? ? Hy Hr]; subst. cbn [sort_insert].
  destruct (0 <? by_confidence x y)%float eqn:E; [| reflexivity].
  cbn [List.filter]. rewrite (IH Hr). cbn [List.filter].
  pose proof (score_ties _ _ _ Hx Hy Hc E) as Ht. unfold tied.
  destruct (confidence x =? c)%float; destruct (confidence y =? c)%float;
    try reflexivity; discriminate.
Qed.

Lemma sort_tied c l :
  In c scores -> Forall validated l ->
  List.filter (tied c) (sort by_confidence l) = List.filter (tied c) l.
Proof.
  intros Hc. induction l as [| x r IH]; intros Hl; [reflexivity |].
  inversion Hl as [| ? ? Hx Hr]; subst. cbn [sort fold_right].
  fold (sort by_confidence r).
  rewrite sort_insert_tied by (auto; now apply sort_Forall).
  cbn [List.filter]. now rewrite IH.
Qed.

(** X26: feeds of equal confidence are returned in the order in which
    they were found: those of the government domains, then those of the
    school domains, then those of the chamber domains. *)
Theorem discovery_keeps_ties_in_order (W : World) (location : LocationInfo) (s : Sys) :
  let citySlug := createCitySlug (loc_city location) in
  let stateSlug := Str.toLowerCase (loc_state location) in
  exists gov sch cham s1 s2 s3 feeds,
    discoverGovernmentFeeds W location citySlug stateSlug s = (Ret gov, s1) /\
    discoverSchoolFeeds W location citySlug stateSlug s1 = (Ret sch, s2) /\
    discoverChamberFeeds W location citySlug stateSlug s2 = (Ret cham, s3) /\
    discoverFeedsForLocation W location s = (Ret feeds, s3) /\
    forall c, In c scores ->
              List.filter (tied c) feeds = List.filter (tied c) (gov ++ sch ++ cham).
Proof.
  intros citySlug stateSlug.
  unfold discoverGovernmentFeeds, discoverSchoolFeeds, discoverChamberFeeds.
  pose proof (discoverFromPatterns_validated W governmentDomainPatterns city location
                citySlug stateSlug s) as H1.
  unfold wp in H1.
  destruct (discoverFromPatterns W governmentDomainPatterns city location citySlug
              stateSlug s) as [[gov | e] s1] eqn:E1; simpl in H1; [| contradiction].
  pose proof (discoverFromPatterns_validated W schoolDistrictPatterns school location
                citySlug stateSlug s1) as H2.
  unfold wp in H2.
  destruct (discoverFromPatterns W schoolDistrictPatterns school location citySlug
              stateSlug s1) as [[sch | e] s2] eqn:E2; simpl in H2; [| contradiction].
  pose proof (discoverFromPatterns_validated W chamberPatterns chamber location
                citySlug stateSlug s2) as H3.
  unfold wp in H3.
  destruct (discoverFromPatterns W chamberPatterns chamber location citySlug
              stateSlug s2) as [[cham | e] s3] eqn:E3; simpl in H3; [| contradiction].
  exists gov, sch, cham, s1, s2, s3, (sort by_confidence (gov ++ sch ++ cham)).
  split; [reflexivity |]. split; [exact E2 |]. split; [exact E3 |]. split.
  - unfold discoverFeedsForLocation, discoverGovernmentFeeds, discoverSchoolFeeds,
      discoverChamberFeeds, bind. fold citySlug stateSlug.
    rewrite E1, E2, E3. unfold ret, push. cbn [app]. now rewrite app_assoc.
  - intros c Hc. apply sort_tied; [exact Hc |].
    apply Forall_app. split; [exact H1 |]. apply Forall_app. auto.
Qed.

(** Springfield, where the chamber's calendar is the only feed found. *)
Lemma discovery_keeps_ties_in_order_springfield :
  In 0.5%float scores /\
  exists gov sch cham s1 s2 s3 feeds,
    discoverGovernmentFeeds springfield_world springfield "springfield" "il" boot
    = (Ret gov, s1) /\
    discoverSchoolFeeds springfield_world springfield "springfield" "il" s1
    = (Ret sch, s2) /\
    discoverChamberFeeds springfield_world springfield "springfield" "il" s2
    = (Ret cham, s3) /\
    discoverFeedsForLocation springfield_world springfield boot = (Ret feeds, s3) /\
    List.filter (tied 0.5) feeds = List.filter (tied 0.5) (gov ++ sch ++ cham).
Proof.
  assert (Hc : In 0.5%float scores) by (vm_compute; auto 12).
  split; [exact Hc |].
  destruct (discovery_keeps_ties_in_order springfield_world springfield boot)
    as (gov & sch & cham & s1 & s2 & s3 & feeds & E1 & E2 & E3 & E & H).
  exists gov, sch, cham, s1, s2, s3, feeds.
  split; [exact E1 |]. split; [exact E2 |]. split; [exact E3 |]. split; [exact E |].
  exact (H _ Hc).
Defined.


